(** * A shallow embedding of [src/firestore-query.js] (MockFirestoreQuery)

    The query object of the Firestore test double: a builder
    ([where], [orderBy], [limit], [startAfter], [clone]), the evaluation
    [_results], and the deferred delivery of [get] and [onSnapshot]
    through a flush queue shared with the parent.

    JavaScript objects are kept as association lists in enumeration
    order, query instances live in a store addressed by location, and the
    synchronous code of the event loop is a labelled step function. *)

From stdpp Require Import gmap strings list sorting.
From Stdlib Require Import ZArith Ascii.

Open Scope string_scope.
Open Scope list_scope.
Set Warnings "-register-all".

(** ** Values *)

(** Plain document values.  Numbers are the integers among the
    JavaScript numbers. *)
Inductive value : Type :=
| VUndefined
| VNull
| VBool (b : bool)
| VNum (n : Z)
| VStr (s : string)
| VArr (items : list value)
| VObj (fields : list (string * value)).

(** A document body is an object; its fields in enumeration order. *)
Definition doc : Type := list (string * value).

(** The records of a collection: document id and body, in the
    enumeration order of the JavaScript object that holds them. *)
Definition docs : Type := list (string * doc).

(** ** Own property order of a JavaScript object

    An object enumerates the keys that are array indices first, in
    ascending numeric order, and the other string keys after them in the
    order of their creation. *)

Definition digit (a : ascii) : option N :=
  let n := N_of_ascii a in
  if ((48 <=? n) && (n <=? 57))%N then Some (n - 48)%N else None.

Fixpoint digits (s : string) (acc : N) : option N :=
  match s with
  | EmptyString => Some acc
  | String a s' =>
      match digit a with
      | Some d => digits s' (10 * acc + d)%N
      | None => None
      end
  end.

(** [array_index k] is [Some i] when [k] is the canonical decimal
    spelling of an array index [i], that is [0 <= i < 2^32 - 1]. *)
Definition array_index (k : string) : option N :=
  match k with
  | EmptyString => None
  | String "0"%char EmptyString => Some 0%N
  | String "0"%char _ => None
  | _ =>
      match digits k 0 with
      | Some n => if (n <=? 4294967294)%N then Some n else None
      | None => None
      end
  end.

Section Objects.
Context {A : Type}.

Definition keys (o : list (string * A)) : list string := o.*1.

Fixpoint obj_get (k : string) (o : list (string * A)) : option A :=
  match o with
  | [] => None
  | (k', v) :: o' => if String.eqb k k' then Some v else obj_get k o'
  end.

Definition obj_has (k : string) (o : list (string * A)) : bool :=
  match obj_get k o with Some _ => true | None => false end.

Fixpoint obj_replace (k : string) (v : A) (o : list (string * A))
  : list (string * A) :=
  match o with
  | [] => []
  | (k', v') :: o' =>
      if String.eqb k k' then (k', v) :: o'
      else (k', v') :: obj_replace k v o'
  end.

(** A new array-index key goes before the first key that is a larger
    index or no index at all. *)
Fixpoint obj_insert_index (i : N) (k : string) (v : A)
  (o : list (string * A)) : list (string * A) :=
  match o with
  | [] => [(k, v)]
  | (k', v') :: o' =>
      match array_index k' with
      | Some j =>
          if (j <? i)%N then (k', v') :: obj_insert_index i k v o'
          else (k, v) :: o
      | None => (k, v) :: o
      end
  end.

(** [o[k] = v] *)
Definition obj_set (k : string) (v : A) (o : list (string * A))
  : list (string * A) :=
  if obj_has k o then obj_replace k v o
  else match array_index k with
       | Some i => obj_insert_index i k v o
       | None => o ++ [(k, v)]
       end.

(** The object obtained by assigning the entries of [l] in turn to an
    empty object. *)
Definition obj_of_list (l : list (string * A)) : list (string * A) :=
  foldl (fun acc kv => obj_set kv.1 kv.2 acc) [] l.
End Objects.

(** [key_before k1 k2]: an object that holds both keys may enumerate
    [k1] before [k2]. *)
Definition key_before (k1 k2 : string) : Prop :=
  match array_index k1, array_index k2 with
  | Some i, Some j => (i < j)%N
  | Some _, None => True
  | None, None => True
  | None, Some _ => False
  end.

#[export] Instance key_before_dec k1 k2 : Decision (key_before k1 k2).
Proof.
  unfold key_before.
  destruct (array_index k1), (array_index k2); apply _.
Defined.

(** The key lists of JavaScript objects: no key twice, in own property
    order. *)
Definition js_keys (ks : list string) : Prop :=
  NoDup ks ∧ StronglySorted key_before ks.

Definition js_object {A : Type} (o : list (string * A)) : Prop :=
  js_keys (keys o).

#[export] Instance js_keys_dec ks : Decision (js_keys ks).
Proof. unfold js_keys. apply _. Defined.

(** ** The library functions the query relies on

    [lodash] is an external library.  Its functions are taken through an
    interface; [plain_lodash] below implements it on plain values. *)

(** The [property] argument of [where] and [orderBy]: the sentinel
    [FieldPath.documentId()], another [FieldPath] or a string. *)
Inductive property : Type :=
| DocumentId
| FieldPath (_path : list string)
| Name (s : string).

Class Lodash : Type := {
  (** [_.get(object, path)] for a path string *)
  get : value -> string -> value;
  (** [_.isEqual(value, other)] *)
  isEqual : value -> value -> bool;
  (** [_.includes(collection, value)] *)
  includes : value -> value -> bool;
  (** the comparison of two sort keys inside [_.orderBy] *)
  compareAscending : value -> value -> comparison;
  (** the string lodash reads a [FieldPath] object as, when the object is
      handed to [_.get] as a path *)
  pathString : property -> string
}.


(** *** [_.orderBy(collection, iteratees, orders)]

    Every element is paired with its criteria and its position; the
    pairs are sorted with [compareMultiple], which falls back on the
    position; the elements are read back. *)
Section OrderBy.
Context {L : Lodash} {A : Type}.

Record entry : Type := Entry {
  criteria : list value;
  index : nat;
  entry_value : A
}.

Fixpoint compareCriteria (objCriteria othCriteria : list value)
  (orders : list string) : comparison :=
  match objCriteria, othCriteria with
  | c :: cs, d :: ds =>
      match compareAscending c d with
      | Eq => compareCriteria cs ds (tail orders)
      | result =>
          match orders with
          | [] => result
          | order :: _ =>
              if String.eqb order "desc" then CompOpp result else result
          end
      end
  | _, _ => Eq
  end.

Definition compareMultiple (orders : list string) (object other : entry)
  : comparison :=
  match compareCriteria (criteria object) (criteria other) orders with
  | Eq => Nat.compare (index object) (index other)
  | result => result
  end.

(** [Array.prototype.sort] with a comparison function: a stable sort.
    An element is put before the first one it does not exceed. *)
Fixpoint sort_insert (comparer : entry -> entry -> comparison)
  (x : entry) (l : list entry) : list entry :=
  match l with
  | [] => [x]
  | y :: l' =>
      match comparer x y with
      | Gt => y :: sort_insert comparer x l'
      | _ => x :: l
      end
  end.

Definition array_sort (comparer : entry -> entry -> comparison)
  (l : list entry) : list entry :=
  foldr (sort_insert comparer) [] l.

Definition entries (iteratee : A -> list value) (collection : list A)
  : list entry :=
  imap (fun i x => Entry (iteratee x) i x) collection.

Definition baseOrderBy (collection : list A)
  (iteratee : A -> list value) (orders : list string) : list A :=
  entry_value <$> array_sort (compareMultiple orders)
                    (entries iteratee collection).
End OrderBy.

Arguments entry : clear implicits.

(** ** The evaluation of a query *)

(** [getPropertyPath(p)] *)
Definition getPropertyPath (p : property) : string :=
  match p with
  | DocumentId => "key"
  | FieldPath _path => "data." +:+ String.concat "." _path
  | Name p => "data." +:+ p
  end.

(** The argument [_.get(data, property)] receives in the
    [array-contains] and [in] branches of [where]. *)
Definition rawPath {L : Lodash} (p : property) : string :=
  match p with
  | Name s => s
  | _ => pathString p
  end.

(** [{ data: data, key: key }] *)
Definition queryable (data : doc) (key : string) : value :=
  VObj [("data", VObj data); ("key", VStr key)].

(** [buildStartFinder]: the function installed by the constructor, or
    the one installed by [startAfter(doc)], which keeps [doc.ref.id]. *)
Inductive startFinderBuilder : Type :=
| FromStart
| AfterDoc (id : string).

(** One call of the function that [buildStartFinder()] returned.  Its
    variable [next] is threaded through: the result and the new [next]. *)
Definition startFinder (b : startFinderBuilder) (next : bool)
  (key : string) : bool * bool :=
  match b with
  | FromStart => (true, next)
  | AfterDoc id =>
      if next then (true, next) else (false, String.eqb key id)
  end.

(** The variables of one run of [_results]. *)
Record walk_state : Type := WalkState {
  results : docs;
  limit : Z;
  atStart : bool;
  atEnd : bool;
  next : bool
}.

(** [var results = {}; var limit = 0; var atStart = false; var atEnd =
    false; var startFinder = this.buildStartFinder();] *)
Definition walk_init : walk_state :=
  WalkState [] 0 false false false.

(** [inRange(data, key)] *)
Definition inRange (b : startFinderBuilder) (st : walk_state)
  (key : string) : bool * walk_state :=
  if atEnd st then (false, st)
  else if atStart st then (true, st)
  else
    let '(r, n) := startFinder b (next st) key in
    (r, WalkState (results st) (limit st) r (atEnd st) n).

(** The body of both loops of [_results]. *)
Definition walk_step (b : startFinderBuilder) (limited : Z)
  (st : walk_state) (rec : string * doc) : walk_state :=
  let '(key, data) := rec in
  let '(r, st1) := inRange b st key in
  if r && ((limited <=? 0)%Z || (limit st1 <? limited)%Z) then
    WalkState (obj_set key data (results st1)) (limit st1 + 1)
      (atStart st1) (atEnd st1) (next st1)
  else st1.

Section Evaluation.
Context {L : Lodash}.

(** The sequence the records are walked in: the enumeration order of
    [this.data], or the outcome of [_.orderBy]. *)
Definition traversal (data : docs) (orderedProperties : list property)
  (orderedDirections : list string) : list (string * doc) :=
  match orderedProperties with
  | [] => data
  | _ =>
      let orderBy := getPropertyPath <$> orderedProperties in
      baseOrderBy data
        (fun q => (fun path => get (queryable q.2 q.1) path) <$> orderBy)
        orderedDirections
  end.

(** [_results] on the fields it reads. *)
Definition results_of (data : option docs)
  (orderedProperties : list property) (orderedDirections : list string)
  (limited : Z) (buildStartFinder : startFinderBuilder) : docs :=
  match data with
  | None => []
  | Some data =>
      if (length data =? 0)%nat then []
      else
        results
          (foldl (walk_step buildStartFinder limited) walk_init
             (traversal data orderedProperties orderedDirections))
  end.

(** The object [where] hands to [_setData], for a supported
    [operator]. *)
Definition where_step (property : property) (operator : string)
  (value : value) (results : docs) (rec : string * doc) : docs :=
  let '(key, data) := rec in
  let path := getPropertyPath property in
  if String.eqb operator "==" then
    if isEqual (get (queryable data key) path) value
    then obj_set key data results else results
  else if String.eqb operator "array-contains" then
    if includes (get (VObj data) (rawPath property)) value
    then obj_set key data results else results
  else if String.eqb operator "in" then
    if includes value (get (VObj data) (rawPath property))
    then obj_set key data results else results
  else obj_set key data results.

Definition supported (operator : string) : bool :=
  String.eqb operator "==" || String.eqb operator "array-contains"
  || String.eqb operator "in".
End Evaluation.

(** ** The library on plain values

    [plain_lodash] follows lodash on the values above, for property
    names written with dots only (no brackets) and not shadowed by the
    prototype of [Object]. *)
Module Plain.

(** ["a.b"] is [["a"; "b"]] *)
Fixpoint stringToPath (s : string) : list string :=
  match s with
  | EmptyString => [EmptyString]
  | String c s' =>
      let r := stringToPath s' in
      if Ascii.eqb c "."%char then EmptyString :: r
      else match r with
           | [] => [String c EmptyString]
           | seg :: rest => String c seg :: rest
           end
  end.

(** [baseGet]: one property access per segment, until the value is
    [null] or [undefined]. *)
Fixpoint baseGet (object : value) (path : list string) : value :=
  match path with
  | [] => object
  | k :: path' =>
      match object with
      | VObj fields =>
          match obj_get k fields with
          | Some v => baseGet v path'
          | None => VUndefined
          end
      | VArr items =>
          match array_index k with
          | Some i =>
              match items !! N.to_nat i with
              | Some v => baseGet v path'
              | None => VUndefined
              end
          | None =>
              if String.eqb k "length"
              then baseGet (VNum (Z.of_nat (length items))) path'
              else VUndefined
          end
      | _ => VUndefined
      end
  end.

(** A path that is itself a key of the object is not split. *)
Definition get (object : value) (path : string) : value :=
  match object with
  | VObj fields =>
      match obj_get path fields with
      | Some v => v
      | None => baseGet object (stringToPath path)
      end
  | _ => baseGet object (stringToPath path)
  end.

(** Deep equality: arrays by position, objects by key whatever the
    order of the keys. *)
Fixpoint isEqual (a b : value) : bool :=
  match a, b with
  | VUndefined, VUndefined => true
  | VNull, VNull => true
  | VBool x, VBool y => Bool.eqb x y
  | VNum x, VNum y => (x =? y)%Z
  | VStr x, VStr y => String.eqb x y
  | VArr xs, VArr ys =>
      (fix go (xs ys : list value) : bool :=
         match xs, ys with
         | [], [] => true
         | x :: xs', y :: ys' => isEqual x y && go xs' ys'
         | _, _ => false
         end) xs ys
  | VObj fs, VObj gs =>
      (length fs =? length gs)%nat &&
      (fix go (fs : list (string * value)) : bool :=
         match fs with
         | [] => true
         | (k, x) :: fs' =>
             match obj_get k gs with
             | Some y => isEqual x y
             | None => false
             end && go fs'
         end) fs
  | _, _ => false
  end.

(** [SameValueZero]: primitives by value; an array or object is only
    the same as itself, and a value handed in from outside is never
    the stored one. *)
Definition sameValueZero (a b : value) : bool :=
  match a, b with
  | VUndefined, VUndefined => true
  | VNull, VNull => true
  | VBool x, VBool y => Bool.eqb x y
  | VNum x, VNum y => (x =? y)%Z
  | VStr x, VStr y => String.eqb x y
  | _, _ => false
  end.

Fixpoint isPrefix (p s : string) : bool :=
  match p, s with
  | EmptyString, _ => true
  | String a p', String b s' => Ascii.eqb a b && isPrefix p' s'
  | _, _ => false
  end.

Fixpoint isSubstring (p s : string) : bool :=
  isPrefix p s ||
  match s with
  | EmptyString => false
  | String _ s' => isSubstring p s'
  end.

Definition includes (collection value : value) : bool :=
  match collection with
  | VArr items => existsb (sameValueZero value) items
  | VObj fields => existsb (sameValueZero value) fields.*2
  | VStr s =>
      match value with
      | VStr p => isSubstring p s
      | _ => false
      end
  | _ => false
  end.

Definition kind (v : value) : nat :=
  match v with
  | VBool _ => 0
  | VNum _ => 1
  | VStr _ => 2
  | VArr _ => 3
  | VObj _ => 3
  | VNull => 4
  | VUndefined => 5
  end.

Fixpoint compareString (s t : string) : comparison :=
  match s, t with
  | EmptyString, EmptyString => Eq
  | EmptyString, String _ _ => Lt
  | String _ _, EmptyString => Gt
  | String a s', String b t' =>
      match N.compare (N_of_ascii a) (N_of_ascii b) with
      | Eq => compareString s' t'
      | r => r
      end
  end.

(** Two numbers, two strings or two booleans compare as [<] and [>]
    have them; [null] is above every other value but [undefined], and
    [undefined] above all.  Values of different kinds, which
    JavaScript coerces before it compares them, are ordered by kind
    here. *)
Definition compareAscending (a b : value) : comparison :=
  match a, b with
  | VBool x, VBool y => Bool.compare x y
  | VNum x, VNum y => Z.compare x y
  | VStr x, VStr y => compareString x y
  | _, _ => Nat.compare (kind a) (kind b)
  end.

(** A [FieldPath] has no string form of its own. *)
Definition pathString (p : property) : string := "[object Object]".

End Plain.

Definition plain_lodash : Lodash := {|
  get := Plain.get;
  isEqual := Plain.isEqual;
  includes := Plain.includes;
  compareAscending := Plain.compareAscending;
  pathString := Plain.pathString
|}.

(** ** The store *)

(** Objects that are shared and compared by reference are kept in
    stores and named by their position. *)
Definition loc : Type := nat.

Inductive error : Type := Error (message : string).

(** The values of [flushDelay]: [false], [true] or a number of
    milliseconds. *)
Inductive delay : Type :=
| DFalse
| DTrue
| DNumber (ms : Z).

#[export] Instance delay_eq_dec : EqDecision delay.
Proof. solve_decision. Defined.

(** [self.parent === null ? self : self.parent.collection(self.id)] *)
Inductive reference : Type :=
| Self (self : loc)
| Collection (parent : loc) (id : option string).

(** [new QuerySnapshot(ref, data, priorData)], each of the two last
    arguments present or left out. *)
Inductive snapshot : Type :=
| QuerySnapshot (ref : reference) (data : option docs)
    (priorData : option docs).

(** The function [get] defers: it closes over [self], [err] and the
    [resolve] and [reject] of its promise. *)
Inductive deferred : Type :=
| GetCallback (self : loc) (err : option error) (promise : loc).

(** The object [_defer] pushes on the queue. *)
Record event : Type := Event {
  fn : deferred;
  context : loc;
  sourceMethod : string
}.

(** The function handed to [then]: the one of [onSnapshot], for the
    subscription that made the call. *)
Inductive reaction : Type :=
| SnapshotReaction (subscription : loc).

Inductive promise_state : Type :=
| Pending
| Fulfilled (s : snapshot)
| Rejected (e : error).

Record promise : Type := Promise {
  state : promise_state;
  reactions : list reaction
}.

(** The closure [onSnapshot] builds: what it captured, and
    [context.data]. *)
Record subscription : Type := Subscription {
  sub_self : loc;
  sub_err : option error;
  includeMetadataChanges : bool;
  context_data : docs
}.

(** Modelled from the spec: the class [Queue] of [queue.js], which is
    not among the sources.  The queue holds the deferred work in the
    order it was pushed, and the callbacks registered to run after every
    flush.  A flush drains the work, every deferred callback executing
    in order, and then runs the registered callbacks; with a numeric
    delay it does so later. *)
Record Queue : Type := MkQueue {
  events : list event;
  postFlush : list loc
}.

(** An instance of [MockFirestoreQuery], field by field.  The two
    arrays are references into the array stores.  A parent is kept with
    the fields a query reads from it. *)
Record query : Type := Query {
  errs : gmap string error;
  path : string;
  id : option string;
  flushDelay : delay;
  queue : loc;
  parent : option loc;
  firestore : option loc;
  children : list (string * loc);
  orderedProperties : loc;
  orderedDirections : loc;
  limited : Z;
  buildStartFinder : startFinderBuilder;
  data : option docs
}.

(** Synchronous code that has been entered and not left. *)
Inductive task : Type :=
| Drain (q : loc)
| PostFlush (q : loc) (handlers : list loc).

(** What the outside sees happen, in order. *)
Inductive observation : Type :=
| OnNext (subscription : loc) (s : snapshot)
| OnError (subscription : loc) (e : error)
| Flushed (q : loc).

Record world : Type := World {
  queries : list query;
  propertyArrays : list (list property);
  directionArrays : list (list string);
  queues : list Queue;
  promises : list promise;
  subscriptions : list subscription;
  stack : list task;
  jobs : list (reaction * snapshot);
  timers : list (Z * loc);
  console : list string;
  trace : list observation
}.

Definition empty_world : world :=
  World [] [] [] [] [] [] [] [] [] [] [].

(** ** Computations on the store *)

Inductive outcome (A : Type) : Type :=
| Ret (a : A) (w : world)
| Throw (e : error) (w : world)
| Fault
| Timeout.

Arguments Ret {A} a w.
Arguments Throw {A} e w.
Arguments Fault {A}.
Arguments Timeout {A}.

Definition M (A : Type) : Type := world -> outcome A.

#[export] Instance M_ret : MRet M := fun A a w => Ret a w.

#[export] Instance M_bind : MBind M := fun A B k m w =>
  match m w with
  | Ret a w' => k a w'
  | Throw e w' => Throw e w'
  | Fault => Fault
  | Timeout => Timeout
  end.

Definition throw {A : Type} (e : error) : M A := fun w => Throw e w.

Definition fault {A : Type} : M A := fun _ => Fault.

Definition timeout {A : Type} : M A := fun _ => Timeout.

Definition read {A : Type} (f : world -> A) : M A := fun w => Ret (f w) w.

Definition write (f : world -> world) : M unit := fun w => Ret tt (f w).

(** The object a reference names; a reference that names nothing is a
    fault. *)
Definition deref {A : Type} (store : world -> list A) (l : loc) : M A :=
  fun w => match store w !! l with Some a => Ret a w | None => Fault end.

Definition set_queries (f : list query -> list query) (w : world) : world :=
  World (f (queries w)) (propertyArrays w) (directionArrays w) (queues w)
    (promises w) (subscriptions w) (stack w) (jobs w) (timers w)
    (console w) (trace w).

Definition set_propertyArrays
  (f : list (list property) -> list (list property)) (w : world) : world :=
  World (queries w) (f (propertyArrays w)) (directionArrays w) (queues w)
    (promises w) (subscriptions w) (stack w) (jobs w) (timers w)
    (console w) (trace w).

Definition set_directionArrays
  (f : list (list string) -> list (list string)) (w : world) : world :=
  World (queries w) (propertyArrays w) (f (directionArrays w)) (queues w)
    (promises w) (subscriptions w) (stack w) (jobs w) (timers w)
    (console w) (trace w).

Definition set_queues (f : list Queue -> list Queue) (w : world) : world :=
  World (queries w) (propertyArrays w) (directionArrays w) (f (queues w))
    (promises w) (subscriptions w) (stack w) (jobs w) (timers w)
    (console w) (trace w).

Definition set_promises (f : list promise -> list promise) (w : world)
  : world :=
  World (queries w) (propertyArrays w) (directionArrays w) (queues w)
    (f (promises w)) (subscriptions w) (stack w) (jobs w) (timers w)
    (console w) (trace w).

Definition set_subscriptions
  (f : list subscription -> list subscription) (w : world) : world :=
  World (queries w) (propertyArrays w) (directionArrays w) (queues w)
    (promises w) (f (subscriptions w)) (stack w) (jobs w) (timers w)
    (console w) (trace w).

Definition set_stack (f : list task -> list task) (w : world) : world :=
  World (queries w) (propertyArrays w) (directionArrays w) (queues w)
    (promises w) (subscriptions w) (f (stack w)) (jobs w) (timers w)
    (console w) (trace w).

Definition set_jobs
  (f : list (reaction * snapshot) -> list (reaction * snapshot))
  (w : world) : world :=
  World (queries w) (propertyArrays w) (directionArrays w) (queues w)
    (promises w) (subscriptions w) (stack w) (f (jobs w)) (timers w)
    (console w) (trace w).

Definition set_timers (f : list (Z * loc) -> list (Z * loc)) (w : world)
  : world :=
  World (queries w) (propertyArrays w) (directionArrays w) (queues w)
    (promises w) (subscriptions w) (stack w) (jobs w) (f (timers w))
    (console w) (trace w).

Definition set_console (f : list string -> list string) (w : world)
  : world :=
  World (queries w) (propertyArrays w) (directionArrays w) (queues w)
    (promises w) (subscriptions w) (stack w) (jobs w) (timers w)
    (f (console w)) (trace w).

Definition set_trace (f : list observation -> list observation)
  (w : world) : world :=
  World (queries w) (propertyArrays w) (directionArrays w) (queues w)
    (promises w) (subscriptions w) (stack w) (jobs w) (timers w)
    (console w) (f (trace w)).

(** A new object at the end of a store; its location. *)
Definition alloc {A : Type} (store : world -> list A)
  (set : (list A -> list A) -> world -> world) (a : A) : M loc :=
  fun w => Ret (length (store w)) (set (fun s => s ++ [a]) w).

(** An assignment to the object at [l]. *)
Definition update {A : Type} (store : world -> list A)
  (set : (list A -> list A) -> world -> world) (l : loc) (f : A -> A)
  : M unit :=
  fun w =>
    match store w !! l with
    | Some a => Ret tt (set (fun s => <[l := f a]> s) w)
    | None => Fault
    end.

(** [console.warn(message)] *)
Definition console_warn (message : string) : M unit :=
  write (set_console (fun c => c ++ [message])).

Definition observe (o : observation) : M unit :=
  write (set_trace (fun t => t ++ [o])).

(** ** Helpers of the module *)

Definition allowed_in_name (c : ascii) : bool :=
  negb (existsb (Ascii.eqb c)
          ["."; "$"; "["; "]"; "#"; "/"]%char).

Fixpoint all_allowed (s : string) : bool :=
  match s with
  | EmptyString => true
  | String c s' => allowed_in_name c && all_allowed s'
  end.

(** The match of [/\/([^.$\[\]#\/]+)$/]: what follows the last [/], when
    it is not empty and has none of the excluded characters. *)
Fixpoint last_segment (s : string) : option string :=
  match s with
  | EmptyString => None
  | String c s' =>
      match last_segment s' with
      | Some r => Some r
      | None =>
          if Ascii.eqb c "/"%char then
            match s' with
            | EmptyString => None
            | _ => if all_allowed s' then Some s' else None
            end
          else None
      end
  end.

(** [extractName(path)] *)
Definition extractName (path : option string) : option string :=
  last_segment (default "" path).

(** Modelled from the spec: [utils.cleanFirestoreData] of [utils.js],
    which is not among the sources.  The query keeps a copy of the
    snapshot it is given; plain values come back as they are. *)
Definition cleanFirestoreData (data : option docs) : option docs := data.

(** [_.cloneDeep(value)]: a copy is the same value. *)
Definition cloneDeep {A : Type} (a : A) : A := a.

(** [_.size(collection)] of [null] or an object *)
Definition size_of (data : option docs) : nat :=
  match data with
  | None => 0
  | Some d => length d
  end.

(** A record set as a value, for [_.isEqual]. *)
Definition docs_value (d : docs) : value :=
  VObj ((fun kv => (kv.1, VObj kv.2)) <$> d).

Definition with_errs (f : gmap string error -> gmap string error)
  (t : query) : query :=
  Query (f (errs t)) (path t) (id t) (flushDelay t) (queue t) (parent t)
    (firestore t) (children t) (orderedProperties t) (orderedDirections t)
    (limited t) (buildStartFinder t) (data t).

Definition with_flushDelay (d : delay) (t : query) : query :=
  Query (errs t) (path t) (id t) d (queue t) (parent t)
    (firestore t) (children t) (orderedProperties t) (orderedDirections t)
    (limited t) (buildStartFinder t) (data t).

Definition with_orderedProperties (a : loc) (t : query) : query :=
  Query (errs t) (path t) (id t) (flushDelay t) (queue t) (parent t)
    (firestore t) (children t) a (orderedDirections t)
    (limited t) (buildStartFinder t) (data t).

Definition with_orderedDirections (a : loc) (t : query) : query :=
  Query (errs t) (path t) (id t) (flushDelay t) (queue t) (parent t)
    (firestore t) (children t) (orderedProperties t) a
    (limited t) (buildStartFinder t) (data t).

Definition with_limited (n : Z) (t : query) : query :=
  Query (errs t) (path t) (id t) (flushDelay t) (queue t) (parent t)
    (firestore t) (children t) (orderedProperties t) (orderedDirections t)
    n (buildStartFinder t) (data t).

Definition with_buildStartFinder (b : startFinderBuilder) (t : query)
  : query :=
  Query (errs t) (path t) (id t) (flushDelay t) (queue t) (parent t)
    (firestore t) (children t) (orderedProperties t) (orderedDirections t)
    (limited t) b (data t).

Definition with_data (d : option docs) (t : query) : query :=
  Query (errs t) (path t) (id t) (flushDelay t) (queue t) (parent t)
    (firestore t) (children t) (orderedProperties t) (orderedDirections t)
    (limited t) (buildStartFinder t) d.

Definition with_events (f : list event -> list event) (Q : Queue) : Queue :=
  MkQueue (f (events Q)) (postFlush Q).

Definition with_postFlush (f : list loc -> list loc) (Q : Queue) : Queue :=
  MkQueue (events Q) (f (postFlush Q)).

Definition with_context_data (d : docs) (s : subscription)
  : subscription :=
  Subscription (sub_self s) (sub_err s) (includeMetadataChanges s) d.

(** The argument of [startAfter]: an instance of [DocumentSnapshot],
    with its [ref.id], or anything else. *)
Inductive argument : Type :=
| DocumentSnapshot (ref_id : string)
| Other.

(** ** The queue and the promises *)

Module Queue.

(** [new Queue()] *)
Definition new : M loc := alloc queues set_queues (MkQueue [] []).

Definition push (q : loc) (e : event) : M unit :=
  update queues set_queues q (with_events (fun es => es ++ [e])).

(** With a number the flush is left to a timer; otherwise the queue
    is processed within the call. *)
Definition flush (q : loc) (d : option delay) : M unit :=
  match d with
  | Some (DNumber ms) => write (set_timers (fun ts => ts ++ [(ms, q)]))
  | _ => write (set_stack (fun st => Drain q :: st))
  end.

(** The handle it returns is the callback itself; see [unsubscribe]. *)
Definition onPostFlush (q : loc) (callback : loc) : M loc :=
  update queues set_queues q (with_postFlush (fun hs => hs ++ [callback]));;
  mret callback.

Definition unsubscribe (q : loc) (callback : loc) : M unit :=
  update queues set_queues q
    (with_postFlush (filter (fun h => h <> callback))).

End Queue.

Module Promise.

Definition new : M loc := alloc promises set_promises (Promise Pending []).

(** The reactions of a promise are run as jobs, after the code that
    settled it. *)
Definition resolve (p : loc) (s : snapshot) : M unit :=
  pr ← deref promises p;
  match state pr with
  | Pending =>
      update promises set_promises p (fun _ => Promise (Fulfilled s) []);;
      write (set_jobs (fun js => js ++ ((fun r => (r, s)) <$> reactions pr)))
  | _ => mret tt
  end.

Definition reject (p : loc) (e : error) : M unit :=
  pr ← deref promises p;
  match state pr with
  | Pending =>
      update promises set_promises p (fun _ => Promise (Rejected e) [])
  | _ => mret tt
  end.

(** [promise.then(onFulfilled)] *)
Definition then_ (p : loc) (r : reaction) : M unit :=
  pr ← deref promises p;
  match state pr with
  | Pending =>
      update promises set_promises p
        (fun pr => Promise (state pr) (reactions pr ++ [r]))
  | Fulfilled s => write (set_jobs (fun js => js ++ [(r, s)]))
  | Rejected _ => mret tt
  end.

End Promise.

(** ** The methods of [MockFirestoreQuery] *)

Module MockFirestoreQuery.
Section Methods.
Context {L : Lodash}.

(** [this.data = utils.cleanFirestoreData(_.cloneDeep(data) || null)] *)
Definition _setData (this : loc) (d : option docs) : M unit :=
  update queries set_queries this
    (with_data (cleanFirestoreData (cloneDeep d))).

Definition _getData (this : loc) : M (option docs) :=
  t ← deref queries this;
  mret (cloneDeep (data t)).

(** [new MockFirestoreQuery(path, data, parent, name)] *)
Definition new (path : option string) (d : option docs)
  (parent : option loc) (name : option string) : M loc :=
  let path' :=
    match path with
    | None | Some "" => "Mock://"
    | Some p => p
    end in
  let id := match parent with Some _ => name | None => extractName path end in
  pt ← match parent with
       | Some p => t ← deref queries p; mret (Some t)
       | None => mret (@None query)
       end;
  let flushDelay := from_option flushDelay DFalse pt in
  queue ← match pt with
          | Some t => mret (queue t)
          | None => Queue.new
          end;
  let firestore := pt ≫= firestore in
  orderedProperties ← alloc propertyArrays set_propertyArrays [];
  orderedDirections ← alloc directionArrays set_directionArrays [];
  this ← alloc queries set_queries
           (Query ∅ path' id flushDelay queue parent firestore []
              orderedProperties orderedDirections 0 FromStart None);
  _setData this d;;
  mret this.

Definition flush (this : loc) (d : option delay) : M loc :=
  t ← deref queries this;
  Queue.flush (queue t) d;;
  mret this.

(** [autoFlush] calls itself on the children and on the parent; the
    calls stop at the instances that hold the flag already.  [fuel]
    bounds the depth of the calls. *)
Fixpoint autoFlush_rec (fuel : nat) (this : loc) (d : delay) : M unit :=
  match fuel with
  | O => timeout
  | S fuel' =>
      t ← deref queries this;
      if decide (flushDelay t = d) then mret tt
      else
        update queries set_queries this (with_flushDelay d);;
        (fix each (cs : list (string * loc)) : M unit :=
           match cs with
           | [] => mret tt
           | (_, child) :: cs' => autoFlush_rec fuel' child d;; each cs'
           end) (children t);;
        match parent t with
        | Some p => autoFlush_rec fuel' p d
        | None => mret tt
        end
  end.

Definition autoFlush (fuel : nat) (this : loc) (d : option delay)
  : M loc :=
  autoFlush_rec fuel this (default DTrue d);;
  mret this.

(** [clone()] *)
Definition clone (this : loc) : M loc :=
  t ← deref queries this;
  d ← _getData this;
  query ← new (Some (path t)) d (parent t) (id t);
  ps ← deref propertyArrays (orderedProperties t);
  ps' ← alloc propertyArrays set_propertyArrays ps;
  update queries set_queries query (with_orderedProperties ps');;
  ds ← deref directionArrays (orderedDirections t);
  ds' ← alloc directionArrays set_directionArrays ds;
  update queries set_queries query (with_orderedDirections ds');;
  update queries set_queries query (with_limited (limited t));;
  update queries set_queries query
    (with_buildStartFinder (buildStartFinder t));;
  mret query.

(** [where(property, operator, value)] *)
Definition where_ (this : loc) (property : property) (operator : string)
  (value : value) : M loc :=
  query ← clone this;
  (if negb (supported operator) then
     console_warn
       "Using unsupported where() operator for firebase-mock, returning entire dataset"
   else
     t ← deref queries this;
     if negb (size_of (data t) =? 0)%nat then
       _setData query
         (Some (foldl (where_step property operator value) []
                  (default [] (data t))))
     else _setData query None);;
  mret query.

(** [orderBy(property, direction)] *)
Definition orderBy (this : loc) (property : property)
  (direction : option string) : M loc :=
  query ← clone this;
  q ← deref queries query;
  update propertyArrays set_propertyArrays (orderedProperties q)
    (fun a => a ++ [property]);;
  update directionArrays set_directionArrays (orderedDirections q)
    (fun a => a ++ [match direction with
                    | None | Some "" => "asc"
                    | Some s => s
                    end]);;
  mret query.

(** [limit(limit)] *)
Definition limit (this : loc) (n : Z) : M loc :=
  query ← clone this;
  update queries set_queries query (with_limited n);;
  mret query.

(** [startAfter(doc)] *)
Definition startAfter (this : loc) (doc : argument) : M loc :=
  match doc with
  | Other =>
      console_warn
        "Using unsupported startAfter() parameter for firebase-mock, returning entire dataset";;
      mret this
  | DocumentSnapshot ref_id =>
      t ← deref queries this;
      ps ← deref propertyArrays (orderedProperties t);
      if (length ps =? 0)%nat then
        throw (Error "Query must be ordered to paginate")
      else
        query ← clone this;
        update queries set_queries query
          (with_buildStartFinder (AfterDoc ref_id));;
        mret query
  end.

(** [_results()] *)
Definition _results (this : loc) : M docs :=
  t ← deref queries this;
  ps ← deref propertyArrays (orderedProperties t);
  ds ← deref directionArrays (orderedDirections t);
  mret (results_of (data t) ps ds (limited t) (buildStartFinder t)).

(** [_nextErr(type)] *)
Definition _nextErr (this : loc) (type : string) : M (option error) :=
  t ← deref queries this;
  let err := errs t !! type in
  update queries set_queries this (with_errs (delete type));;
  mret err.

(** [_defer(sourceMethod, sourceArgs, callback)] *)
Definition _defer (this : loc) (sourceMethod : string)
  (callback : deferred) : M unit :=
  t ← deref queries this;
  Queue.push (queue t) (Event callback this sourceMethod);;
  t ← deref queries this;
  if decide (flushDelay t = DFalse) then mret tt
  else flush this (Some (flushDelay t));; mret tt.

(** [get()]: the promise it returns. *)
Definition get (this : loc) : M loc :=
  err ← _nextErr this "get";
  p ← Promise.new;
  _defer this "get" (GetCallback this err p);;
  mret p.

Definition ref_of (self : loc) : M reference :=
  t ← deref queries self;
  mret (match parent t with
        | None => Self self
        | Some p => Collection p (id t)
        end).

(** The function [get] deferred, when the queue runs it. *)
Definition run (callback : deferred) : M unit :=
  match callback with
  | GetCallback self err p =>
      results ← _results self;
      match err with
      | None =>
          t ← deref queries self;
          ref ← ref_of self;
          if negb (size_of (data t) =? 0)%nat then
            Promise.resolve p (QuerySnapshot ref (Some results) None)
          else Promise.resolve p (QuerySnapshot ref None None)
      | Some err => Promise.reject p err
      end
  end.

(** The inner function [onSnapshot(initialCall)] of the subscription
    [s]. *)
Definition onSnapshot_call (s : loc) (initialCall : bool) : M unit :=
  sub ← deref subscriptions s;
  let self := sub_self sub in
  match sub_err sub with
  | None =>
      if initialCall then
        results ← _results self;
        t ← deref queries self;
        ref ← ref_of self;
        if negb (size_of (data t) =? 0)%nat then
          observe (OnNext s (QuerySnapshot ref (Some results) (Some [])))
        else observe (OnNext s (QuerySnapshot ref None None))
      else
        p ← get self;
        Promise.then_ p (SnapshotReaction s)
  | Some err => observe (OnError s err)
  end.

(** The function [onSnapshot] hands to [then]. *)
Definition react (r : reaction) (querySnapshot : snapshot) : M unit :=
  match r with
  | SnapshotReaction s =>
      sub ← deref subscriptions s;
      let self := sub_self sub in
      results ← _results self;
      if negb (isEqual (docs_value results)
                 (docs_value (context_data sub)))
         || includeMetadataChanges sub then
        ref ← ref_of self;
        observe (OnNext s (QuerySnapshot ref (Some results)
                             (Some (context_data sub))));;
        update subscriptions set_subscriptions s
          (with_context_data results)
      else mret tt
  end.

(** [onSnapshot(...)]: of its arguments the flag
    [includeMetadataChanges] matters, the callbacks are those of the
    subscription it returns. *)
Definition onSnapshot (this : loc) (includeMetadataChanges : bool)
  : M loc :=
  err ← _nextErr this "onSnapshot";
  context ← _results this;
  s ← alloc subscriptions set_subscriptions
        (Subscription this err includeMetadataChanges context);
  onSnapshot_call s true;;
  t ← deref queries this;
  Queue.onPostFlush (queue t) s.

(** The handle [onSnapshot] returned is called. *)
Definition unsubscribe (s : loc) : M unit :=
  sub ← deref subscriptions s;
  t ← deref queries (sub_self sub);
  Queue.unsubscribe (queue t) s.

End Methods.
End MockFirestoreQuery.

(** ** The event loop

    The code runs on one thread.  A call from outside is made while no
    other code is running; the code a flush enters is run step by step
    from the stack; jobs and timers run when the stack is empty. *)
Inductive label : Type :=
| Tau
| Job
| Timer (i : nat)
| New (path : option string) (d : option docs) (parent : option loc)
    (name : option string)
| Clone (q : loc)
| Where (q : loc) (property : property) (operator : string) (value : value)
| OrderBy (q : loc) (property : property) (direction : option string)
| Limit (q : loc) (n : Z)
| StartAfter (q : loc) (doc : argument)
| Get (q : loc)
| OnSnapshot (q : loc) (includeMetadataChanges : bool)
| Unsubscribe (s : loc)
| Flush (q : loc) (d : option delay)
| AutoFlush (q : loc) (d : option delay)
| SetData (q : loc) (d : option docs)
| SetErr (q : loc) (type : string) (err : error).

Section Loop.
Context {L : Lodash}.

(** One step of the code on top of the stack: the queue runs its
    first event, or, once drained, the callbacks registered for after
    the flush, one at a time. *)
Definition tau : M unit :=
  st ← read stack;
  match st with
  | [] => fault
  | Drain q :: st' =>
      Q ← deref queues q;
      match events Q with
      | e :: es =>
          update queues set_queues q (with_events (fun _ => es));;
          MockFirestoreQuery.run (fn e)
      | [] =>
          observe (Flushed q);;
          write (set_stack (fun _ => PostFlush q (postFlush Q) :: st'))
      end
  | PostFlush q [] :: st' => write (set_stack (fun _ => st'))
  | PostFlush q (s :: hs) :: st' =>
      write (set_stack (fun _ => PostFlush q hs :: st'));;
      MockFirestoreQuery.onSnapshot_call s false
  end.

Definition job : M unit :=
  js ← read jobs;
  match js with
  | [] => fault
  | (r, s) :: js' =>
      write (set_jobs (fun _ => js'));;
      MockFirestoreQuery.react r s
  end.

Definition timer (i : nat) : M unit :=
  ts ← read timers;
  match ts !! i with
  | Some (_, q) =>
      write (set_timers (fun _ => delete i ts));;
      write (set_stack (fun st => Drain q :: st))
  | None => fault
  end.

Definition call (l : label) : M unit :=
  match l with
  | Tau => tau
  | Job => job
  | Timer i => timer i
  | New path d parent name =>
      MockFirestoreQuery.new path d parent name;; mret tt
  | Clone q => MockFirestoreQuery.clone q;; mret tt
  | Where q property operator value =>
      MockFirestoreQuery.where_ q property operator value;; mret tt
  | OrderBy q property direction =>
      MockFirestoreQuery.orderBy q property direction;; mret tt
  | Limit q n => MockFirestoreQuery.limit q n;; mret tt
  | StartAfter q doc => MockFirestoreQuery.startAfter q doc;; mret tt
  | Get q => MockFirestoreQuery.get q;; mret tt
  | OnSnapshot q imc => MockFirestoreQuery.onSnapshot q imc;; mret tt
  | Unsubscribe s => MockFirestoreQuery.unsubscribe s
  | Flush q d => MockFirestoreQuery.flush q d;; mret tt
  | AutoFlush q d =>
      n ← read (fun w => length (queries w));
      MockFirestoreQuery.autoFlush (S n) q d;; mret tt
  | SetData q d => MockFirestoreQuery._setData q d
  | SetErr q type err =>
      update queries set_queries q (with_errs (insert type err))
  end.

(** A step is taken from a state in which it can be: calls, jobs and
    timers need the stack empty.  An exception ends the call. *)
Definition step (l : label) (w : world) : option world :=
  let enabled :=
    match l with
    | Tau => true
    | _ => match stack w with [] => true | _ => false end
    end in
  if enabled then
    match call l w with
    | Ret _ w' => Some w'
    | Throw _ w' => Some w'
    | Fault => None
    | Timeout => None
    end
  else None.

Fixpoint exec (ls : list label) (w : world) : option world :=
  match ls with
  | [] => Some w
  | l :: ls' =>
      match step l w with
      | Some w' => exec ls' w'
      | None => None
      end
  end.
End Loop.

(** ** What the walk of [_results] is compared with *)

(** The answers of [inRange] along a walk that starts in [st]. *)
Fixpoint inRange_flags (b : startFinderBuilder) (st : walk_state)
  (seq : list (string * doc)) : list bool :=
  match seq with
  | [] => []
  | rec :: seq' =>
      let '(r, st') := inRange b st rec.1 in
      r :: inRange_flags b st' seq'
  end.

(** The cursor is behind: [inRange] answers [true] from here on. *)
Definition ready (b : startFinderBuilder) (st : walk_state) : Prop :=
  atEnd st = false /\
  (atStart st = true \/ b = FromStart \/ next st = true).

(** The cursor is ahead. *)
Definition seeking (st : walk_state) : Prop :=
  atEnd st = false /\ atStart st = false /\ next st = false.

(** The records strictly after the one with the key [id]. *)
Fixpoint after_key (id : string) (seq : list (string * doc))
  : list (string * doc) :=
  match seq with
  | [] => []
  | (k, _) :: seq' => if String.eqb k id then seq' else after_key id seq'
  end.

(** The records strictly after the cursor. *)
Definition after_cursor (b : startFinderBuilder)
  (seq : list (string * doc)) : list (string * doc) :=
  match b with
  | FromStart => seq
  | AfterDoc id => after_key id seq
  end.

(** At most [limited] records, all of them when [limited <= 0]. *)
Definition capped (limited : Z) (seq : list (string * doc))
  : list (string * doc) :=
  if (limited <=? 0)%Z then seq else take (Z.to_nat limited) seq.

(** The records of a snapshot; a snapshot built without data has none. *)
Definition snapshot_docs (s : snapshot) : docs :=
  match s with
  | QuerySnapshot _ d _ => default [] d
  end.

(** The result sets [onNext] was called with for the subscription [s]. *)
Definition deliveries (s : loc) (t : list observation) : list docs :=
  omap (fun o => match o with
                 | OnNext s' snap =>
                     if decide (s' = s) then Some (snapshot_docs snap)
                     else None
                 | _ => None
                 end) t.

(** The errors [onError] was called with for the subscription [s]. *)
Definition failures (s : loc) (t : list observation) : list error :=
  omap (fun o => match o with
                 | OnError s' e => if decide (s' = s) then Some e else None
                 | _ => None
                 end) t.

(** ** The store after a call, written out *)

(** The instance at [this], its two arrays and its parent are in the
    store. *)
Record instance (w : world) (this : loc) (t : query)
  (ps : list property) (ds : list string) (pt : option query) : Prop := {
  inst_query : queries w !! this = Some t;
  inst_properties : propertyArrays w !! orderedProperties t = Some ps;
  inst_directions : directionArrays w !! orderedDirections t = Some ds;
  inst_parent :
    match parent t with
    | Some p => is_Some pt /\ queries w !! p = pt
    | None => pt = None
    end
}.

(** The instance [clone()] builds from [t], whose parent is [pt]. *)
Definition cloned (w : world) (t : query) (pt : option query) : query :=
  Query ∅
    (match path t with "" => "Mock://" | String _ _ => path t end)
    (match parent t with
     | Some _ => id t
     | None => extractName (Some (path t))
     end)
    (from_option flushDelay DFalse pt)
    (from_option queue (length (queues w)) pt)
    (parent t)
    (pt ≫= firestore)
    []
    (S (length (propertyArrays w)))
    (S (length (directionArrays w)))
    (limited t)
    (buildStartFinder t)
    (data t).

(** The store after a call that made the new instance [t'] with the
    arrays [ps'] and [ds']: the two arrays of the constructor are left
    behind, and a queue is new when there is no parent. *)
Definition after_clone (w : world) (t' : query) (ps' : list property)
  (ds' : list string) (pt : option query) (warnings : list string)
  : world :=
  World (queries w ++ [t'])
    (propertyArrays w ++ [[]; ps'])
    (directionArrays w ++ [[]; ds'])
    (match pt with
     | Some _ => queues w
     | None => queues w ++ [MkQueue [] []]
     end)
    (promises w) (subscriptions w) (stack w) (jobs w) (timers w)
    (console w ++ warnings) (trace w).

(** The data [where] leaves in the clone of an instance that holds
    [d]. *)
Definition where_data {L : Lodash} (property : property)
  (operator : string) (value : value) (d : option docs) : option docs :=
  if supported operator then
    if negb (size_of d =? 0)%nat
    then Some (foldl (where_step property operator value) [] (default [] d))
    else None
  else d.

Definition where_warning : string :=
  "Using unsupported where() operator for firebase-mock, returning entire dataset".

Definition startAfter_warning : string :=
  "Using unsupported startAfter() parameter for firebase-mock, returning entire dataset".

Definition pagination_error : error :=
  Error "Query must be ordered to paginate".

(** ** The calls of the builder *)

Inductive builder_call : Type :=
| CallWhere (property : property) (operator : string) (value : value)
| CallOrderBy (property : property) (direction : option string)
| CallLimit (n : Z)
| CallStartAfter (doc : argument).

Definition builder {L : Lodash} (this : loc) (c : builder_call) : M loc :=
  match c with
  | CallWhere property operator value =>
      MockFirestoreQuery.where_ this property operator value
  | CallOrderBy property direction =>
      MockFirestoreQuery.orderBy this property direction
  | CallLimit n => MockFirestoreQuery.limit this n
  | CallStartAfter doc => MockFirestoreQuery.startAfter this doc
  end.

(** Every instance of [w] is in [w'] with the state and the arrays it
    had, and evaluates to what it evaluated to. *)
Definition untouched {L : Lodash} (w w' : world) : Prop :=
  forall a ta psa dsa pta,
    instance w a ta psa dsa pta ->
    instance w' a ta psa dsa pta /\
    MockFirestoreQuery._results a w' =
      Ret (results_of (data ta) psa dsa (limited ta) (buildStartFinder ta))
        w'.

(** The records [where] keeps for '==': those whose value at the path
    is deeply equal to the one given. *)
Definition matches {L : Lodash} (property : property) (value : value)
  (rec : string * doc) : Prop :=
  isEqual (get (queryable rec.2 rec.1) (getPropertyPath property)) value
  = true.

#[export] Instance matches_dec {L : Lodash} property value rec :
  Decision (matches property value rec).
Proof. unfold matches. apply _. Defined.

(** ** The store after [get] and after a deferred callback *)

(** The event [get()] pushes for the instance [t] at [this]. *)
Definition get_event (w : world) (this : loc) (t : query) : event :=
  Event (GetCallback this (errs t !! "get") (length (promises w))) this
    "get".

(** The store after [get()] on the instance [t] at [this] whose queue
    is [Q]: the error is taken, the promise is pending, the event is at
    the end of the queue, and a flush is under way or due when
    [flushDelay] says so. *)
Definition after_get (w : world) (this : loc) (t : query) (Q : Queue)
  : world :=
  World (<[this := with_errs (delete "get") t]> (queries w))
    (propertyArrays w) (directionArrays w)
    (<[queue t := with_events (fun es => es ++ [get_event w this t]) Q]>
       (queues w))
    (promises w ++ [Promise Pending []])
    (subscriptions w)
    (match flushDelay t with
     | DTrue => Drain (queue t) :: stack w
     | _ => stack w
     end)
    (jobs w)
    (match flushDelay t with
     | DNumber ms => timers w ++ [(ms, queue t)]
     | _ => timers w
     end)
    (console w) (trace w).

(** What the deferred callback of [get] settles its promise with. *)
Definition get_outcome {L : Lodash} (self : loc) (t : query)
  (ps : list property) (ds : list string) (err : option error)
  : promise_state :=
  match err with
  | None =>
      let ref := match parent t with
                 | None => Self self
                 | Some p => Collection p (id t)
                 end in
      let results :=
        results_of (data t) ps ds (limited t) (buildStartFinder t) in
      if negb (size_of (data t) =? 0)%nat
      then Fulfilled (QuerySnapshot ref (Some results) None)
      else Fulfilled (QuerySnapshot ref None None)
  | Some e => Rejected e
  end.

(** The store after the pending promise [pr] at [p] is settled. *)
Definition settle (w : world) (p : loc) (pr : promise)
  (r : promise_state) : world :=
  match state pr with
  | Pending =>
      World (queries w) (propertyArrays w) (directionArrays w) (queues w)
        (<[p := Promise r []]> (promises w))
        (subscriptions w) (stack w)
        (match r with
         | Fulfilled s => jobs w ++ ((fun x => (x, s)) <$> reactions pr)
         | _ => jobs w
         end)
        (timers w) (console w) (trace w)
  | _ => w
  end.

(** ** What a subscription is held to *)

(** [Flushed q] comes before every call of [onNext] for [s]. *)
Definition after_flush (s q : loc) (tail : list observation) : Prop :=
  forall t1 x t2, tail = t1 ++ OnNext s x :: t2 -> Flushed q ∈ t1.

(** Every result set of [l] differs from the one before it, unless
    metadata changes are asked for. *)
Definition changes {L : Lodash} (imc : bool) (l : list docs) : Prop :=
  forall l1 a b l2,
    l = l1 ++ a :: b :: l2 ->
    imc = true \/ isEqual (docs_value b) (docs_value a) = false.

(** The subscription [s] is to be called, or a reaction of it is to
    run. *)
Definition waiting (s : loc) (w : world) : Prop :=
  (exists q hs, PostFlush q hs ∈ stack w /\ s ∈ hs) \/
  (exists p pr, promises w !! p = Some pr /\
                SnapshotReaction s ∈ reactions pr) \/
  (exists snap, (SnapshotReaction s, snap) ∈ jobs w).

(** The queue [q] was flushed after the trace [T0]. *)
Definition flushed (q : loc) (T0 : list observation) (w : world) : Prop :=
  exists tail, trace w = T0 ++ tail /\ Flushed q ∈ tail.

(** What holds of the store once the subscription [s] was made on the
    queue [q], with the trace [T0] behind it and [r0] delivered. *)
Definition subscribed {L : Lodash} (s q : loc) (imc : bool)
  (T0 : list observation) (r0 : docs) (w : world) : Prop :=
  exists tail sub,
    trace w = T0 ++ tail /\
    after_flush s q tail /\
    changes imc (r0 :: deliveries s tail) /\
    subscriptions w !! s = Some sub /\
    sub_err sub = None /\
    includeMetadataChanges sub = imc /\
    last (r0 :: deliveries s tail) = Some (context_data sub) /\
    (forall q' Q', queues w !! q' = Some Q' -> s ∈ postFlush Q' -> q' = q).

(** The invariant of a subscription: what it is held to, and a flush
    behind whatever is to call it; [F] holds while code that is about
    to call it runs. *)
Definition holds {L : Lodash} (s q : loc) (imc : bool)
  (T0 : list observation) (r0 : docs) (F : Prop) (w : world) : Prop :=
  subscribed s q imc T0 r0 w /\ (waiting s w \/ F -> flushed q T0 w).

(** No part of the store names a subscription that is not made yet. *)
Definition fresh_subscriptions (w : world) : Prop :=
  forall s, length (subscriptions w) <= s ->
    ~ waiting s w /\
    (forall q Q, queues w !! q = Some Q -> s ∉ postFlush Q).

(** What a computation leaves when it returns or throws. *)
Definition wp {A : Type} (m : M A) (w : world)
  (Q : A -> world -> Prop) (E : world -> Prop) : Prop :=
  match m w with
  | Ret a w' => Q a w'
  | Throw _ w' => E w'
  | Fault => True
  | Timeout => True
  end.

(** [w'] is [w] but for instances, arrays, events, timers, console and
    new queues: nothing a subscription depends on. *)
Definition calm (w w' : world) : Prop :=
  subscriptions w' = subscriptions w /\
  promises w' = promises w /\
  jobs w' = jobs w /\
  stack w' = stack w /\
  trace w' = trace w /\
  exists k, postFlush <$> queues w' =
            (postFlush <$> queues w) ++ replicate k [].

(** The snapshot the first call of [onNext] is made with. *)
Definition first_snapshot (this : loc) (t : query) (r0 : docs) : snapshot :=
  let ref := match parent t with
             | None => Self this
             | Some p => Collection p (id t)
             end in
  if negb (size_of (data t) =? 0)%nat
  then QuerySnapshot ref (Some r0) (Some [])
  else QuerySnapshot ref None None.

(** ** The auto-flush flag *)

(** Every reference to an instance names one of the store. *)
Definition closed (qs : list query) : Prop :=
  forall l t, qs !! l = Some t ->
    (forall k c, (k, c) ∈ children t -> c < length qs) /\
    (forall p, parent t = Some p -> p < length qs).

(** The instances in [P] refer to instances in [P] only: no call that
    follows the references from inside [P] leaves it. *)
Definition region (P : loc -> Prop) (qs : list query) : Prop :=
  forall l t, P l -> qs !! l = Some t ->
    (forall k c, (k, c) ∈ children t -> P c) /\
    (forall p, parent t = Some p -> P p).

(** The instances outside [P] are in [qs'] as they are in [qs]. *)
Definition kept (P : loc -> Prop) (qs qs' : list query) : Prop :=
  forall l, ~ P l -> qs' !! l = qs !! l.

(** The number of instances that do not hold the flag [d]. *)
Definition pending (d : delay) (qs : list query) : nat :=
  length (filter (fun t => flushDelay t <> d) qs).

(** [qs'] is [qs] but for flags that were set to [d]. *)
Definition flagged (d : delay) (qs qs' : list query) : Prop :=
  Forall2 (fun t t' => t' = t \/ t' = with_flushDelay d t) qs qs'.

(** The instance at [x] holds the flag [d]. *)
Definition flag_is (d : delay) (qs : list query) (x : loc) : Prop :=
  exists t, qs !! x = Some t /\ flushDelay t = d.

(** ** A collection to try the calls on *)

(** [{a: {x: 1}, b: {x: 2}, c: {x: 1}}] *)
Definition example_data : docs :=
  [("a", [("x", VNum 1)]); ("b", [("x", VNum 2)]); ("c", [("x", VNum 1)])].

(** The store after [new MockFirestoreQuery("/coll", example_data)]. *)
Definition example_world : world :=
  Eval vm_compute in
    default empty_world
      (@exec plain_lodash
         [New (Some "/coll") (Some example_data) None None] empty_world).

Definition example_query : query :=
  Eval vm_compute in
    Query ∅ "/coll" (Some "coll") DFalse 0 None None [] 0 0 0 FromStart
      (Some example_data).

(** The same after [orderBy("x")]: the instance [1] is ordered. *)
Definition ordered_world : world :=
  Eval vm_compute in
    default empty_world
      (@exec plain_lodash [OrderBy 0 (Name "x") None] example_world).

Definition ordered_query : query :=
  Eval vm_compute in
    Query ∅ "/coll" (Some "coll") DFalse 1 None None [] 2 2 0 FromStart
      (Some example_data).

(** [{1: {x: 2}, 2: {x: 1}}]: the keys are array indices. *)
Definition numbered_data : docs :=
  [("1", [("x", VNum 2)]); ("2", [("x", VNum 1)])].

(** [{a: {tags: ['x', 'y']}, b: {tags: ['y']}, c: {tags: ['x']}}] *)
Definition tagged_data : docs :=
  [("a", [("tags", VArr [VStr "x"; VStr "y"])]);
   ("b", [("tags", VArr [VStr "y"])]);
   ("c", [("tags", VArr [VStr "x"])])].

Definition tagged_world : world :=
  Eval vm_compute in
    default empty_world
      (@exec plain_lodash
         [New (Some "/posts") (Some tagged_data) None None] empty_world).

Definition tagged_query : query :=
  Eval vm_compute in
    Query ∅ "/posts" (Some "posts") DFalse 0 None None [] 0 0 0 FromStart
      (Some tagged_data).

(** The store after [where('x', '==', 7)] on the collection above: the
    instance [1] holds the empty object. *)
Definition filtered_world : world :=
  Eval vm_compute in
    default empty_world
      (@exec plain_lodash [Where 0 (Name "x") "==" (VNum 7)] example_world).

Definition filtered_query : query :=
  Eval vm_compute in
    Query ∅ "/coll" (Some "coll") DFalse 1 None None [] 2 2 0 FromStart
      (Some []).

(** The collection above with an error injected for 'get'. *)
Definition failing_query : query :=
  Eval vm_compute in with_errs (insert "get" (Error "boom")) example_query.

Definition failing_world : world :=
  Eval vm_compute in set_queries (fun _ => [failing_query]) example_world.

(** The collection above after [autoFlush()]. *)
Definition auto_query : query :=
  Eval vm_compute in with_flushDelay DTrue example_query.

Definition auto_world : world :=
  Eval vm_compute in
    default empty_world
      (@exec plain_lodash [AutoFlush 0 None] example_world).

(** The collection above with an error injected for 'onSnapshot'. *)
Definition refusing_query : query :=
  Eval vm_compute in
    with_errs (insert "onSnapshot" (Error "boom")) example_query.

Definition refusing_world : world :=
  Eval vm_compute in set_queries (fun _ => [refusing_query]) example_world.




(** ** What the other calls are compared with *)

(** The records [where] keeps for 'array-contains': those whose field
    includes the value. *)
Definition contains {L : Lodash} (property : property) (value : value)
  (rec : string * doc) : Prop :=
  includes (get (VObj rec.2) (rawPath property)) value = true.

#[export] Instance contains_dec {L : Lodash} property value rec :
  Decision (contains property value rec).
Proof. unfold contains. apply _. Defined.

(** The records [where] keeps for 'in': those whose field is included
    in the value. *)
Definition member {L : Lodash} (property : property) (value : value)
  (rec : string * doc) : Prop :=
  includes value (get (VObj rec.2) (rawPath property)) = true.

#[export] Instance member_dec {L : Lodash} property value rec :
  Decision (member property value rec).
Proof. unfold member. apply _. Defined.


(** [direction || 'asc'] *)
Definition direction_of (direction : option string) : string :=
  match direction with
  | None | Some "" => "asc"
  | Some s => s
  end.

(** * Properties *)

(** ** Objects *)

Section ObjectFacts.
Context {A : Type}.
Implicit Types (o l : list (string * A)) (k : string) (v : A).

Lemma obj_get_None k o : obj_get k o = None <-> k ∉ keys o.
Proof.
  induction o as [|[k' v'] o IH]; simpl.
  - split; [intros _; apply not_elem_of_nil | done].
  - destruct (String.eqb_spec k k') as [->|Hne].
    + split; [done | intros H; exfalso; apply H; left].
    + rewrite IH, not_elem_of_cons. tauto.
Qed.

Lemma obj_has_false k o : obj_has k o = false <-> k ∉ keys o.
Proof.
  unfold obj_has. rewrite <- obj_get_None.
  destruct (obj_get k o); naive_solver.
Qed.

Lemma obj_insert_index_last i k v o :
  array_index k = Some i ->
  Forall (fun k' => key_before k' k) (keys o) ->
  obj_insert_index i k v o = o ++ [(k, v)].
Proof.
  intros Hk. induction o as [|[k' v'] o IH]; simpl; [done|].
  intros Hall. apply Forall_cons in Hall as [Hb Hall].
  unfold key_before in Hb. simpl in Hb. rewrite Hk in Hb.
  destruct (array_index k') as [j|]; [|done].
  apply N.ltb_lt in Hb. rewrite Hb. f_equal. by apply IH.
Qed.

(** A key that comes after all the keys of the object is added at
    its end. *)
Lemma obj_set_last k v o :
  k ∉ keys o ->
  Forall (fun k' => key_before k' k) (keys o) ->
  obj_set k v o = o ++ [(k, v)].
Proof.
  intros Hk Hall. unfold obj_set.
  apply obj_has_false in Hk. rewrite Hk.
  destruct (array_index k) eqn:E; [|done].
  by apply obj_insert_index_last.
Qed.

Lemma foldl_obj_set_js l : forall o,
  js_keys (keys (o ++ l)) ->
  foldl (fun acc kv => obj_set kv.1 kv.2 acc) o l = o ++ l.
Proof.
  induction l as [|[k v] l IH]; intros o Hjs; simpl.
  - by rewrite app_nil_r.
  - assert (o ++ (k, v) :: l = (o ++ [(k, v)]) ++ l) as Heq
      by (by rewrite <- app_assoc).
    rewrite Heq in Hjs |- *.
    rewrite obj_set_last.
    + by apply IH.
    + destruct Hjs as [Hnd _]. unfold keys in *.
      rewrite !fmap_app in Hnd. simpl in Hnd.
      apply NoDup_app in Hnd as [Hnd _].
      apply NoDup_app in Hnd as (_ & Hnd & _).
      intros Hin. apply (Hnd k Hin). left.
    + destruct Hjs as [_ Hs]. unfold keys in *.
      rewrite !fmap_app in Hs. simpl in Hs.
      apply StronglySorted_app_1_l in Hs.
      apply StronglySorted_app in Hs as (Hs & _ & _).
      apply Forall_forall. intros k' Hk'. apply Hs; [done | left].
Qed.

(** Assigning the entries of an object in their order gives the
    object back. *)
Lemma obj_of_list_js l : js_object l -> obj_of_list l = l.
Proof. intros H. by apply (foldl_obj_set_js l []). Qed.

Lemma js_keys_sublist (ks ks' : list string) :
  sublist ks' ks -> js_keys ks -> js_keys ks'.
Proof.
  intros Hsub [Hnd Hs]. split.
  - by eapply sublist_NoDup.
  - clear Hnd. revert Hs. induction Hsub as [|x l1 l2 Hsub IH|x l1 l2 Hsub IH].
    + constructor.
    + intros Hs. apply StronglySorted_inv in Hs as [Hs Hall]. constructor.
      * by apply IH.
      * eapply Forall_forall. intros y Hy.
        eapply Forall_forall in Hall; [done|].
        by eapply elem_of_sublist.
    + intros Hs. apply StronglySorted_inv in Hs as [Hs _]. by apply IH.
Qed.

Lemma js_object_sublist o o' : sublist o' o -> js_object o -> js_object o'.
Proof.
  unfold js_object, keys. intros Hsub.
  apply js_keys_sublist. by apply fmap_sublist.
Qed.

Lemma obj_replace_length k v o : length (obj_replace k v o) = length o.
Proof.
  induction o as [|[k' v'] o IH]; simpl; [done|].
  destruct (String.eqb k k'); simpl; by rewrite ?IH.
Qed.

Lemma obj_insert_index_length i k v o :
  length (obj_insert_index i k v o) = S (length o).
Proof.
  induction o as [|[k' v'] o IH]; simpl; [done|].
  destruct (array_index k') as [j|]; [|done].
  destruct (j <? i)%N; simpl; by rewrite ?IH.
Qed.

Lemma obj_set_length k v o : length (obj_set k v o) <= S (length o).
Proof.
  unfold obj_set. destruct (obj_has k o).
  - rewrite obj_replace_length. lia.
  - destruct (array_index k).
    + rewrite obj_insert_index_length. lia.
    + rewrite length_app. simpl. lia.
Qed.

Lemma foldl_obj_set_length l : forall o,
  length (foldl (fun acc kv => obj_set kv.1 kv.2 acc) o l)
  <= length o + length l.
Proof.
  induction l as [|[k v] l IH]; intros o; simpl; [lia|].
  specialize (IH (obj_set k v o)).
  pose proof (obj_set_length k v o). lia.
Qed.

Lemma obj_of_list_length l : length (obj_of_list l) <= length l.
Proof. apply (foldl_obj_set_length l []). Qed.
End ObjectFacts.

(** ** The walk of [_results] *)

Section WalkFacts.
Implicit Types (b : startFinderBuilder) (st : walk_state).
Implicit Types (seq : list (string * doc)) (lim : Z).

Lemma inRange_ready b st k :
  ready b st ->
  exists st', inRange b st k = (true, st') /\ ready b st' /\
              results st' = results st /\ limit st' = limit st.
Proof.
  intros [He Hr]. unfold inRange. rewrite He.
  destruct (atStart st) eqn:Hs.
  - exists st. split; [done|]. split; [|done]. split; [done | by left].
  - assert (startFinder b (next st) k = (true, next st)) as ->.
    { destruct Hr as [Hr|[->|Hn]]; [done|done|].
      destruct b; simpl; [done | by rewrite Hn]. }
    eexists. split; [done|]. split; [|done]. split; [done | by left].
Qed.

Lemma inRange_seeking id st k :
  seeking st ->
  exists st', inRange (AfterDoc id) st k = (false, st') /\
              atEnd st' = false /\ atStart st' = false /\
              next st' = String.eqb k id /\
              results st' = results st /\ limit st' = limit st.
Proof.
  intros (He & Hs & Hn). unfold inRange. rewrite He, Hs. simpl.
  rewrite Hn. eexists. repeat split; simpl; auto.
Qed.

Lemma walk_step_ready b lim st k d :
  ready b st ->
  ready b (walk_step b lim st (k, d)) /\
  if ((lim <=? 0) || (limit st <? lim))%Z
  then results (walk_step b lim st (k, d)) = obj_set k d (results st) /\
       limit (walk_step b lim st (k, d)) = (limit st + 1)%Z
  else results (walk_step b lim st (k, d)) = results st /\
       limit (walk_step b lim st (k, d)) = limit st.
Proof.
  intros Hst. unfold walk_step.
  destruct (inRange_ready b st k Hst) as (st1 & -> & Hst1 & Hres & Hlim).
  rewrite Hlim. simpl andb.
  destruct ((lim <=? 0) || (limit st <? lim))%Z; simpl.
  - rewrite Hres. split; [|done].
    destruct Hst1 as [? ?]. by split.
  - done.
Qed.

Lemma walk_step_seeking id lim st k d :
  seeking st ->
  results (walk_step (AfterDoc id) lim st (k, d)) = results st /\
  limit (walk_step (AfterDoc id) lim st (k, d)) = limit st /\
  if String.eqb k id
  then ready (AfterDoc id) (walk_step (AfterDoc id) lim st (k, d))
  else seeking (walk_step (AfterDoc id) lim st (k, d)).
Proof.
  intros Hst. unfold walk_step.
  destruct (inRange_seeking id st k Hst)
    as (st1 & -> & He & Hs & Hn & Hres & Hlim).
  simpl andb. cbv iota. split; [done|]. split; [done|].
  rewrite <- Hn. destruct (next st1) eqn:E.
  - split; auto.
  - by repeat split.
Qed.

Lemma walk_ready b lim seq : forall st,
  ready b st ->
  results (foldl (walk_step b lim) st seq) =
  foldl (fun acc kv => obj_set kv.1 kv.2 acc) (results st)
    (if (lim <=? 0)%Z then seq
     else take (Z.to_nat (lim - limit st)) seq).
Proof.
  induction seq as [|[k d] seq IH]; intros st Hst.
  - simpl. destruct (lim <=? 0)%Z; [done|]. by rewrite take_nil.
  - cbn [foldl].
    destruct (walk_step_ready b lim st k d Hst) as [Hst1 Hstep].
    rewrite (IH _ Hst1).
    destruct (lim <=? 0)%Z eqn:Hle; cbn [orb] in Hstep.
    + destruct Hstep as [-> _]. done.
    + destruct (limit st <? lim)%Z eqn:Hlt; destruct Hstep as [-> ->].
      * apply Z.ltb_lt in Hlt.
        replace (Z.to_nat (lim - limit st))
          with (S (Z.to_nat (lim - (limit st + 1)))) by lia.
        done.
      * apply Z.ltb_ge in Hlt.
        replace (Z.to_nat (lim - limit st)) with 0%nat by lia.
        by rewrite !take_0.
Qed.

Lemma walk_seeking id lim seq : forall st,
  seeking st ->
  results (foldl (walk_step (AfterDoc id) lim) st seq) =
  foldl (fun acc kv => obj_set kv.1 kv.2 acc) (results st)
    (if (lim <=? 0)%Z then after_key id seq
     else take (Z.to_nat (lim - limit st)) (after_key id seq)).
Proof.
  induction seq as [|[k d] seq IH]; intros st Hst.
  - simpl. destruct (lim <=? 0)%Z; [done|]. by rewrite take_nil.
  - cbn [foldl after_key].
    destruct (walk_step_seeking id lim st k d Hst) as (Hres & Hlim & Hnext).
    destruct (String.eqb k id).
    + rewrite (walk_ready _ _ _ _ Hnext). by rewrite Hres, Hlim.
    + rewrite (IH _ Hnext). by rewrite Hres, Hlim.
Qed.

(** The outcome of the walk: the records after the cursor, cut at
    the limit, assigned in turn to an empty object. *)
Lemma walk_results b lim seq :
  results (foldl (walk_step b lim) walk_init seq) =
  obj_of_list (capped lim (after_cursor b seq)).
Proof.
  unfold obj_of_list, capped. destruct b as [|id]; simpl after_cursor.
  - rewrite walk_ready by (split; auto). simpl.
    by rewrite Z.sub_0_r.
  - rewrite walk_seeking by (repeat split; auto). simpl.
    by rewrite Z.sub_0_r.
Qed.

Lemma flags_ready b seq : forall st,
  ready b st -> inRange_flags b st seq = replicate (length seq) true.
Proof.
  induction seq as [|[k d] seq IH]; intros st Hst; simpl; [done|].
  destruct (inRange_ready b st k Hst) as (st1 & -> & Hst1 & _).
  f_equal. by apply IH.
Qed.

Lemma flags_seeking id d l1 l2 : forall st,
  seeking st -> id ∉ keys l1 ->
  inRange_flags (AfterDoc id) st (l1 ++ (id, d) :: l2) =
  replicate (S (length l1)) false ++ replicate (length l2) true.
Proof.
  induction l1 as [|[k d1] l1 IH]; intros st Hst Hid; simpl.
  - destruct (inRange_seeking id st id Hst)
      as (st1 & -> & He & Hs & Hn & _).
    f_equal. apply flags_ready. split; [done|].
    right; right. by rewrite Hn, String.eqb_refl.
  - destruct (inRange_seeking id st k Hst)
      as (st1 & -> & He & Hs & Hn & _).
    unfold keys in Hid. simpl in Hid. apply not_elem_of_cons in Hid as [Hne Hid].
    f_equal. apply IH; [|done]. repeat split; auto.
    rewrite Hn. apply String.eqb_neq. congruence.
Qed.

Lemma flags_absent id seq : forall st,
  seeking st -> id ∉ keys seq ->
  inRange_flags (AfterDoc id) st seq = replicate (length seq) false.
Proof.
  induction seq as [|[k d1] seq IH]; intros st Hst Hid; simpl; [done|].
  destruct (inRange_seeking id st k Hst)
    as (st1 & -> & He & Hs & Hn & _).
  unfold keys in Hid. simpl in Hid. apply not_elem_of_cons in Hid as [Hne Hid].
  f_equal. apply IH; [|done]. repeat split; auto.
  rewrite Hn. apply String.eqb_neq. congruence.
Qed.

Lemma after_key_app id d l1 l2 :
  id ∉ keys l1 -> after_key id (l1 ++ (id, d) :: l2) = l2.
Proof.
  induction l1 as [|[k d1] l1 IH]; simpl; intros Hid.
  - by rewrite String.eqb_refl.
  - unfold keys in Hid. simpl in Hid. apply not_elem_of_cons in Hid as [Hne Hid].
    assert (String.eqb k id = false) as -> by (apply String.eqb_neq; congruence).
    by apply IH.
Qed.

Lemma after_key_sublist id seq : sublist (after_key id seq) seq.
Proof.
  induction seq as [|[k d] seq IH]; simpl; [done|].
  destruct (String.eqb k id); by constructor.
Qed.

Lemma capped_sublist lim seq : sublist (capped lim seq) seq.
Proof.
  unfold capped. destruct (lim <=? 0)%Z; [done | apply sublist_take].
Qed.

Lemma capped_length lim seq :
  (0 < lim)%Z -> length (capped lim seq) <= Z.to_nat lim.
Proof.
  intros H. unfold capped.
  destruct (Z.leb_spec lim 0); [lia|]. rewrite length_take. lia.
Qed.
End WalkFacts.

Section EvaluationFacts.
Context {L : Lodash}.

Lemma baseOrderBy_nil {A : Type} (f : A -> list value) orders :
  baseOrderBy [] f orders = [].
Proof. done. Qed.

Lemma traversal_nil ps ds : traversal [] ps ds = [].
Proof. destruct ps; done. Qed.

(** [_results]: order, then cursor, then limit. *)
Lemma results_of_spec d ps ds lim b :
  results_of d ps ds lim b =
  obj_of_list (capped lim (after_cursor b (traversal (default [] d) ps ds))).
Proof.
  assert (obj_of_list (capped lim (after_cursor b [])) = []) as Hnil.
  { assert (after_cursor b [] = []) as -> by (by destruct b).
    unfold capped. destruct (lim <=? 0)%Z; [done|]. by rewrite take_nil. }
  unfold results_of. destruct d as [d|]; simpl.
  - destruct d as [|r d]; simpl length; [|simpl Nat.eqb; apply walk_results].
    simpl. by rewrite traversal_nil, Hnil.
  - by rewrite traversal_nil, Hnil.
Qed.
End EvaluationFacts.

(** ** Computations on the store *)

Lemma lookup_snoc {A : Type} (l : list A) (x : A) :
  (l ++ [x]) !! length l = Some x.
Proof. by apply list_lookup_middle. Qed.

Lemma insert_snoc {A : Type} (l : list A) (x y : A) :
  <[length l := y]> (l ++ [x]) = l ++ [y].
Proof. rewrite insert_app_r_alt by lia. by rewrite Nat.sub_diag. Qed.

Lemma lookup_snoc_lt {A : Type} (l : list A) (x : A) i a :
  l !! i = Some a -> (l ++ [x]) !! i = Some a.
Proof. apply lookup_app_l_Some. Qed.

Lemma lookup_snoc2 {A : Type} (l : list A) (x y : A) :
  ((l ++ [x]) ++ [y]) !! S (length l) = Some y.
Proof.
  replace (S (length l)) with (length (l ++ [x]))
    by (rewrite length_app; simpl; lia).
  apply lookup_snoc.
Qed.

Lemma insert_snoc2 {A : Type} (l : list A) (x y z : A) :
  <[S (length l) := z]> ((l ++ [x]) ++ [y]) = (l ++ [x]) ++ [z].
Proof.
  replace (S (length l)) with (length (l ++ [x]))
    by (rewrite length_app; simpl; lia).
  apply insert_snoc.
Qed.

Lemma lookup_pair {A : Type} (l : list A) (x y : A) :
  (l ++ [x; y]) !! S (length l) = Some y.
Proof.
  rewrite lookup_app_r by lia.
  by replace (S (length l) - length l) with 1 by lia.
Qed.

Lemma insert_pair {A : Type} (l : list A) (x y z : A) :
  <[S (length l) := z]> (l ++ [x; y]) = l ++ [x; z].
Proof.
  rewrite insert_app_r_alt by lia.
  by replace (S (length l) - length l) with 1 by lia.
Qed.

Lemma length_snoc {A : Type} (l : list A) (x : A) :
  length (l ++ [x]) = S (length l).
Proof. rewrite length_app. simpl. lia. Qed.

Lemma world_eq (w1 w2 : world) :
  queries w1 = queries w2 ->
  propertyArrays w1 = propertyArrays w2 ->
  directionArrays w1 = directionArrays w2 ->
  queues w1 = queues w2 ->
  promises w1 = promises w2 ->
  subscriptions w1 = subscriptions w2 ->
  stack w1 = stack w2 ->
  jobs w1 = jobs w2 ->
  timers w1 = timers w2 ->
  console w1 = console w2 ->
  trace w1 = trace w2 ->
  w1 = w2.
Proof. destruct w1, w2; simpl; by intros -> -> -> -> -> -> -> -> -> -> ->. Qed.

Lemma Ret_eq {A : Type} (a : A) (w1 w2 : world) : w1 = w2 -> Ret a w1 = Ret a w2.
Proof. by intros ->. Qed.

Lemma bind_Ret {A B : Type} (m : M A) (k : A -> M B) w a w' :
  m w = Ret a w' -> (m ≫= k) w = k a w'.
Proof. unfold mbind, M_bind. by intros ->. Qed.

Lemma bind_Throw {A B : Type} (m : M A) (k : A -> M B) w e w' :
  m w = Throw e w' -> (m ≫= k) w = Throw e w'.
Proof. unfold mbind, M_bind. by intros ->. Qed.

Lemma deref_Some {A : Type} (store : world -> list A) l a w :
  store w !! l = Some a -> deref store l w = Ret a w.
Proof. unfold deref. by intros ->. Qed.

(** Runs a computation on a store whose lookups are among the
    hypotheses. *)
Ltac list_len := rewrite ?length_insert, ?length_app; simpl; lia.

Ltac list_M :=
  repeat first [ rewrite lookup_snoc | rewrite insert_snoc
               | rewrite lookup_snoc2 | rewrite insert_snoc2
               | rewrite lookup_pair | rewrite insert_pair
               | rewrite length_snoc | rewrite app_nil_r
               | rewrite <- app_assoc ].

(** Two stores are the same, field by field. *)
Ltac same_world :=
  apply Ret_eq; apply world_eq; cbn -[last_segment results_of foldl];
  list_M;
  unfold with_errs, with_flushDelay, with_orderedProperties,
    with_orderedDirections, with_limited, with_buildStartFinder, with_data,
    cleanFirestoreData, cloneDeep;
  cbn -[last_segment results_of foldl]; try done.

Ltac run_M :=
  unfold mbind, M_bind, mret, M_ret, deref, alloc, update, write, read,
    throw, console_warn, observe;
  repeat first
    [ progress cbn -[last_segment results_of foldl insert]
    | rewrite lookup_snoc | rewrite insert_snoc
    | rewrite lookup_snoc2 | rewrite insert_snoc2
    | rewrite lookup_pair | rewrite insert_pair
    | rewrite length_snoc
    | rewrite decide_True by done
    | rewrite decide_False by done
    | rewrite list_lookup_insert_eq by done
    | erewrite lookup_snoc_lt by eassumption
    | match goal with
      | H : _ = Some _ |- _ => rewrite H
      | H : _ = None |- _ => rewrite H
      end ].

Section Builder.
Context {L : Lodash}.

Lemma new_root_eq path d name w :
  MockFirestoreQuery.new path d None name w =
  Ret (length (queries w))
    (World
       (queries w ++
        [Query ∅
           (match path with None | Some "" => "Mock://" | Some p => p end)
           (extractName path) DFalse (length (queues w)) None None []
           (length (propertyArrays w)) (length (directionArrays w))
           0 FromStart d])
       (propertyArrays w ++ [[]]) (directionArrays w ++ [[]])
       (queues w ++ [MkQueue [] []])
       (promises w) (subscriptions w) (stack w) (jobs w) (timers w)
       (console w) (trace w)).
Proof.
  unfold MockFirestoreQuery.new, MockFirestoreQuery._setData, Queue.new.
  run_M. same_world.
Qed.

Lemma clone_eq w this t ps ds pt :
  instance w this t ps ds pt ->
  MockFirestoreQuery.clone this w =
  Ret (length (queries w)) (after_clone w (cloned w t pt) ps ds pt []).
Proof.
  intros [Hq Hp Hd Hpt].
  unfold MockFirestoreQuery.clone, MockFirestoreQuery._getData,
    MockFirestoreQuery.new, MockFirestoreQuery._setData, Queue.new.
  unfold after_clone, cloned.
  destruct (parent t) as [p|] eqn:Hpar;
    [destruct Hpt as [[x ->] Hx] | subst pt]; run_M; same_world.
Qed.

Lemma where_eq w this t ps ds pt property operator value :
  instance w this t ps ds pt ->
  MockFirestoreQuery.where_ this property operator value w =
  Ret (length (queries w))
    (after_clone w
       (with_data (where_data property operator value (data t))
          (cloned w t pt))
       ps ds pt
       (if supported operator then [] else [where_warning])).
Proof.
  intros Hi. unfold MockFirestoreQuery.where_.
  rewrite (bind_Ret _ _ _ _ _ (clone_eq _ _ _ _ _ _ Hi)).
  destruct Hi as [Hq Hp Hd Hpt].
  unfold where_data, MockFirestoreQuery._setData.
  destruct (supported operator); run_M.
  - destruct (size_of (data t) =? 0)%nat; run_M; same_world.
  - same_world.
Qed.

Lemma orderBy_eq w this t ps ds pt property direction :
  instance w this t ps ds pt ->
  MockFirestoreQuery.orderBy this property direction w =
  Ret (length (queries w))
    (after_clone w (cloned w t pt)
       (ps ++ [property])
       (ds ++ [match direction with
               | None | Some "" => "asc"
               | Some s => s
               end])
       pt []).
Proof.
  intros Hi. unfold MockFirestoreQuery.orderBy.
  rewrite (bind_Ret _ _ _ _ _ (clone_eq _ _ _ _ _ _ Hi)).
  destruct Hi as [Hq Hp Hd Hpt].
  run_M. same_world.
Qed.

Lemma limit_eq w this t ps ds pt n :
  instance w this t ps ds pt ->
  MockFirestoreQuery.limit this n w =
  Ret (length (queries w))
    (after_clone w (with_limited n (cloned w t pt)) ps ds pt []).
Proof.
  intros Hi. unfold MockFirestoreQuery.limit.
  rewrite (bind_Ret _ _ _ _ _ (clone_eq _ _ _ _ _ _ Hi)).
  destruct Hi as [Hq Hp Hd Hpt].
  run_M. same_world.
Qed.

Lemma startAfter_eq w this t ps ds pt ref_id :
  instance w this t ps ds pt ->
  ps <> [] ->
  MockFirestoreQuery.startAfter this (DocumentSnapshot ref_id) w =
  Ret (length (queries w))
    (after_clone w
       (with_buildStartFinder (AfterDoc ref_id) (cloned w t pt))
       ps ds pt []).
Proof.
  intros Hi Hps. unfold MockFirestoreQuery.startAfter.
  rewrite (bind_Ret _ _ _ _ _ (deref_Some _ _ _ _ (inst_query _ _ _ _ _ _ Hi))).
  rewrite (bind_Ret _ _ _ _ _
             (deref_Some propertyArrays _ _ _ (inst_properties _ _ _ _ _ _ Hi))).
  destruct ps as [|p0 ps]; [done|].
  change (length (p0 :: ps) =? 0)%nat with false. cbv iota.
  rewrite (bind_Ret _ _ _ _ _ (clone_eq _ _ _ _ _ _ Hi)).
  destruct Hi as [Hq Hp Hd Hpt].
  run_M. same_world.
Qed.

Lemma startAfter_unordered_eq w this t ref_id :
  queries w !! this = Some t ->
  propertyArrays w !! orderedProperties t = Some [] ->
  MockFirestoreQuery.startAfter this (DocumentSnapshot ref_id) w =
  Throw pagination_error w.
Proof. intros Hq Hp. unfold MockFirestoreQuery.startAfter. run_M. done. Qed.

Lemma startAfter_other_eq w this :
  MockFirestoreQuery.startAfter this Other w =
  Ret this (set_console (fun c => c ++ [startAfter_warning]) w).
Proof. done. Qed.

Lemma results_eq w this t ps ds pt :
  instance w this t ps ds pt ->
  MockFirestoreQuery._results this w =
  Ret (results_of (data t) ps ds (limited t) (buildStartFinder t)) w.
Proof.
  intros [Hq Hp Hd Hpt]. unfold MockFirestoreQuery._results. run_M. done.
Qed.

(** The new instance is in the store the call leaves. *)
Lemma instance_new w this t ps ds pt t' ps' ds' warnings :
  instance w this t ps ds pt ->
  parent t' = parent t ->
  orderedProperties t' = S (length (propertyArrays w)) ->
  orderedDirections t' = S (length (directionArrays w)) ->
  instance (after_clone w t' ps' ds' pt warnings) (length (queries w))
    t' ps' ds' pt.
Proof.
  intros [Hq Hp Hd Hpt] Hpar Hps Hds. split; simpl.
  - apply lookup_snoc.
  - rewrite Hps. rewrite lookup_app_r by lia.
    by replace (S (length (propertyArrays w)) - length (propertyArrays w))
      with 1 by lia.
  - rewrite Hds. rewrite lookup_app_r by lia.
    by replace (S (length (directionArrays w)) - length (directionArrays w))
      with 1 by lia.
  - rewrite Hpar. destruct (parent t) as [p|]; [|done].
    destruct Hpt as [[x ->] Hx]. split; [by eexists|].
    by apply lookup_app_l_Some.
Qed.

(** The instances that were in the store are as they were. *)
Lemma instance_frame w a ta psa dsa pta t' ps' ds' pt warnings :
  instance w a ta psa dsa pta ->
  instance (after_clone w t' ps' ds' pt warnings) a ta psa dsa pta.
Proof.
  intros [Hq Hp Hd Hpt]. split; simpl.
  - by apply lookup_app_l_Some.
  - by apply lookup_app_l_Some.
  - by apply lookup_app_l_Some.
  - destruct (parent ta) as [p|]; [|done].
    destruct Hpt as [[x ->] Hx]. split; [by eexists|].
    by apply lookup_app_l_Some.
Qed.
End Builder.

(** ** Objects that are given *)

Lemma example_data_js : js_object example_data.
Proof. by apply (bool_decide_unpack _). Qed.

Lemma example_instance :
  instance example_world 0 example_query [] [] None.
Proof. by split. Qed.

Lemma ordered_instance :
  instance ordered_world 1 ordered_query [Name "x"] ["asc"] None.
Proof. by split. Qed.

(** ** Pagination needs an order *)

(** C2: [startAfter(doc)], with [doc] a document snapshot, on a query
    whose list of sort keys is empty (no [orderBy] came before) throws
    'Query must be ordered to paginate' within the call itself, whatever
    data the query holds, and leaves the store as it was. *)
Theorem startAfter_requires_order (w : world) (this : loc) (t : query)
  (ref_id : string) :
  queries w !! this = Some t ->
  propertyArrays w !! orderedProperties t = Some [] ->
  MockFirestoreQuery.startAfter this (DocumentSnapshot ref_id) w =
  Throw (Error "Query must be ordered to paginate") w.
Proof. apply startAfter_unordered_eq. Qed.

Lemma startAfter_requires_order_witness :
  queries example_world !! 0 = Some example_query /\
  propertyArrays example_world !! orderedProperties example_query = Some [] /\
  MockFirestoreQuery.startAfter 0 (DocumentSnapshot "b") example_world =
  Throw (Error "Query must be ordered to paginate") example_world.
Proof.
  split; [reflexivity|]. split; [reflexivity|].
  apply (startAfter_requires_order example_world 0 example_query "b");
    reflexivity.
Defined.

(** ** Evaluation of an instance without constraints *)

Lemma results_of_unconstrained {L : Lodash} (d : option docs)
  (ds : list string) (lim : Z) :
  js_object (default [] d) -> (lim <= 0)%Z ->
  results_of d [] ds lim FromStart = default [] d.
Proof.
intros Hjs Hlim. rewrite results_of_spec. simpl.
unfold capped. destruct (Z.leb_spec lim 0); [|lia].
by apply obj_of_list_js.
Qed.

Lemma supported_false (operator : string) :
  operator <> "==" -> operator <> "array-contains" -> operator <> "in" ->
  supported operator = false.
Proof.
intros H1 H2 H3. unfold supported.
apply String.eqb_neq in H1, H2, H3. by rewrite H1, H2, H3.
Qed.

(** ** Operators [where] does not know *)

(** C10: [where(property, operator, value)] with an operator other
    than '==', 'array-contains' and 'in' returns normally (nothing is
    thrown), writes the warning on the console, and returns a clone
    that holds the whole dataset of the receiver: the clone evaluates
    to what the receiver evaluates to, which for a receiver without
    order, limit or cursor is every record. *)
Theorem where_unsupported_operator {L : Lodash} (w : world) (this : loc)
  (t : query) (ps : list property) (ds : list string) (pt : option query)
  (property : property) (operator : string) (value : value) :
  instance w this t ps ds pt ->
  operator <> "==" -> operator <> "array-contains" -> operator <> "in" ->
  exists (w' : world) (t' : query),
    MockFirestoreQuery.where_ this property operator value w =
      Ret (length (queries w)) w' /\
    console w' = console w ++ [where_warning] /\
    queries w' !! length (queries w) = Some t' /\
    data t' = data t /\
    MockFirestoreQuery._results (length (queries w)) w' =
      Ret (results_of (data t) ps ds (limited t) (buildStartFinder t)) w' /\
    MockFirestoreQuery._results this w =
      Ret (results_of (data t) ps ds (limited t) (buildStartFinder t)) w /\
    (ps = [] -> (limited t <= 0)%Z -> buildStartFinder t = FromStart ->
     js_object (default [] (data t)) ->
     results_of (data t) ps ds (limited t) (buildStartFinder t) =
     default [] (data t)).
Proof.
intros Hi H1 H2 H3.
pose proof (where_eq w this t ps ds pt property operator value Hi) as Heq.
unfold where_data in Heq. rewrite (supported_false _ H1 H2 H3) in Heq.
eexists _, _. split; [exact Heq|].
split; [done|]. split; [apply lookup_snoc|]. split; [done|].
split.
- pose proof (instance_new w this t ps ds pt
                (with_data (data t) (cloned w t pt)) ps ds [where_warning]
                Hi eq_refl eq_refl eq_refl) as Hi'.
  by rewrite (results_eq _ _ _ _ _ _ Hi').
- split; [by eapply results_eq|].
  intros -> Hlim -> Hjs. by apply results_of_unconstrained.
Qed.

Lemma where_unsupported_operator_witness :
  instance example_world 0 example_query [] [] None /\
  ">=" <> "==" /\ ">=" <> "array-contains" /\ ">=" <> "in" /\
  exists (w' : world) (t' : query),
    @MockFirestoreQuery.where_ plain_lodash 0 (Name "x") ">=" (VNum 2)
      example_world = Ret 1 w' /\
    console w' = [where_warning] /\
    queries w' !! 1 = Some t' /\
    data t' = Some example_data /\
    @MockFirestoreQuery._results plain_lodash 1 w' = Ret example_data w'.
Proof.
split; [exact example_instance|].
split; [discriminate|]. split; [discriminate|]. split; [discriminate|].
destruct (@where_unsupported_operator plain_lodash example_world 0
            example_query [] [] None (Name "x") ">=" (VNum 2)
            example_instance)
  as (w' & t' & Hw & Hc & Hq & Hd & Hr & _ & _);
  [discriminate..|].
change (length (queries example_world)) with 1 in Hw, Hq, Hr.
exists w', t'. split; [exact Hw|]. split; [exact Hc|].
split; [exact Hq|]. split; [exact Hd|].
rewrite Hr. reflexivity.
Defined.

(** ** The limit *)

(** C8: the query [limit(n)] returns evaluates to the records that
    are left after filter, order and cursor, cut after the first [n]
    of them when [n > 0], so to at most [n] entries, and to all of them
    when [n <= 0]; an instance whose [limited] is [0], as the
    constructor leaves it, or below is not cut either. *)
Theorem limit_truncates {L : Lodash} (w : world) (this : loc) (t : query)
  (ps : list property) (ds : list string) (pt : option query) (n : Z) :
  instance w this t ps ds pt ->
  let seq := after_cursor (buildStartFinder t)
               (traversal (default [] (data t)) ps ds) in
  exists (w' : world) (r : docs),
    MockFirestoreQuery.limit this n w = Ret (length (queries w)) w' /\
    MockFirestoreQuery._results (length (queries w)) w' = Ret r w' /\
    ((0 < n)%Z ->
       r = obj_of_list (take (Z.to_nat n) seq) /\ length r <= Z.to_nat n) /\
    ((n <= 0)%Z -> r = obj_of_list seq) /\
    ((limited t <= 0)%Z ->
       MockFirestoreQuery._results this w = Ret (obj_of_list seq) w).
Proof.
intros Hi seq.
pose proof (limit_eq w this t ps ds pt n Hi) as Heq.
pose proof (instance_new w this t ps ds pt
              (with_limited n (cloned w t pt)) ps ds []
              Hi eq_refl eq_refl eq_refl) as Hi'.
eexists _, _. split; [exact Heq|].
split; [by rewrite (results_eq _ _ _ _ _ _ Hi')|].
simpl. rewrite results_of_spec. fold seq. unfold capped.
split; [|split].
- intros Hn. destruct (Z.leb_spec n 0); [lia|]. split; [done|].
  etrans; [apply obj_of_list_length|]. rewrite length_take. lia.
- intros Hn. by destruct (Z.leb_spec n 0); [|lia].
- intros Hn. rewrite (results_eq _ _ _ _ _ _ Hi), results_of_spec.
  fold seq. unfold capped. by destruct (Z.leb_spec (limited t) 0); [|lia].
Qed.

Lemma limit_truncates_witness :
  instance example_world 0 example_query [] [] None /\
  exists (w' : world),
    MockFirestoreQuery.limit 0 2 example_world = Ret 1 w' /\
    @MockFirestoreQuery._results plain_lodash 1 w' =
      Ret [("a", [("x", VNum 1)]); ("b", [("x", VNum 2)])] w'.
Proof.
split; [exact example_instance|].
destruct (@limit_truncates plain_lodash example_world 0 example_query
            [] [] None 2 example_instance)
  as (w' & r & Hw & Hr & Hpos & _).
change (length (queries example_world)) with 1 in Hw, Hr.
exists w'. split; [exact Hw|].
rewrite Hr. destruct Hpos as [-> _]; [lia|]. reflexivity.
Defined.

(** ** The cursor *)

(** C6: the query [startAfter(doc)] returns from an ordered query
    walks the ordered records with [inRange] answering [false] up to
    and including the record whose key is [doc.ref.id] and [true] for
    every record after it, so that it evaluates to the records strictly
    after the cursor, up to the limit; the state of the resolver is
    made anew by every evaluation, which leaves the store as it is, so
    a second evaluation gives the same result. *)
Theorem startAfter_exclusive {L : Lodash} (w : world) (this : loc)
  (t : query) (ps : list property) (ds : list string) (pt : option query)
  (ref_id : string) (l1 l2 : list (string * doc)) (d : doc) :
  instance w this t ps ds pt ->
  ps <> [] ->
  traversal (default [] (data t)) ps ds = l1 ++ (ref_id, d) :: l2 ->
  ref_id ∉ keys l1 ->
  exists (w' : world) (t' : query),
    MockFirestoreQuery.startAfter this (DocumentSnapshot ref_id) w =
      Ret (length (queries w)) w' /\
    instance w' (length (queries w)) t' ps ds pt /\
    buildStartFinder t' = AfterDoc ref_id /\
    traversal (default [] (data t')) ps ds = l1 ++ (ref_id, d) :: l2 /\
    inRange_flags (buildStartFinder t') walk_init
      (l1 ++ (ref_id, d) :: l2) =
      replicate (S (length l1)) false ++ replicate (length l2) true /\
    (MockFirestoreQuery._results (length (queries w));;
     MockFirestoreQuery._results (length (queries w))) w' =
      Ret (obj_of_list (capped (limited t) l2)) w' /\
    MockFirestoreQuery._results (length (queries w)) w' =
      Ret (obj_of_list (capped (limited t) l2)) w'.
Proof.
intros Hi Hps Htr Hid.
pose proof (startAfter_eq w this t ps ds pt ref_id Hi Hps) as Heq.
pose proof (instance_new w this t ps ds pt
              (with_buildStartFinder (AfterDoc ref_id) (cloned w t pt))
              ps ds [] Hi eq_refl eq_refl eq_refl) as Hi'.
assert (MockFirestoreQuery._results (length (queries w))
          (after_clone w
             (with_buildStartFinder (AfterDoc ref_id) (cloned w t pt))
             ps ds pt []) =
        Ret (obj_of_list (capped (limited t) l2))
          (after_clone w
             (with_buildStartFinder (AfterDoc ref_id) (cloned w t pt))
             ps ds pt [])) as Hres.
{ rewrite (results_eq _ _ _ _ _ _ Hi'). simpl.
  rewrite results_of_spec, Htr. simpl. by rewrite after_key_app. }
eexists _, _. split; [exact Heq|]. split; [exact Hi'|].
split; [done|]. split; [exact Htr|]. split.
- simpl. by apply flags_seeking.
- split; [|exact Hres].
  by rewrite (bind_Ret _ _ _ _ _ Hres).
Qed.

Lemma startAfter_exclusive_witness :
  instance ordered_world 1 ordered_query [Name "x"] ["asc"] None /\
  [Name "x"] <> [] /\
  @traversal plain_lodash (default [] (data ordered_query))
    [Name "x"] ["asc"] =
    [("a", [("x", VNum 1)])] ++
      (("c", [("x", VNum 1)]) :: [("b", [("x", VNum 2)])]) /\
  ("c" ∉ keys [("a", [("x", VNum 1)])]) /\
  exists (w' : world),
    MockFirestoreQuery.startAfter 1 (DocumentSnapshot "c") ordered_world =
      Ret 2 w' /\
    @MockFirestoreQuery._results plain_lodash 2 w' =
      Ret [("b", [("x", VNum 2)])] w'.
Proof.
assert ("c" ∉ keys [("a", [("x", VNum 1)])]) as Hid
  by (by apply (bool_decide_unpack _)).
split; [exact ordered_instance|]. split; [discriminate|].
split; [reflexivity|]. split; [exact Hid|].
destruct (@startAfter_exclusive plain_lodash ordered_world 1 ordered_query
            [Name "x"] ["asc"] None "c"
            [("a", [("x", VNum 1)])] [("b", [("x", VNum 2)])]
            [("x", VNum 1)] ordered_instance)
  as (w' & t' & Hw & _ & _ & _ & _ & _ & Hr);
  [discriminate | reflexivity | exact Hid |].
change (length (queries ordered_world)) with 2 in Hw, Hr.
exists w'. split; [exact Hw|]. rewrite Hr. reflexivity.
Defined.

(** ** The receiver of a builder call *)

Lemma untouched_after_clone {L : Lodash} w t' ps' ds' pt warnings :
  untouched w (after_clone w t' ps' ds' pt warnings).
Proof.
intros a ta psa dsa pta Hi.
pose proof (instance_frame w a ta psa dsa pta t' ps' ds' pt warnings Hi)
  as Hi'.
split; [exact Hi'|]. exact (results_eq _ _ _ _ _ _ Hi').
Qed.

(** C9, amended: no builder call changes an instance that was in the
    store, the receiver among them: each keeps its fields, its arrays
    and its data, and evaluates to what it evaluated to.  [where],
    [orderBy] and [limit] return a new instance, and so does
    [startAfter] for a document snapshot on an ordered query;
    [startAfter] returns the receiver itself, after a warning, for
    another argument, and throws, leaving the store as it was, for a
    document snapshot on a query that is not ordered. *)
Theorem builder_leaves_receiver {L : Lodash} (w : world) (this : loc)
  (t : query) (ps : list property) (ds : list string) (pt : option query)
  (c : builder_call) :
  instance w this t ps ds pt ->
  (exists (q : loc) (w' : world),
     builder this c w = Ret q w' /\ untouched w w' /\
     ((q = length (queries w) /\
       length (queries w') = S (length (queries w)) /\
       c <> CallStartAfter Other) \/
      (q = this /\ queries w' = queries w /\ c = CallStartAfter Other))) \/
  (exists (ref_id : string),
     c = CallStartAfter (DocumentSnapshot ref_id) /\ ps = [] /\
     builder this c w = Throw pagination_error w).
Proof.
intros Hi.
destruct c as [property operator value|property direction|n|[ref_id|]];
  cbn [builder].
- left. eexists _, _. split; [exact (where_eq _ _ _ _ _ _ _ _ _ Hi)|].
  split; [apply untouched_after_clone|].
  left. split; [done|]. split; [|done]. simpl. apply length_snoc.
- left. eexists _, _. split; [exact (orderBy_eq _ _ _ _ _ _ _ _ Hi)|].
  split; [apply untouched_after_clone|].
  left. split; [done|]. split; [|done]. simpl. apply length_snoc.
- left. eexists _, _. split; [exact (limit_eq _ _ _ _ _ _ _ Hi)|].
  split; [apply untouched_after_clone|].
  left. split; [done|]. split; [|done]. simpl. apply length_snoc.
- destruct ps as [|p0 ps].
  + right. exists ref_id. split; [done|]. split; [done|].
    destruct Hi as [Hq Hp _ _]. exact (startAfter_unordered_eq _ _ _ _ Hq Hp).
  + left. eexists _, _. split; [exact (startAfter_eq _ _ _ _ _ _ _ Hi ltac:(done))|].
    split; [apply untouched_after_clone|].
    left. split; [done|]. split; [|done]. simpl. apply length_snoc.
- left. eexists _, _. split; [apply startAfter_other_eq|].
  split.
  + intros a ta psa dsa pta Ha.
    assert (instance (set_console (fun c => c ++ [startAfter_warning]) w)
              a ta psa dsa pta) as Ha' by (by destruct Ha).
    split; [exact Ha'|]. exact (results_eq _ _ _ _ _ _ Ha').
  + right. done.
Qed.

Lemma builder_leaves_receiver_witness :
  instance example_world 0 example_query [] [] None /\
  exists (w' : world),
    @builder plain_lodash 0 (CallWhere (Name "x") "==" (VNum 1))
      example_world = Ret 1 w' /\
    @MockFirestoreQuery._results plain_lodash 0 w' = Ret example_data w' /\
    queries w' !! 0 = Some example_query.
Proof.
split; [exact example_instance|].
destruct (@builder_leaves_receiver plain_lodash example_world 0
            example_query [] [] None (CallWhere (Name "x") "==" (VNum 1))
            example_instance)
  as [(q & w' & Hw & Hun & [(-> & _)|(_ & _ & Hc)])|(r & Hc & _)];
  [|discriminate Hc|discriminate Hc].
exists w'. split; [exact Hw|].
destruct (Hun 0 example_query [] [] None example_instance) as [Hi' Hr].
split; [exact Hr|]. by destruct Hi'.
Defined.

(** C9 as stated does not hold: [startAfter] with a document snapshot
    returns no instance on a query that is not ordered, and with
    another argument it returns the receiver, not a new instance. *)
Lemma builder_returns_new_counterexample :
  (forall (q : loc) (w' : world),
     @builder plain_lodash 0 (CallStartAfter (DocumentSnapshot "b"))
       example_world <> Ret q w') /\
  (exists (w' : world),
     @builder plain_lodash 0 (CallStartAfter Other) example_world =
       Ret 0 w' /\
     length (queries w') = length (queries example_world)).
Proof.
split.
- intros q w'. discriminate.
- by eexists.
Qed.

(** ** Filtering by equality *)

Section WhereFacts.
Context {L : Lodash}.

Lemma foldl_where_step property value (l : list (string * doc)) :
  forall acc,
  foldl (where_step property "==" value) acc l =
  foldl (fun acc kv => obj_set kv.1 kv.2 acc) acc
    (filter (matches property value) l).
Proof.
induction l as [|[k d] l IH]; intros acc; [done|].
rewrite filter_cons. cbn [foldl]. rewrite IH.
unfold where_step at 1. cbn [String.eqb Ascii.eqb Bool.eqb andb].
destruct (decide (matches property value (k, d))) as [Hm|Hm];
  unfold matches in Hm; cbn [fst snd] in Hm.
- by rewrite Hm.
- apply not_true_is_false in Hm. by rewrite Hm.
Qed.

Lemma where_equal_data property value (d : list (string * doc)) :
  js_object d ->
  foldl (where_step property "==" value) [] d =
  filter (matches property value) d.
Proof.
intros Hjs. rewrite foldl_where_step.
apply obj_of_list_js.
eapply js_object_sublist; [apply sublist_filter | done].
Qed.
End WhereFacts.


(** ** Deferred delivery *)

Section Delivery.
Context {L : Lodash}.

Lemma get_eq w this t Q :
  queries w !! this = Some t ->
  queues w !! queue t = Some Q ->
  MockFirestoreQuery.get this w =
  Ret (length (promises w)) (after_get w this t Q).
Proof.
intros Hq HQ.
assert (this < length (queries w)) as Hlt by (by eapply lookup_lt_Some).
unfold MockFirestoreQuery.get, MockFirestoreQuery._nextErr,
  MockFirestoreQuery._defer, MockFirestoreQuery.flush, Promise.new,
  Queue.push, Queue.flush, after_get, get_event.
run_M.
destruct (flushDelay t) eqn:Hfd; run_M; same_world.
Qed.

Lemma flush_eq w this t d :
  queries w !! this = Some t ->
  MockFirestoreQuery.flush this d w =
  Ret this
    (match d with
     | Some (DNumber ms) => set_timers (fun ts => ts ++ [(ms, queue t)]) w
     | _ => set_stack (fun st => Drain (queue t) :: st) w
     end).
Proof.
intros Hq. unfold MockFirestoreQuery.flush, Queue.flush. run_M.
by destruct d as [[]|].
Qed.

Lemma run_eq w self t ps ds pt err p pr :
  instance w self t ps ds pt ->
  promises w !! p = Some pr ->
  MockFirestoreQuery.run (GetCallback self err p) w =
  Ret tt (settle w p pr (get_outcome self t ps ds err)).
Proof.
intros [Hq Hp Hd Hpt] Hpr.
unfold MockFirestoreQuery.run, MockFirestoreQuery._results,
  MockFirestoreQuery.ref_of, Promise.resolve, Promise.reject, settle,
  get_outcome.
destruct err as [e|]; run_M.
- destruct (state pr); run_M; first [done | same_world].
- destruct (size_of (data t) =? 0)%nat; run_M;
    destruct (state pr); run_M; first [done | same_world].
Qed.

Lemma tau_drain_event w q st Q e es :
  stack w = Drain q :: st ->
  queues w !! q = Some Q ->
  events Q = e :: es ->
  tau w =
  MockFirestoreQuery.run (fn e)
    (set_queues (fun s => <[q := with_events (fun _ => es) Q]> s) w).
Proof.
intros Hst HQ He. unfold tau. run_M. rewrite Hst. run_M. rewrite He.
by rewrite HQ.
Qed.

Lemma tau_drain_empty w q st Q :
  stack w = Drain q :: st ->
  queues w !! q = Some Q ->
  events Q = [] ->
  tau w =
  Ret tt
    (set_stack (fun _ => PostFlush q (postFlush Q) :: st)
       (set_trace (fun t => t ++ [Flushed q]) w)).
Proof.
intros Hst HQ He. unfold tau. run_M. rewrite Hst. run_M. by rewrite He.
Qed.

Lemma tau_post_nil w q st :
  stack w = PostFlush q [] :: st ->
  tau w = Ret tt (set_stack (fun _ => st) w).
Proof. intros Hst. unfold tau. run_M. by rewrite Hst. Qed.


Lemma step_idle w l :
  stack w = [] ->
  step l w =
  match call l w with
  | Ret _ w' => Some w'
  | Throw _ w' => Some w'
  | Fault => None
  | Timeout => None
  end.
Proof. intros Hst. unfold step. rewrite Hst. by destruct l. Qed.

Lemma step_tau w :
  step Tau w =
  match tau w with
  | Ret _ w' => Some w'
  | Throw _ w' => Some w'
  | Fault => None
  | Timeout => None
  end.
Proof. done. Qed.
End Delivery.

(** C1: on any record set, [where(path, '==', value)] followed by
    [get()] and a flush fulfils the promise with exactly the records
    whose value at the path is deeply equal to [value], in the order
    the records had; before the flush the promise is pending. *)
Theorem where_equal_get {L : Lodash} (w : world) (path name : option string)
  (d : option docs) (property : property) (value : value) :
  stack w = [] ->
  js_object (default [] d) ->
  let n := length (queries w) in
  let kept := filter (matches property value) (default [] d) in
  exists (w1 w2 : world),
    exec [New path d None name; Where n property "==" value; Get (S n)] w
      = Some w1 /\
    promises w1 !! length (promises w) = Some (Promise Pending []) /\
    exec [Flush (S n) None; Tau; Tau; Tau] w1 = Some w2 /\
    stack w2 = [] /\
    exists (s : snapshot),
      promises w2 !! length (promises w) = Some (Promise (Fulfilled s) []) /\
      snapshot_docs s = kept.
Proof.
intros Hst Hjs n kept.
pose proof (new_root_eq path d name w) as Hnew.
set (t0 := Query _ _ _ _ _ _ _ _ _ _ _ _ _) in Hnew.
set (w0 := World _ _ _ _ _ _ _ _ _ _ _) in Hnew.
assert (instance w0 n t0 [] [] None) as Hi0.
{ split; try done; apply lookup_snoc. }
pose proof (where_eq w0 n t0 [] [] None property "==" value Hi0) as Hwh.
cbn [supported String.eqb Ascii.eqb Bool.eqb andb orb] in Hwh.
pose proof (instance_new w0 n t0 [] [] None
              (with_data (where_data property "==" value (data t0))
                 (cloned w0 t0 None)) [] [] []
              Hi0 eq_refl eq_refl eq_refl) as Hi1.
set (t1 := with_data _ _) in Hwh, Hi1.
set (w1 := after_clone _ _ _ _ _ _) in Hwh, Hi1.
assert (length (queries w0) = S n) as Hlen by apply length_snoc.
rewrite Hlen in Hwh, Hi1.
assert (step (New path d None name) w = Some w0) as Hs0.
{ rewrite (step_idle _ _ Hst). cbn [call].
  by rewrite (bind_Ret _ _ _ _ _ Hnew). }
assert (step (Where n property "==" value) w0 = Some w1) as Hs1.
{ rewrite (step_idle w0 _ Hst). cbn [call].
  by rewrite (bind_Ret _ _ _ _ _ Hwh). }
assert (queues w1 !! queue t1 = Some (MkQueue [] [])) as HQ1
  by apply lookup_snoc.
pose proof (get_eq w1 (S n) t1 _ (inst_query _ _ _ _ _ _ Hi1) HQ1) as Hget.
set (w2 := after_get _ _ _ _) in Hget.
assert (step (Get (S n)) w1 = Some w2) as Hs2.
{ rewrite (step_idle w1 _ Hst). cbn [call].
  by rewrite (bind_Ret _ _ _ _ _ Hget). }
assert (S n < length (queries w1)) as Hlt.
{ apply lookup_lt_is_Some. eexists. apply (inst_query _ _ _ _ _ _ Hi1). }
set (t2 := with_errs (delete "get") t1).
assert (instance w2 (S n) t2 [] [] None) as Hi2.
{ destruct Hi1 as [Hq Hp Hd Hpt]. split; try done.
  simpl. by apply list_lookup_insert_eq. }
pose proof (flush_eq w2 (S n) t2 None (inst_query _ _ _ _ _ _ Hi2)) as Hfl.
set (w3 := set_stack _ _) in Hfl.
assert (step (Flush (S n) None) w2 = Some w3) as Hs3.
{ rewrite (step_idle w2 _ Hst). cbn [call].
  by rewrite (bind_Ret _ _ _ _ _ Hfl). }
set (p := length (promises w)).
set (ev := get_event w1 (S n) t1).
set (Q2 := with_events (fun es => es ++ [ev]) (MkQueue [] [])).
assert (queues w3 !! queue t2 = Some Q2) as HQ3.
{ simpl. rewrite list_lookup_insert_eq; [done | list_len]. }
pose proof (tau_drain_event w3 (queue t2) [] Q2 ev []
              ltac:(simpl; by rewrite Hst) HQ3 eq_refl) as Htau1.
set (w3' := set_queues _ w3) in Htau1.
assert (instance w3' (S n) t2 [] [] None) as Hi3 by (by destruct Hi2).
assert (promises w3' !! p = Some (Promise Pending [])) as Hp3
  by apply lookup_snoc.
change (fn ev) with (GetCallback (S n) (errs t1 !! "get") p) in Htau1.
rewrite (run_eq w3' (S n) t2 [] [] None _ p _ Hi3 Hp3) in Htau1.
set (w4 := settle _ _ _ _) in Htau1.
assert (step Tau w3 = Some w4) as Hs4 by (by rewrite step_tau, Htau1).
set (Q3 := with_events (fun _ => []) Q2).
assert (queues w4 !! queue t2 = Some Q3) as HQ4.
{ simpl. rewrite list_lookup_insert_eq; [done | list_len]. }
pose proof (tau_drain_empty w4 (queue t2) [] Q3
              ltac:(simpl; by rewrite Hst) HQ4 eq_refl) as Htau2.
set (w5 := set_stack _ _) in Htau2.
assert (step Tau w4 = Some w5) as Hs5 by (by rewrite step_tau, Htau2).
pose proof (tau_post_nil w5 (queue t2) [] eq_refl) as Htau3.
set (w6 := set_stack _ _) in Htau3.
assert (step Tau w5 = Some w6) as Hs6 by (by rewrite step_tau, Htau3).
exists w2, w6.
split; [cbn [exec]; by rewrite Hs0, Hs1, Hs2|].
split; [apply lookup_snoc|].
split; [cbn [exec]; by rewrite Hs3, Hs4, Hs5, Hs6|].
split; [done|].
assert (where_data property "==" value d =
        if negb (size_of d =? 0)%nat then Some kept else None) as Hdata.
{ unfold where_data. cbn [supported String.eqb Ascii.eqb Bool.eqb andb orb].
  destruct (negb (size_of d =? 0)%nat); [|done].
  f_equal. by apply where_equal_data. }
assert (get_outcome (S n) t2 [] [] None =
        Fulfilled
          (QuerySnapshot (Self (S n))
             (if negb (length kept =? 0)%nat then Some kept else None) None))
  as Hout.
{ unfold get_outcome.
  change (parent t2) with (@None loc).
  change (limited t2) with 0%Z.
  change (buildStartFinder t2) with FromStart.
  change (data t2) with (where_data property "==" value d).
  rewrite Hdata. cbv zeta.
  destruct (negb (size_of d =? 0)%nat) eqn:Hsz.
  - rewrite results_of_unconstrained; [|simpl|done].
    + unfold size_of. by destruct (length kept).
    + eapply js_object_sublist; [apply sublist_filter | done].
  - assert (kept = []) as ->; [|done].
    apply negb_false_iff, Nat.eqb_eq in Hsz.
    subst kept. destruct d as [[|? ?]|]; simpl in *; done. }
eexists. split.
- unfold w6, w5, w4, settle. cbn -[get_outcome].
  rewrite lookup_empty, Hout.
  apply list_lookup_insert_eq. list_len.
- simpl. destruct kept; done.
Qed.

Lemma where_equal_get_witness :
  stack empty_world = [] /\
  js_object (default [] (Some example_data)) /\
  exists (w1 w2 : world) (s : snapshot),
    @exec plain_lodash
      [New (Some "/coll") (Some example_data) None None;
       Where 0 (Name "x") "==" (VNum 1); Get 1] empty_world = Some w1 /\
    promises w1 !! 0 = Some (Promise Pending []) /\
    @exec plain_lodash [Flush 1 None; Tau; Tau; Tau] w1 = Some w2 /\
    promises w2 !! 0 = Some (Promise (Fulfilled s) []) /\
    snapshot_docs s = [("a", [("x", VNum 1)]); ("c", [("x", VNum 1)])].
Proof.
split; [reflexivity|]. split; [exact example_data_js|].
destruct (@where_equal_get plain_lodash empty_world (Some "/coll") None
            (Some example_data) (Name "x") (VNum 1) eq_refl example_data_js)
  as (w1 & w2 & H1 & Hp & H2 & _ & s & Hs & Hd).
exists w1, w2, s. split; [exact H1|]. split; [exact Hp|].
split; [exact H2|]. split; [exact Hs|]. rewrite Hd. reflexivity.
Defined.

(** ** Injected errors *)

(** [_nextErr] hands the error out once: after [get()] the instance no
    longer holds an error for 'get', and the event carries the one it
    held. *)
Lemma get_consumes_error {L : Lodash} (w : world) (this : loc) (t : query)
  (Q : Queue) :
  queries w !! this = Some t ->
  queues w !! queue t = Some Q ->
  exists (w' : world) (t' : query) (Q' : Queue),
    MockFirestoreQuery.get this w = Ret (length (promises w)) w' /\
    queries w' !! this = Some t' /\ errs t' !! "get" = None /\
    queues w' !! queue t = Some Q' /\
    events Q' =
      events Q ++
      [Event (GetCallback this (errs t !! "get") (length (promises w)))
         this "get"].
Proof.
intros Hq HQ. eexists _, _, _. split; [by apply get_eq|].
split; [|split; [|split]].
- simpl. apply list_lookup_insert_eq. by eapply lookup_lt_Some.
- simpl. apply lookup_delete_eq.
- simpl. apply list_lookup_insert_eq. by eapply lookup_lt_Some.
- done.
Qed.

(** An error injected for 'get' rejects the promise of the first
    [get()]; the promise of the second is fulfilled. *)
Lemma get_error_once :
  promises <$>
    @exec plain_lodash
      [SetErr 0 "get" (Error "boom"); Get 0; Get 0; Flush 0 None;
       Tau; Tau; Tau; Tau] example_world =
  Some [Promise (Rejected (Error "boom")) [];
        Promise (Fulfilled (QuerySnapshot (Self 0) (Some example_data) None))
          []].
Proof. vm_compute. reflexivity. Qed.

(** C3 fails for [onSnapshot]: with an error injected for
    'onSnapshot', the subscription calls the error callback when it is
    made and again after the next flush, the same error twice. *)
Theorem onSnapshot_error_delivered_again :
  trace <$>
    @exec plain_lodash
      [SetErr 0 "onSnapshot" (Error "boom"); OnSnapshot 0 false; Get 0;
       Flush 0 None; Tau; Tau; Tau; Tau] example_world =
  Some [OnError 0 (Error "boom"); Flushed 0; OnError 0 (Error "boom")].
Proof. vm_compute. reflexivity. Qed.

(** The error is taken from the instance all the same: a subscription
    made afterwards is served. *)
Lemma onSnapshot_error_cleared :
  trace <$>
    @exec plain_lodash
      [SetErr 0 "onSnapshot" (Error "boom"); OnSnapshot 0 false;
       OnSnapshot 0 false] example_world =
  Some [OnError 0 (Error "boom");
        OnNext 1 (QuerySnapshot (Self 0) (Some example_data) (Some []))].
Proof. vm_compute. reflexivity. Qed.

(** ** Reasoning on computations *)

Lemma wp_bind {A B : Type} (m : M A) (k : A -> M B) w Q E :
  wp m w (fun a w' => wp (k a) w' Q E) E -> wp (m ≫= k) w Q E.
Proof. unfold wp, mbind, M_bind. by destruct (m w). Qed.

Lemma wp_ret {A : Type} (a : A) w (Q : A -> world -> Prop) E :
  Q a w -> wp (mret a) w Q E.
Proof. done. Qed.

Lemma wp_throw {A : Type} e w (Q : A -> world -> Prop) (E : world -> Prop) :
  E w -> wp (throw e) w Q E.
Proof. done. Qed.

Lemma wp_fault {A : Type} w (Q : A -> world -> Prop) E : wp fault w Q E.
Proof. done. Qed.

Lemma wp_timeout {A : Type} w (Q : A -> world -> Prop) E : wp timeout w Q E.
Proof. done. Qed.

Lemma wp_deref {A : Type} (store : world -> list A) l w Q E :
  (forall a, store w !! l = Some a -> Q a w) -> wp (deref store l) w Q E.
Proof. unfold wp, deref. destruct (store w !! l); auto. Qed.

Lemma wp_alloc {A : Type} (store : world -> list A) set (a : A) w Q E :
  Q (length (store w)) (set (fun s => s ++ [a]) w) ->
  wp (alloc store set a) w Q E.
Proof. done. Qed.

Lemma wp_update {A : Type} (store : world -> list A) set l (f : A -> A)
  w Q E :
  (forall a, store w !! l = Some a ->
             Q tt (set (fun s => <[l := f a]> s) w)) ->
  wp (update store set l f) w Q E.
Proof. unfold wp, update. destruct (store w !! l); auto. Qed.

Lemma wp_write (f : world -> world) w Q E : Q tt (f w) -> wp (write f) w Q E.
Proof. done. Qed.

Lemma wp_read {A : Type} (f : world -> A) w Q E : Q (f w) w -> wp (read f) w Q E.
Proof. done. Qed.

Lemma wp_mono {A : Type} (m : M A) w (Q Q' : A -> world -> Prop)
  (E E' : world -> Prop) :
  wp m w Q E ->
  (forall a w', Q a w' -> Q' a w') -> (forall w', E w' -> E' w') ->
  wp m w Q' E'.
Proof. unfold wp. destruct (m w); auto. Qed.

(** One rule of the above, by the shape of the computation. *)
Ltac wp_step :=
  lazymatch goal with
  | |- wp (_ ≫= _) _ _ _ => apply wp_bind
  | |- wp (mret _) _ _ _ => apply wp_ret
  | |- wp (throw _) _ _ _ => apply wp_throw
  | |- wp fault _ _ _ => apply wp_fault
  | |- wp timeout _ _ _ => apply wp_timeout
  | |- wp (deref _ _) _ _ _ => apply wp_deref; intros ? ?
  | |- wp (alloc _ _ _) _ _ _ => apply wp_alloc
  | |- wp (update _ _ _ _) _ _ _ => apply wp_update; intros ? ?
  | |- wp (write _) _ _ _ => apply wp_write
  | |- wp (read _) _ _ _ => apply wp_read
  | |- wp (console_warn _) _ _ _ => apply wp_write
  | |- wp (observe _) _ _ _ => apply wp_write
  | |- wp (match ?x with _ => _ end) _ _ _ => destruct x eqn:?
  | |- wp (if ?x then _ else _) _ _ _ => destruct x eqn:?
  end.

Ltac wp_go := cbv beta; repeat (wp_step; cbv beta).

(** ** Calls that leave subscriptions alone *)

Lemma calm_refl w : calm w w.
Proof. do 5 (split; [done|]). exists 0. simpl. by rewrite app_nil_r. Qed.

Lemma calm_set_queries w0 w f : calm w0 w -> calm w0 (set_queries f w).
Proof. done. Qed.

Lemma calm_set_propertyArrays w0 w f :
  calm w0 w -> calm w0 (set_propertyArrays f w).
Proof. done. Qed.

Lemma calm_set_directionArrays w0 w f :
  calm w0 w -> calm w0 (set_directionArrays f w).
Proof. done. Qed.

Lemma calm_set_console w0 w f : calm w0 w -> calm w0 (set_console f w).
Proof. done. Qed.

Lemma calm_set_timers w0 w f : calm w0 w -> calm w0 (set_timers f w).
Proof. done. Qed.

Lemma calm_new_queue w0 w :
  calm w0 w -> calm w0 (set_queues (fun s => s ++ [MkQueue [] []]) w).
Proof.
intros (? & ? & ? & ? & ? & k & Hk). do 5 (split; [done|]).
exists (S k). simpl. rewrite fmap_app, Hk. simpl.
rewrite <- app_assoc. f_equal.
change ([[]] : list (list loc)) with (replicate 1 ([] : list loc)).
rewrite <- replicate_add. by replace (k + 1) with (S k) by lia.
Qed.

Lemma calm_events w0 w q Q f :
  calm w0 w -> queues w !! q = Some Q ->
  calm w0 (set_queues (fun s => <[q := with_events f Q]> s) w).
Proof.
intros (? & ? & ? & ? & ? & k & Hk) HQ. do 5 (split; [done|]).
exists k. simpl. rewrite list_fmap_insert. simpl.
rewrite list_insert_id; [done|].
by rewrite list_lookup_fmap, HQ.
Qed.

Ltac calm_tac :=
  repeat first
    [ assumption
    | apply calm_set_queries | apply calm_set_propertyArrays
    | apply calm_set_directionArrays | apply calm_set_console
    | apply calm_set_timers | apply calm_new_queue
    | (eapply calm_events; [|eassumption]) ].

Section Calm.
Context {L : Lodash}.

Lemma wp_calm_setData w0 w this d :
  calm w0 w ->
  wp (MockFirestoreQuery._setData this d) w (fun _ w' => calm w0 w')
    (calm w0).
Proof. intros Hc. unfold MockFirestoreQuery._setData. wp_go. calm_tac. Qed.

Lemma wp_calm_new w0 w path d parent name :
  calm w0 w ->
  wp (MockFirestoreQuery.new path d parent name) w
    (fun _ w' => calm w0 w') (calm w0).
Proof.
intros Hc. unfold MockFirestoreQuery.new, Queue.new.
wp_go; (eapply wp_mono; [apply (wp_calm_setData w0); calm_tac | |]);
  intros; wp_go; calm_tac.
Qed.

Lemma wp_calm_clone w0 w this :
  calm w0 w ->
  wp (MockFirestoreQuery.clone this) w (fun _ w' => calm w0 w') (calm w0).
Proof.
intros Hc. unfold MockFirestoreQuery.clone, MockFirestoreQuery._getData.
wp_go. eapply wp_mono; [apply (wp_calm_new w0); calm_tac | |];
  intros; wp_go; calm_tac.
Qed.

Lemma wp_calm_where w0 w this property operator value :
  calm w0 w ->
  wp (MockFirestoreQuery.where_ this property operator value) w
    (fun _ w' => calm w0 w') (calm w0).
Proof.
intros Hc. unfold MockFirestoreQuery.where_.
wp_go. eapply wp_mono; [apply (wp_calm_clone w0); calm_tac | |];
  intros; wp_go;
  try (eapply wp_mono; [apply (wp_calm_setData w0); calm_tac | |]; intros);
  wp_go; calm_tac.
Qed.

Lemma wp_calm_orderBy w0 w this property direction :
  calm w0 w ->
  wp (MockFirestoreQuery.orderBy this property direction) w
    (fun _ w' => calm w0 w') (calm w0).
Proof.
intros Hc. unfold MockFirestoreQuery.orderBy.
wp_go. eapply wp_mono; [apply (wp_calm_clone w0); calm_tac | |];
  intros; wp_go; calm_tac.
Qed.

Lemma wp_calm_limit w0 w this n :
  calm w0 w ->
  wp (MockFirestoreQuery.limit this n) w (fun _ w' => calm w0 w') (calm w0).
Proof.
intros Hc. unfold MockFirestoreQuery.limit.
wp_go. eapply wp_mono; [apply (wp_calm_clone w0); calm_tac | |];
  intros; wp_go; calm_tac.
Qed.

Lemma wp_calm_startAfter w0 w this doc :
  calm w0 w ->
  wp (MockFirestoreQuery.startAfter this doc) w
    (fun _ w' => calm w0 w') (calm w0).
Proof.
intros Hc. unfold MockFirestoreQuery.startAfter.
wp_go; try calm_tac.
eapply wp_mono; [apply (wp_calm_clone w0); calm_tac | |];
  intros; wp_go; calm_tac.
Qed.

Lemma wp_calm_results w0 w this :
  calm w0 w ->
  wp (MockFirestoreQuery._results this) w (fun _ w' => calm w0 w')
    (calm w0).
Proof. intros Hc. unfold MockFirestoreQuery._results. wp_go. calm_tac. Qed.

Lemma wp_calm_ref_of w0 w this :
  calm w0 w ->
  wp (MockFirestoreQuery.ref_of this) w (fun _ w' => calm w0 w') (calm w0).
Proof. intros Hc. unfold MockFirestoreQuery.ref_of. wp_go. calm_tac. Qed.

Lemma wp_calm_nextErr w0 w this type :
  calm w0 w ->
  wp (MockFirestoreQuery._nextErr this type) w (fun _ w' => calm w0 w')
    (calm w0).
Proof. intros Hc. unfold MockFirestoreQuery._nextErr. wp_go. calm_tac. Qed.

(** Evaluation and [ref_of] only read the store. *)
Lemma wp_results w this (Q : docs -> world -> Prop) E :
  (forall r, Q r w) -> wp (MockFirestoreQuery._results this) w Q E.
Proof. intros HQ. unfold MockFirestoreQuery._results. wp_go. apply HQ. Qed.

Lemma wp_ref_of w this (Q : reference -> world -> Prop) E :
  (forall r, Q r w) -> wp (MockFirestoreQuery.ref_of this) w Q E.
Proof. intros HQ. unfold MockFirestoreQuery.ref_of. wp_go. apply HQ. Qed.

Lemma wp_calm_autoFlush_rec w0 fuel d : forall this w,
  calm w0 w ->
  wp (MockFirestoreQuery.autoFlush_rec fuel this d) w
    (fun _ w' => calm w0 w') (calm w0).
Proof.
induction fuel as [|fuel IH]; intros this w Hc; simpl; [done|].
wp_go; [calm_tac|].
- assert (forall cs w1, calm w0 w1 ->
            wp ((fix each (cs : list (string * loc)) : M unit :=
                   match cs with
                   | [] => mret tt
                   | (_, child) :: cs' =>
                       MockFirestoreQuery.autoFlush_rec fuel child d;;
                       each cs'
                   end) cs) w1 (fun _ w' => calm w0 w') (calm w0)) as Heach.
  { induction cs as [|[k c] cs IHcs]; intros w1 Hw1; [done|].
    wp_go. eapply wp_mono; [by apply IH | |done].
    intros ? w2 Hw2. by apply IHcs. }
  eapply wp_mono; [apply Heach; calm_tac | |done].
  intros ? w1 Hw1. simpl. wp_go; [by apply IH | done].
Qed.
End Calm.

(** ** The invariant of a subscription *)

Section Subscription.
Context {L : Lodash}.
Variables (s q : loc) (imc : bool) (T0 : list observation) (r0 : docs).
Variable (F : Prop).

Lemma deliveries_cons (o : observation) (t : list observation) :
  deliveries s (o :: t) =
  match o with
  | OnNext s' snap =>
      if decide (s' = s) then snapshot_docs snap :: deliveries s t
      else deliveries s t
  | _ => deliveries s t
  end.
Proof.
unfold deliveries. simpl. destruct o as [s' snap| |]; try done.
by destruct (decide (s' = s)).
Qed.

Lemma deliveries_app (t1 t2 : list observation) :
  deliveries s (t1 ++ t2) = deliveries s t1 ++ deliveries s t2.
Proof. apply omap_app. Qed.

Lemma deliveries_none (ext : list observation) :
  (forall x, OnNext s x ∉ ext) -> deliveries s ext = [].
Proof.
induction ext as [|o ext IH]; intros Hno; [done|].
rewrite deliveries_cons.
rewrite IH by (intros x Hx; apply (Hno x); by right).
destruct o as [s' snap| |]; try done.
destruct (decide (s' = s)) as [->|]; [|done].
exfalso. apply (Hno snap). left.
Qed.

Lemma after_flush_ext (tail ext : list observation) :
  after_flush s q tail -> (forall x, OnNext s x ∉ ext) ->
  after_flush s q (tail ++ ext).
Proof.
intros Haf Hno t1 x t2 Heq.
apply app_eq_app in Heq as [l [[-> Hl]|[-> Hl]]].
- destruct l as [|o l]; simpl in Hl.
  + exfalso. apply (Hno x). rewrite <- Hl. left.
  + injection Hl as <- ->. by eapply Haf.
- exfalso. apply (Hno x). rewrite Hl.
  apply elem_of_app. right. left.
Qed.

Lemma after_flush_next (tail : list observation) x :
  after_flush s q tail -> Flushed q ∈ tail ->
  after_flush s q (tail ++ [OnNext s x]).
Proof.
intros Haf Hfl t1 y t2 Heq.
apply app_eq_app in Heq as [l [[-> Hl]|[-> Hl]]].
- destruct l as [|o l]; simpl in Hl.
  + by rewrite app_nil_r in Hfl.
  + injection Hl as <- Hl. by eapply Haf.
- destruct l as [|o l]; simpl in Hl.
  + by rewrite app_nil_r.
  + injection Hl as _ Hl. by destruct l.
Qed.

Lemma changes_snoc (l : list docs) (a b : docs) :
  changes imc l -> last l = Some a ->
  imc = true \/ isEqual (docs_value b) (docs_value a) = false ->
  changes imc (l ++ [b]).
Proof.
intros Hch Hlast Hab l1 x y l2 Heq.
destruct l2 as [|z l2 _] using rev_ind.
- replace (l1 ++ [x; y]) with ((l1 ++ [x]) ++ [y]) in Heq
    by (by rewrite <- app_assoc).
  apply app_inj_tail in Heq as [-> ->].
  rewrite last_snoc in Hlast. by injection Hlast as ->.
- replace (l1 ++ x :: y :: l2 ++ [z]) with ((l1 ++ x :: y :: l2) ++ [z])
    in Heq by (by rewrite <- app_assoc).
  apply app_inj_tail in Heq as [-> _]. by eapply Hch.
Qed.

Lemma flushed_mono w w' ext :
  trace w' = trace w ++ ext -> flushed q T0 w -> flushed q T0 w'.
Proof.
intros Ht (tail & Htail & Hin). exists (tail ++ ext). split.
- by rewrite Ht, Htail, app_assoc.
- apply elem_of_app. by left.
Qed.

(** The invariant goes over to a store in which the subscription was
    not served, given a flush behind whatever waits for it anew. *)
Lemma holds_transfer w w' ext :
  holds s q imc T0 r0 F w ->
  trace w' = trace w ++ ext ->
  (forall x, OnNext s x ∉ ext) ->
  subscriptions w' !! s = subscriptions w !! s ->
  (forall q' Q', queues w' !! q' = Some Q' -> s ∈ postFlush Q' ->
     exists Q, queues w !! q' = Some Q /\ s ∈ postFlush Q) ->
  (waiting s w' -> waiting s w \/ flushed q T0 w') ->
  holds s q imc T0 r0 F w'.
Proof.
intros [Hsub Hw] Ht Hno Hs Hq Hwait.
destruct Hsub as (tail & sub & Htail & Haf & Hch & Hsb & He & Hi & Hl & Hqs).
split.
- exists (tail ++ ext), sub. split; [by rewrite Ht, Htail, app_assoc|].
  split; [by apply after_flush_ext|].
  rewrite deliveries_app, (deliveries_none ext Hno), app_nil_r.
  split; [done|]. split; [by rewrite Hs|].
  split; [done|]. split; [done|]. split; [done|].
  intros q' Q' HQ' Hin. destruct (Hq q' Q' HQ' Hin) as (Q & HQ & HinQ).
  by eapply Hqs.
- intros [Hw'|HF].
  + destruct (Hwait Hw') as [Hold|Hnew]; [|done].
    eapply flushed_mono; [done|]. apply Hw. by left.
  + eapply flushed_mono; [done|]. apply Hw. by right.
Qed.

Lemma holds_calm w w' :
  calm w w' -> holds s q imc T0 r0 F w -> holds s q imc T0 r0 F w'.
Proof.
intros (HS & HP & HJ & HK & HT & k & Hk) Hh.
apply (holds_transfer w w' []); [done|by rewrite HT, app_nil_r| | | |].
- intros x Hx. by apply elem_of_nil in Hx.
- by rewrite HS.
- intros q' Q' HQ' Hin.
  assert ((postFlush <$> queues w') !! q' = Some (postFlush Q')) as Hl
    by (by rewrite list_lookup_fmap, HQ').
  rewrite Hk in Hl. apply lookup_app_Some in Hl as [Hl|[_ Hl]].
  + apply list_lookup_fmap_Some in Hl as (Q & HQ & Hl).
    exists Q. split; [done|]. by rewrite <- HQ.
  + apply lookup_replicate in Hl as [Hl _]. rewrite Hl in Hin.
    by apply elem_of_nil in Hin.
- intros Hw'. left. unfold waiting in *. by rewrite HP, HJ, HK in Hw'.
Qed.
End Subscription.

Section SubscriptionSteps.
Context {L : Lodash}.
Variables (s q : loc) (imc : bool) (T0 : list observation) (r0 : docs).
Variable (F : Prop).

Local Abbreviation inv := (holds s q imc T0 r0 F).

Lemma no_next_nil : forall x, OnNext s x ∉ ([] : list observation).
Proof. intros x Hx. by apply elem_of_nil in Hx. Qed.

Lemma holds_promise_new w :
  inv w -> inv (set_promises (fun P => P ++ [Promise Pending []]) w).
Proof.
intros Hh.
apply (holds_transfer s q imc T0 r0 F w _ []);
  [done | by rewrite app_nil_r | apply no_next_nil | done | eauto |].
intros [Hw|[(p & pr & Hp & Hin)|Hw]]; left.
- by left.
- right; left. simpl in Hp. apply lookup_app_Some in Hp as [Hp|[_ Hp]].
  + by exists p, pr.
  + apply list_lookup_singleton_Some in Hp as [_ <-].
    by apply elem_of_nil in Hin.
- by right; right.
Qed.

Lemma holds_stack w f :
  inv w ->
  (forall q' hs, PostFlush q' hs ∈ f (stack w) -> s ∈ hs ->
     waiting s w \/ flushed q T0 w) ->
  inv (set_stack f w).
Proof.
intros Hh Hf.
apply (holds_transfer s q imc T0 r0 F w _ []);
  [done | by rewrite app_nil_r | apply no_next_nil | done | eauto |].
intros [(q' & hs & Hin & Hs)|[Hw|Hw]].
- destruct (Hf q' hs Hin Hs) as [?|Hfl]; [by left|].
  right. by eapply flushed_mono; [|exact Hfl]; simpl; rewrite app_nil_r.
- left. by right; left.
- left. by right; right.
Qed.

Lemma holds_drain w q' :
  inv w -> inv (set_stack (fun st => Drain q' :: st) w).
Proof.
intros Hh. apply holds_stack; [done|].
intros q'' hs Hin Hs. left. left. exists q'', hs. split; [|done].
apply elem_of_cons in Hin as [Hin|Hin]; [done|done].
Qed.

Lemma holds_reactions w p pr pr' :
  inv w ->
  promises w !! p = Some pr ->
  (SnapshotReaction s ∈ reactions pr' ->
     SnapshotReaction s ∈ reactions pr \/ flushed q T0 w) ->
  inv (set_promises (fun P => <[p := pr']> P) w).
Proof.
intros Hh Hp Hr.
apply (holds_transfer s q imc T0 r0 F w _ []);
  [done | by rewrite app_nil_r | apply no_next_nil | done | eauto |].
intros [Hw|[(p' & pr'' & Hp' & Hin)|Hw]].
- left. by left.
- simpl in Hp'. destruct (decide (p' = p)) as [->|Hne].
  + rewrite list_lookup_insert_eq in Hp' by (by eapply lookup_lt_Some).
    injection Hp' as <-. destruct (Hr Hin) as [Hin'|Hfl].
    * left. right; left. by exists p, pr.
    * right. by eapply flushed_mono; [|exact Hfl]; simpl; rewrite app_nil_r.
  + rewrite list_lookup_insert_ne in Hp' by done.
    left. right; left. by exists p', pr''.
- left. by right; right.
Qed.

Lemma holds_jobs w f :
  inv w ->
  (forall snap, (SnapshotReaction s, snap) ∈ f (jobs w) ->
     waiting s w \/ flushed q T0 w) ->
  inv (set_jobs f w).
Proof.
intros Hh Hf.
apply (holds_transfer s q imc T0 r0 F w _ []);
  [done | by rewrite app_nil_r | apply no_next_nil | done | eauto |].
intros [Hw|[Hw|(snap & Hin)]].
- left. by left.
- left. by right; left.
- destruct (Hf snap Hin) as [?|Hfl]; [by left|].
  right. by eapply flushed_mono; [|exact Hfl]; simpl; rewrite app_nil_r.
Qed.

Lemma holds_observe w o :
  inv w -> (forall x, o <> OnNext s x) ->
  inv (set_trace (fun t => t ++ [o]) w).
Proof.
intros Hh Ho.
apply (holds_transfer s q imc T0 r0 F w _ [o]); [done | done | | done | eauto |].
- intros x Hx. apply list_elem_of_singleton in Hx. by eapply Ho.
- intros Hw. by left.
Qed.

Lemma holds_lookup w :
  inv w -> exists sub, subscriptions w !! s = Some sub /\ sub_err sub = None.
Proof. intros [(tail & sub & _ & _ & _ & Hs & He & _) _]. by exists sub. Qed.

Lemma holds_sub_alloc w sub :
  inv w -> inv (set_subscriptions (fun S => S ++ [sub]) w).
Proof.
intros Hh. destruct (holds_lookup w Hh) as (sub0 & Hs & _).
apply (holds_transfer s q imc T0 r0 F w _ []);
  [done | by rewrite app_nil_r | apply no_next_nil | | eauto | by left].
simpl. rewrite Hs. by apply lookup_app_l_Some.
Qed.

Lemma holds_sub_update w s' sub :
  inv w -> s' <> s ->
  inv (set_subscriptions (fun S => <[s' := sub]> S) w).
Proof.
intros Hh Hne.
apply (holds_transfer s q imc T0 r0 F w _ []);
  [done | by rewrite app_nil_r | apply no_next_nil | | eauto | by left].
simpl. by apply list_lookup_insert_ne.
Qed.

Lemma holds_queues w q' Q Q' :
  inv w -> queues w !! q' = Some Q ->
  (s ∈ postFlush Q' -> s ∈ postFlush Q) ->
  inv (set_queues (fun qs => <[q' := Q']> qs) w).
Proof.
intros Hh HQ Hin.
apply (holds_transfer s q imc T0 r0 F w _ []);
  [done | by rewrite app_nil_r | apply no_next_nil | done | | by left].
intros q'' Q'' HQ'' Hs. simpl in HQ''.
destruct (decide (q'' = q')) as [->|Hne].
- rewrite list_lookup_insert_eq in HQ'' by (by eapply lookup_lt_Some).
  injection HQ'' as <-. exists Q. auto.
- rewrite list_lookup_insert_ne in HQ'' by done. by exists Q''.
Qed.

(** The subscription is served: the result set differs from the one
    delivered last, or metadata changes are asked for, and a flush is
    behind. *)
Lemma holds_deliver w sub ref results :
  inv w -> flushed q T0 w ->
  subscriptions w !! s = Some sub ->
  imc = true \/
  isEqual (docs_value results) (docs_value (context_data sub)) = false ->
  inv (set_subscriptions (fun S => <[s := with_context_data results sub]> S)
         (set_trace
            (fun t => t ++ [OnNext s (QuerySnapshot ref (Some results)
                                        (Some (context_data sub)))]) w)).
Proof.
intros [Hsub Hw] Hfl Hs Hne.
destruct Hsub as (tail & sub' & Htail & Haf & Hch & Hsb & He & Hi & Hl & Hqs).
rewrite Hs in Hsb. injection Hsb as <-.
destruct Hfl as (tail' & Htail' & Hin).
rewrite Htail in Htail'. apply app_inv_head in Htail' as <-.
split.
- eexists (tail ++ [_]), _. split; [simpl; by rewrite Htail, app_assoc|].
  split; [by apply after_flush_next|].
  rewrite deliveries_app. rewrite (deliveries_cons _ _ []).
  rewrite decide_True by done.
  change (deliveries s []) with (@nil docs). simpl snapshot_docs.
  split.
  { change (r0 :: deliveries s tail ++ [results])
      with ((r0 :: deliveries s tail) ++ [results]).
    by eapply changes_snoc. }
  split.
  { simpl. apply list_lookup_insert_eq. by eapply lookup_lt_Some. }
  split; [done|]. split; [done|]. split; [|done].
  change (r0 :: deliveries s tail ++ [results])
    with ((r0 :: deliveries s tail) ++ [results]).
  by rewrite last_snoc.
- intros _. exists (tail ++ [OnNext s (QuerySnapshot ref (Some results)
                                        (Some (context_data sub)))]).
  split; [simpl; by rewrite Htail, app_assoc|].
  apply elem_of_app. by left.
Qed.
End SubscriptionSteps.

Section SubscriptionCalls.
Context {L : Lodash}.
Variables (s q : loc) (imc : bool) (T0 : list observation) (r0 : docs).

Lemma holds_flag (F F' : Prop) w :
  holds s q imc T0 r0 F w ->
  (F' -> waiting s w \/ F) ->
  holds s q imc T0 r0 F' w.
Proof.
intros [Hsub Hw] HF. split; [done|].
intros [?|HF']; [apply Hw; by left|]. apply Hw. by apply HF.
Qed.

Lemma holds_flushed (F : Prop) w :
  holds s q imc T0 r0 F w -> F -> flushed q T0 w.
Proof. intros [_ Hw] HF. apply Hw. by right. Qed.

Section WithFlag.
Variable (F : Prop).

Local Abbreviation inv := (holds s q imc T0 r0 F).

(** A computation that is calm keeps the invariant. *)
Lemma wp_inv_calm {A : Type} (m : M A) w :
  inv w ->
  wp m w (fun _ w' => calm w w') (calm w) ->
  wp m w (fun _ w' => inv w') inv.
Proof.
intros Hh Hc. eapply wp_mono; [exact Hc| |].
- intros ? w' Hc'. exact (holds_calm s q imc T0 r0 F w w' Hc' Hh).
- intros w' Hc'. exact (holds_calm s q imc T0 r0 F w w' Hc' Hh).
Qed.

Lemma wp_inv_queue_flush w q' d :
  inv w -> wp (Queue.flush q' d) w (fun _ w' => inv w') inv.
Proof.
intros Hh. unfold Queue.flush. destruct d as [[| |ms]|]; wp_go;
  try (by apply holds_drain).
eapply holds_calm; [|done]. apply calm_set_timers, calm_refl.
Qed.

Lemma wp_inv_flush w this d :
  inv w -> wp (MockFirestoreQuery.flush this d) w (fun _ w' => inv w') inv.
Proof.
intros Hh. unfold MockFirestoreQuery.flush. wp_go.
eapply wp_mono; [by apply wp_inv_queue_flush| |done].
intros ? w' Hw'. by wp_go.
Qed.

Lemma wp_inv_get w this :
  inv w -> wp (MockFirestoreQuery.get this) w (fun _ w' => inv w') inv.
Proof.
intros Hh. unfold MockFirestoreQuery.get. wp_go.
eapply wp_mono;
  [apply wp_inv_calm; [done | apply wp_calm_nextErr, calm_refl] | |done].
intros err w1 Hw1. unfold Promise.new. wp_go.
unfold MockFirestoreQuery._defer, Queue.push. wp_go.
- eapply holds_queues; [by apply holds_promise_new | eassumption | done].
- eapply wp_mono; [apply wp_inv_flush | |done].
  + eapply holds_queues; [by apply holds_promise_new | eassumption | done].
  + intros ? w2 Hw2. by wp_go.
Qed.

Lemma wp_inv_then w p s' :
  inv w -> (s' = s -> F) ->
  wp (Promise.then_ p (SnapshotReaction s')) w (fun _ w' => inv w') inv.
Proof.
intros Hh HF. unfold Promise.then_. wp_go; [| |done].
- eapply holds_reactions; [done | eassumption |].
  simpl. intros Hin. apply elem_of_app in Hin as [Hin|Hin]; [by left|].
  apply list_elem_of_singleton in Hin. injection Hin as <-.
  right. eapply holds_flushed; [done | by apply HF].
- apply holds_jobs; [done|].
  intros snap Hin. apply elem_of_app in Hin as [Hin|Hin].
  + left. right; right. by exists snap.
  + apply list_elem_of_singleton in Hin. injection Hin as <- _.
    right. eapply holds_flushed; [done | by apply HF].
Qed.

Lemma wp_inv_resolve w p snap :
  inv w -> wp (Promise.resolve p snap) w (fun _ w' => inv w') inv.
Proof.
intros Hh. unfold Promise.resolve. wp_go; [|done..].
assert (SnapshotReaction s ∈ reactions a -> flushed q T0 w) as Hfl.
{ intros Hin. destruct Hh as [_ Hw]. apply Hw. left. right; left.
  by exists p, a. }
apply holds_jobs.
- eapply holds_reactions; [done | eassumption |].
  simpl. intros Hin. by apply elem_of_nil in Hin.
- intros snap' Hin. simpl in Hin.
  apply elem_of_app in Hin as [Hin|Hin].
  + left. right; right. by exists snap'.
  + apply list_elem_of_fmap in Hin as (r & Hr & Hin).
    injection Hr as <- _. right.
    destruct (Hfl Hin) as (tail & Ht & Hf). by exists tail.
Qed.

Lemma wp_inv_reject w p e :
  inv w -> wp (Promise.reject p e) w (fun _ w' => inv w') inv.
Proof.
intros Hh. unfold Promise.reject. wp_go; [|done..].
eapply holds_reactions; [done | eassumption |].
simpl. intros Hin. by apply elem_of_nil in Hin.
Qed.

Lemma wp_inv_run w callback :
  inv w -> wp (MockFirestoreQuery.run callback) w (fun _ w' => inv w') inv.
Proof.
intros Hh. destruct callback as [self err p]. simpl.
wp_go. apply wp_results. intros r.
destruct err as [e|]; [by apply wp_inv_reject|].
wp_go. apply wp_ref_of. intros ref.
wp_go; by apply wp_inv_resolve.
Qed.

(** The function of a subscription is called: for [s] itself only
    after a flush, and for the first time only when it is another. *)
Lemma wp_inv_call w s' initialCall :
  inv w ->
  (initialCall = true -> s' <> s) ->
  (initialCall = false -> s' = s -> F) ->
  wp (MockFirestoreQuery.onSnapshot_call s' initialCall) w
    (fun _ w' => inv w') inv.
Proof.
intros Hh Hi Hn. unfold MockFirestoreQuery.onSnapshot_call. wp_go.
- apply holds_observe; [done|]. by intros x.
- apply wp_results. intros r. wp_go.
  apply wp_ref_of. intros ref.
  wp_go; (apply holds_observe; [done|]); intros x [= -> _]; by apply Hi.
- eapply wp_mono; [by apply wp_inv_get | |done].
  intros p w1 Hw1. apply wp_inv_then; [done|]. by apply Hn.
Qed.
End WithFlag.
End SubscriptionCalls.

Section SubscriptionLoop.
Context {L : Lodash}.
Variables (s q : loc) (imc : bool) (T0 : list observation) (r0 : docs).

Lemma wp_inv_react (F : Prop) w s' snap :
  holds s q imc T0 r0 F w -> (s' = s -> F) ->
  wp (MockFirestoreQuery.react (SnapshotReaction s') snap) w
    (fun _ w' => holds s q imc T0 r0 F w') (holds s q imc T0 r0 F).
Proof.
intros Hh HF. unfold MockFirestoreQuery.react. wp_go.
apply wp_results. intros results. wp_go; [|done].
apply wp_ref_of. intros ref. wp_go.
simpl in *. assert (a0 = a) as -> by congruence.
destruct (decide (s' = s)) as [->|Hne].
- destruct Hh as [Hsub Hw].
  pose proof Hsub as (tail & sub & _ & _ & _ & Hs & _ & Hi & _).
  assert (sub = a) as -> by congruence.
  apply holds_deliver; [done | by apply Hw; right; apply HF | done |].
  rewrite Hi in *. destruct imc; [by left|right].
  rewrite orb_false_r in *. by apply negb_true_iff.
- apply holds_sub_update; [|done].
  apply holds_observe; [done|]. intros x [= -> _]. done.
Qed.

Lemma wp_inv_subscribe (F : Prop) w this imc' :
  holds s q imc T0 r0 F w ->
  wp (MockFirestoreQuery.onSnapshot this imc') w
    (fun _ w' => holds s q imc T0 r0 F w') (holds s q imc T0 r0 F).
Proof.
intros Hh. unfold MockFirestoreQuery.onSnapshot. wp_go.
eapply wp_mono;
  [apply wp_inv_calm; [exact Hh | apply wp_calm_nextErr, calm_refl] | |done].
intros err w1 Hw1. wp_go. apply wp_results. intros context. wp_go.
destruct (holds_lookup s q imc T0 r0 F w1 Hw1) as (sub & Hs & _).
assert (length (subscriptions w1) <> s) as Hne.
{ apply lookup_lt_Some in Hs. lia. }
eapply wp_mono;
  [apply (wp_inv_call s q imc T0 r0 F);
     [by apply holds_sub_alloc | by intros _ | done]
  | |done].
intros ? w2 Hw2. wp_go. unfold Queue.onPostFlush. wp_go.
eapply holds_queues; [done | eassumption |].
simpl. intros Hin. apply elem_of_app in Hin as [Hin|Hin]; [done|].
by apply list_elem_of_singleton in Hin.
Qed.

Lemma wp_inv_unsubscribe (F : Prop) w s' :
  holds s q imc T0 r0 F w ->
  wp (MockFirestoreQuery.unsubscribe s') w
    (fun _ w' => holds s q imc T0 r0 F w') (holds s q imc T0 r0 F).
Proof.
intros Hh. unfold MockFirestoreQuery.unsubscribe, Queue.unsubscribe. wp_go.
eapply holds_queues; [done | eassumption |].
simpl. intros Hin. by apply list_elem_of_filter in Hin as [_ Hin].
Qed.

Local Abbreviation inv := (holds s q imc T0 r0 False).

Lemma wp_inv_tau w : inv w -> wp tau w (fun _ w' => inv w') inv.
Proof.
intros Hh. unfold tau. apply wp_bind, wp_read. cbv beta.
destruct (stack w) as [|[q'|q' [|s' hs]] st'] eqn:Hst.
- apply wp_fault.
- apply wp_bind, wp_deref. intros Q HQ. cbv beta.
  destruct (events Q) as [|e es] eqn:He.
  + (* the queue is drained *)
    wp_go.
    apply holds_stack; [apply holds_observe; [done | by intros x]|].
    intros q'' hs Hin Hs. simpl in Hin.
    apply elem_of_cons in Hin as [[= -> ->]|Hin].
    * right. destruct Hh as [Hsub Hw].
      destruct Hsub as (tail & sub & Ht & _ & _ & _ & _ & _ & _ & Hq).
      assert (q' = q) as -> by (by eapply Hq).
      exists (tail ++ [Flushed q]). split.
      -- simpl. by rewrite Ht, app_assoc.
      -- apply elem_of_app. right. left.
    * left. left. exists q'', hs. split; [|done].
      simpl. rewrite Hst. by right.
  + (* the queue runs its first event *)
    wp_go. apply wp_inv_run.
    eapply holds_queues; [done | eassumption | done].
- (* no callback is left *)
  wp_go. apply holds_stack; [done|].
  intros q'' hs Hin Hs. left. left. exists q'', hs. split; [|done].
  rewrite Hst. by right.
- (* the next callback is called *)
  wp_go.
  assert (holds s q imc T0 r0 (s' = s) w) as Hh'.
  { eapply holds_flag; [exact Hh|]. intros ->. left. left.
    exists q', (s :: hs). split; [rewrite Hst|]; left. }
  eapply wp_mono; [apply (wp_inv_call s q imc T0 r0 (s' = s)) | |].
  + apply holds_stack; [done|].
    intros q'' hs' Hin Hs. simpl in Hin.
    apply elem_of_cons in Hin as [[= -> ->]|Hin].
    * left. left. exists q', (s' :: hs). split; [rewrite Hst; left|].
      by right.
    * left. left. exists q'', hs'. split; [|done]. rewrite Hst. by right.
  + done.
  + done.
  + intros ? w' Hw'. eapply holds_flag; [exact Hw'|]. done.
  + intros w' Hw'. eapply holds_flag; [exact Hw'|]. done.
Qed.

Lemma wp_inv_job w : inv w -> wp job w (fun _ w' => inv w') inv.
Proof.
intros Hh. unfold job. apply wp_bind, wp_read. cbv beta.
destruct (jobs w) as [|[[s'] snap0] js'] eqn:Hjs; [apply wp_fault|].
wp_go.
assert (holds s q imc T0 r0 (s' = s) w) as Hh'.
{ eapply holds_flag; [exact Hh|]. intros ->. left. right; right.
  exists snap0. rewrite Hjs. left. }
eapply wp_mono; [apply (wp_inv_react (s' = s)) | |].
- apply holds_jobs; [done|].
  intros snap Hin. left. right; right. exists snap. rewrite Hjs. by right.
- done.
- intros ? w' Hw'. eapply holds_flag; [exact Hw'|]. done.
- intros w' Hw'. eapply holds_flag; [exact Hw'|]. done.
Qed.

Lemma wp_inv_timer w i : inv w -> wp (timer i) w (fun _ w' => inv w') inv.
Proof.
intros Hh. unfold timer. wp_go; try done.
apply holds_drain. eapply holds_calm; [|done].
apply calm_set_timers, calm_refl.
Qed.

Lemma wp_inv_label w l : inv w -> wp (call l) w (fun _ w' => inv w') inv.
Proof.
intros Hh. destruct l; simpl.
- by apply wp_inv_tau.
- by apply wp_inv_job.
- by apply wp_inv_timer.
- wp_go. eapply wp_mono;
    [apply wp_inv_calm; [exact Hh | apply wp_calm_new, calm_refl] | |done].
  by intros ? w' Hw'.
- wp_go. eapply wp_mono;
    [apply wp_inv_calm; [exact Hh | apply wp_calm_clone, calm_refl] | |done].
  by intros ? w' Hw'.
- wp_go. eapply wp_mono;
    [apply wp_inv_calm; [exact Hh | apply wp_calm_where, calm_refl] | |done].
  by intros ? w' Hw'.
- wp_go. eapply wp_mono;
    [apply wp_inv_calm; [exact Hh | apply wp_calm_orderBy, calm_refl] | |done].
  by intros ? w' Hw'.
- wp_go. eapply wp_mono;
    [apply wp_inv_calm; [exact Hh | apply wp_calm_limit, calm_refl] | |done].
  by intros ? w' Hw'.
- wp_go. eapply wp_mono;
    [apply wp_inv_calm; [exact Hh | apply wp_calm_startAfter, calm_refl]
    | |done].
  by intros ? w' Hw'.
- wp_go. eapply wp_mono; [by apply wp_inv_get | |done].
  by intros ? w' Hw'.
- wp_go. eapply wp_mono; [by apply wp_inv_subscribe | |done].
  by intros ? w' Hw'.
- by apply wp_inv_unsubscribe.
- wp_go. eapply wp_mono; [by apply wp_inv_flush | |done].
  by intros ? w' Hw'.
- unfold MockFirestoreQuery.autoFlush. wp_go.
  eapply wp_mono;
    [apply wp_inv_calm; [exact Hh | apply wp_calm_autoFlush_rec, calm_refl]
    | |done].
  intros ? w' Hw'. by wp_go.
- apply wp_inv_calm; [done|]. apply wp_calm_setData, calm_refl.
- wp_go. eapply holds_calm; [|done]. apply calm_set_queries, calm_refl.
Qed.

Lemma step_holds w l w' : inv w -> step l w = Some w' -> inv w'.
Proof.
intros Hh Hstep. pose proof (wp_inv_label w l Hh) as Hwp.
unfold step in Hstep. unfold wp in Hwp.
destruct (match l with Tau => true | _ => _ end); [|done].
destruct (call l w); by simplify_eq.
Qed.

Lemma exec_holds ls : forall w w',
  inv w -> exec ls w = Some w' -> inv w'.
Proof.
induction ls as [|l ls IH]; intros w w' Hh Hex; simpl in Hex.
- by simplify_eq.
- destruct (step l w) as [w1|] eqn:Hs; [|done].
  eapply IH; [|done]. by eapply step_holds.
Qed.
End SubscriptionLoop.

(** ** Live subscriptions *)

Section Subscribe.
Context {L : Lodash}.

Lemma onSnapshot_eq w this t ps ds pt Q imc :
  instance w this t ps ds pt ->
  queues w !! queue t = Some Q ->
  errs t !! "onSnapshot" = None ->
  let s := length (subscriptions w) in
  let r0 := results_of (data t) ps ds (limited t) (buildStartFinder t) in
  MockFirestoreQuery.onSnapshot this imc w =
  Ret s
    (World (<[this := with_errs (delete "onSnapshot") t]> (queries w))
       (propertyArrays w) (directionArrays w)
       (<[queue t := with_postFlush (fun hs => hs ++ [s]) Q]> (queues w))
       (promises w)
       (subscriptions w ++ [Subscription this None imc r0])
       (stack w) (jobs w) (timers w) (console w)
       (trace w ++ [OnNext s (first_snapshot this t r0)])).
Proof.
intros [Hq Hp Hd Hpt] HQ He s r0.
assert (this < length (queries w)) as Hlt by (by eapply lookup_lt_Some).
unfold MockFirestoreQuery.onSnapshot, MockFirestoreQuery.onSnapshot_call,
  MockFirestoreQuery._nextErr, MockFirestoreQuery._results,
  MockFirestoreQuery.ref_of, Queue.onPostFlush, first_snapshot.
run_M. destruct (size_of (data t) =? 0)%nat; run_M; same_world.
Qed.

Lemma first_snapshot_docs this t ps ds :
  snapshot_docs
    (first_snapshot this t
       (results_of (data t) ps ds (limited t) (buildStartFinder t))) =
  results_of (data t) ps ds (limited t) (buildStartFinder t).
Proof.
unfold first_snapshot.
destruct (size_of (data t) =? 0)%nat eqn:Hsz; [|done].
simpl. unfold results_of. destruct (data t) as [d|]; [|done].
simpl in Hsz. by rewrite Hsz.
Qed.
End Subscribe.

(** C5, amended: a subscription made while no error is injected for
    'onSnapshot' calls [onNext] once within the call of [onSnapshot],
    with the current evaluation.  Whatever happens afterwards, every
    later call of [onNext] for it comes after a flush of the queue that
    followed the subscription, and carries a result set that is not
    deeply equal to the one delivered just before, unless
    [includeMetadataChanges] is set. *)
Theorem onSnapshot_deliveries {L : Lodash} (w : world) (this : loc)
  (t : query) (ps : list property) (ds : list string) (pt : option query)
  (Q : Queue) (imc : bool) :
  stack w = [] ->
  instance w this t ps ds pt ->
  queues w !! queue t = Some Q ->
  errs t !! "onSnapshot" = None ->
  fresh_subscriptions w ->
  let s := length (subscriptions w) in
  let r0 := results_of (data t) ps ds (limited t) (buildStartFinder t) in
  exists (w1 : world) (snap : snapshot),
    step (OnSnapshot this imc) w = Some w1 /\
    trace w1 = trace w ++ [OnNext s snap] /\
    snapshot_docs snap = r0 /\
    forall (ls : list label) (w2 : world),
      exec ls w1 = Some w2 ->
      exists (tail : list observation),
        trace w2 = trace w1 ++ tail /\
        after_flush s (queue t) tail /\
        changes imc (r0 :: deliveries s tail).
Proof.
intros Hst Hi HQ He Hfresh s r0.
pose proof (onSnapshot_eq w this t ps ds pt Q imc Hi HQ He) as Heq.
cbv zeta in Heq. fold s r0 in Heq.
set (w1 := World _ _ _ _ _ _ _ _ _ _ _) in Heq.
exists w1, (first_snapshot this t r0).
split.
{ rewrite (step_idle _ _ Hst). cbn [call].
  by rewrite (bind_Ret _ _ _ _ _ Heq). }
split; [done|]. split; [apply first_snapshot_docs|].
assert (holds s (queue t) imc (trace w1) r0 False w1) as Hh.
{ destruct (Hfresh s (le_n _)) as [Hnw Hnq]. split.
  - exists [], (Subscription this None imc r0).
    split; [by rewrite app_nil_r|].
    split; [intros t1 x t2 Heq'; by destruct t1|].
    split; [intros l1 a b l2 Heq'; by destruct l1 as [|? [|? ?]]|].
    split; [apply lookup_snoc|]. split; [done|]. split; [done|].
    split; [done|].
    intros q' Q' HQ' Hin. simpl in HQ'.
    destruct (decide (q' = queue t)) as [|Hne]; [done|].
    rewrite list_lookup_insert_ne in HQ' by done.
    by destruct (Hnq q' Q' HQ').
  - intros [Hw|[]]. exfalso. apply Hnw.
    destruct Hw as [Hw|[Hw|Hw]]; [by left | by right; left | by right; right].
}
intros ls w2 Hex.
destruct (exec_holds s (queue t) imc (trace w1) r0 ls w1 w2 Hh Hex)
  as [(tail & sub & Ht & Haf & Hch & _) _].
by exists tail.
Qed.

Lemma onSnapshot_deliveries_witness :
  stack example_world = [] /\
  instance example_world 0 example_query [] [] None /\
  queues example_world !! queue example_query = Some (MkQueue [] []) /\
  errs example_query !! "onSnapshot" = None /\
  fresh_subscriptions example_world /\
  exists (w1 : world),
    @step plain_lodash (OnSnapshot 0 false) example_world = Some w1 /\
    trace w1 =
      [OnNext 0 (QuerySnapshot (Self 0) (Some example_data) (Some []))].
Proof.
assert (fresh_subscriptions example_world) as Hfresh.
{ intros s _. split.
  - intros [(q & hs & Hin & _)|[(p & pr & Hp & _)|(snap & Hin)]].
    + by apply elem_of_nil in Hin.
    + done.
    + by apply elem_of_nil in Hin.
  - intros [|q] Q HQ; vm_compute in HQ; [|discriminate].
    injection HQ as <-. apply not_elem_of_nil. }
split; [reflexivity|]. split; [exact example_instance|].
split; [reflexivity|]. split; [reflexivity|]. split; [exact Hfresh|].
destruct (@onSnapshot_deliveries plain_lodash example_world 0 example_query
            [] [] None (MkQueue [] []) false eq_refl example_instance
            eq_refl eq_refl Hfresh)
  as (w1 & snap & Hstep & Htrace & Hdocs & _).
exists w1. split; [exact Hstep|].
vm_compute in Hstep. injection Hstep as <-. reflexivity.
Defined.

(** C5 as stated does not hold of every subscription: with an error
    injected for 'onSnapshot', [onNext] is not called when the
    subscription is made; [onError] is. *)
Lemma onSnapshot_initial_counterexample :
  trace <$>
    @exec plain_lodash
      [SetErr 0 "onSnapshot" (Error "boom"); OnSnapshot 0 false]
      example_world =
  Some [OnError 0 (Error "boom")] /\
  deliveries 0 [OnError 0 (Error "boom")] = [].
Proof. split; vm_compute; reflexivity. Qed.

(** ** Propagation of the auto-flush flag *)

Section AutoFlush.
Variable (d : delay).

Lemma flagged_refl qs : flagged d qs qs.
Proof. induction qs; constructor; auto. Qed.

Lemma flagged_trans qs1 qs2 qs3 :
  flagged d qs1 qs2 -> flagged d qs2 qs3 -> flagged d qs1 qs3.
Proof.
intros H12 H23. eapply Forall2_trans; [|exact H12|exact H23].
intros t1 t2 t3 [->| ->] [->| ->]; auto.
Qed.

Lemma flagged_length qs qs' : flagged d qs qs' -> length qs' = length qs.
Proof. intros H. symmetry. by eapply Forall2_length. Qed.

Lemma flagged_lookup qs qs' l t :
  flagged d qs qs' -> qs !! l = Some t ->
  exists t', qs' !! l = Some t' /\ (t' = t \/ t' = with_flushDelay d t).
Proof. intros H Hl. by eapply Forall2_lookup_l in H. Qed.

Lemma flagged_flag qs qs' x :
  flagged d qs qs' -> flag_is d qs x -> flag_is d qs' x.
Proof.
intros H (t & Ht & Hf).
destruct (flagged_lookup _ _ _ _ H Ht) as (t' & Ht' & Hor).
exists t'. split; [done|]. by destruct Hor as [->| ->].
Qed.

Lemma flagged_closed qs qs' : flagged d qs qs' -> closed qs -> closed qs'.
Proof.
intros H Hc l t' Hl.
rewrite (flagged_length _ _ H).
destruct (Forall2_lookup_r _ _ _ _ _ H Hl) as (t & Ht & Hor).
destruct (Hc l t Ht) as [Hch Hpa].
by destruct Hor as [->| ->].
Qed.

Lemma flagged_region P qs qs' :
  flagged d qs qs' -> region P qs -> region P qs'.
Proof.
intros H Hc l t' HP Hl.
destruct (Forall2_lookup_r _ _ _ _ _ H Hl) as (t & Ht & Hor).
destruct (Hc l t HP Ht) as [Hch Hpa].
by destruct Hor as [->| ->].
Qed.

Lemma kept_refl P qs : kept P qs qs.
Proof. by intros l _. Qed.

Lemma kept_trans P qs1 qs2 qs3 :
  kept P qs1 qs2 -> kept P qs2 qs3 -> kept P qs1 qs3.
Proof. intros H12 H23 l Hl. by rewrite (H23 l Hl), (H12 l Hl). Qed.

Lemma kept_insert (P : loc -> Prop) qs l t :
  P l -> kept P qs (<[l := t]> qs).
Proof.
intros HP l' Hl'. apply list_lookup_insert_ne. by intros ->.
Qed.

Lemma pending_le qs : pending d qs <= length qs.
Proof. apply length_filter. Qed.

Lemma flagged_pending qs qs' :
  flagged d qs qs' -> pending d qs' <= pending d qs.
Proof.
unfold pending. induction 1 as [|t t' qs qs' Hor _ IH]; [done|].
rewrite !filter_cons.
destruct Hor as [->| ->].
- destruct (decide (flushDelay t <> d)); simpl; lia.
- rewrite decide_False by (simpl; intros Hne; by apply Hne).
  destruct (decide (flushDelay t <> d)); simpl; lia.
Qed.

Lemma flagged_insert qs l t :
  qs !! l = Some t -> flagged d qs (<[l := with_flushDelay d t]> qs).
Proof.
intros Hl. rewrite <- (list_insert_id qs l t Hl) at 1.
apply Forall2_insert; [apply flagged_refl | by right].
Qed.

Lemma pending_insert qs l t :
  qs !! l = Some t -> flushDelay t <> d ->
  pending d (<[l := with_flushDelay d t]> qs) < pending d qs.
Proof.
revert l. induction qs as [|t0 qs IH]; intros l Hl Hne; [done|].
unfold pending in *. destruct l as [|l]; simpl in *.
- simplify_eq. rewrite !filter_cons.
  rewrite decide_False by (simpl; intros H; by apply H).
  rewrite decide_True by done. simpl. lia.
- rewrite !filter_cons. specialize (IH l Hl Hne).
  destruct (decide (flushDelay t0 <> d)); simpl; lia.
Qed.
End AutoFlush.

Section AutoFlushTotal.
Variable (d : delay).

Lemma update_Some {A : Type} (store : world -> list A) set (l : loc)
  (f : A -> A) (a : A) (w : world) :
  store w !! l = Some a ->
  update store set l f w = Ret tt (set (fun s => <[l := f a]> s) w).
Proof. unfold update. by intros ->. Qed.

Lemma set_queries_id w : set_queries (fun _ => queries w) w = w.
Proof. by destruct w. Qed.

(** With fuel above the number of instances that do not hold the flag,
    [autoFlush] returns: it only sets flags to [d], the receiver holds
    [d] afterwards, and when it did not before, so do its children and
    its parent. *)
Lemma autoFlush_rec_total (P : loc -> Prop) fuel : forall (this : nat) w,
  closed (queries w) ->
  region P (queries w) ->
  P this ->
  this < length (queries w) ->
  pending d (queries w) < fuel ->
  exists qs',
    MockFirestoreQuery.autoFlush_rec fuel this d w =
      Ret tt (set_queries (fun _ => qs') w) /\
    flagged d (queries w) qs' /\
    kept P (queries w) qs' /\
    flag_is d qs' this /\
    (forall t, queries w !! this = Some t -> flushDelay t <> d ->
       (forall k c, (k, c) ∈ children t -> flag_is d qs' c) /\
       (forall p, parent t = Some p -> flag_is d qs' p)).
Proof.
induction fuel as [|fuel IH]; intros this w Hcl Hrg HP Hlt Hpen; [lia|].
destruct (lookup_lt_is_Some_2 _ _ Hlt) as [t Ht].
cbn [MockFirestoreQuery.autoFlush_rec].
rewrite (bind_Ret _ _ _ _ _ (deref_Some queries this t w Ht)).
destruct (decide (flushDelay t = d)) as [Hfd|Hfd].
{ exists (queries w). rewrite set_queries_id. split; [done|].
  split; [apply flagged_refl|]. split; [apply kept_refl|].
  split; [by exists t|].
  intros t' Ht' Hne. pose proof (eq_trans (eq_sym Ht) Ht') as [= <-].
  done. }
set (qs1 := <[this := with_flushDelay d t]> (queries w)).
assert (update queries set_queries this (with_flushDelay d) w =
        Ret tt (set_queries (fun _ => qs1) w)) as Hup.
{ exact (update_Some queries set_queries this (with_flushDelay d) t w Ht). }
rewrite (bind_Ret _ _ _ _ _ Hup).
assert (flagged d (queries w) qs1) as Hf1 by (by apply flagged_insert).
assert (kept P (queries w) qs1) as Hk1 by (by apply kept_insert).
destruct (Hrg this t HP Ht) as [HPch HPpa].
assert (pending d qs1 < fuel) as Hp1.
{ pose proof (pending_insert d (queries w) this t Ht Hfd). unfold qs1. lia. }
assert (length qs1 = length (queries w)) as Hl1 by apply length_insert.
destruct (Hcl this t Ht) as [Hch Hpa].
assert (forall cs qs,
          flagged d qs1 qs ->
          (forall k c, (k, c) ∈ cs -> P c /\ c < length qs1) ->
          exists qs',
            (fix each (cs : list (string * loc)) : M unit :=
               match cs with
               | [] => mret tt
               | (_, child) :: cs' =>
                   MockFirestoreQuery.autoFlush_rec fuel child d;; each cs'
               end) cs (set_queries (fun _ => qs) w) =
              Ret tt (set_queries (fun _ => qs') w) /\
            flagged d qs qs' /\ kept P qs qs' /\
            (forall k c, (k, c) ∈ cs -> flag_is d qs' c)) as Heach.
{ induction cs as [|[k c] cs IHcs]; intros qs Hfq Hcs.
  - exists qs. split; [done|]. split; [apply flagged_refl|].
    split; [apply kept_refl|].
    intros k c Hin. by apply elem_of_nil in Hin.
  - destruct (IH c (set_queries (fun _ => qs) w))
      as (qs2 & Hrun & Hf2 & Hk2 & Hc2 & _).
    + simpl. eapply flagged_closed; [|exact Hcl].
      by eapply flagged_trans.
    + simpl. eapply flagged_region; [|exact Hrg].
      by eapply flagged_trans.
    + apply (Hcs k). left.
    + simpl. rewrite (flagged_length _ _ _ Hfq). apply (Hcs k). left.
    + simpl. pose proof (flagged_pending _ _ _ Hfq). lia.
    + simpl in Hf2, Hk2.
      destruct (IHcs qs2) as (qs3 & Hrun3 & Hf3 & Hk3 & Hc3).
      * by eapply flagged_trans.
      * intros k' c' Hin. apply (Hcs k'). by right.
      * exists qs3. split; [|split; [|split]].
        -- rewrite (bind_Ret _ _ _ _ _ Hrun). exact Hrun3.
        -- by eapply flagged_trans.
        -- by eapply kept_trans.
        -- intros k' c' Hin. apply elem_of_cons in Hin as [[= -> ->]|Hin].
           ++ by eapply flagged_flag.
           ++ by eapply Hc3. }
destruct (Heach (children t) qs1 (flagged_refl d qs1))
  as (qs2 & Hrun2 & Hf2 & Hk2 & Hc2).
{ intros k c Hin. rewrite Hl1. split; [by eapply HPch | by eapply Hch]. }
rewrite (bind_Ret _ _ _ _ _ Hrun2).
assert (flag_is d qs1 this) as Hthis.
{ exists (with_flushDelay d t). split; [|done].
  by apply list_lookup_insert_eq. }
destruct (parent t) as [p|] eqn:Hpar.
- destruct (IH p (set_queries (fun _ => qs2) w))
    as (qs3 & Hrun3 & Hf3 & Hk3 & Hp3 & _).
  + simpl. eapply flagged_closed; [|exact Hcl]. by eapply flagged_trans.
  + simpl. eapply flagged_region; [|exact Hrg]. by eapply flagged_trans.
  + by apply HPpa.
  + simpl. rewrite (flagged_length _ _ _ Hf2), Hl1. by apply Hpa.
  + simpl. pose proof (flagged_pending _ _ _ Hf2). lia.
  + simpl in Hf3, Hk3. exists qs3. split; [exact Hrun3|].
    split; [eapply flagged_trans; [|exact Hf3]; by eapply flagged_trans|].
    split; [eapply kept_trans; [|exact Hk3]; by eapply kept_trans|].
    split; [eapply flagged_flag; [exact Hf3|]; by eapply flagged_flag|].
    intros t' Ht' _. simplify_eq. split.
    * intros k c Hin. eapply flagged_flag; [exact Hf3|]. by eapply Hc2.
    * intros p' Hp'. rewrite Hpar in Hp'. by injection Hp' as <-.
- exists qs2. split; [done|].
  split; [by eapply flagged_trans|].
  split; [by eapply kept_trans|].
  split; [by eapply flagged_flag|].
  intros t' Ht' _. simplify_eq. split; [exact Hc2|].
  intros p' Hp'. rewrite Hpar in Hp'. discriminate Hp'.
Qed.
End AutoFlushTotal.

(** ** The queue and the flag of a clone *)

Lemma closed_snoc qs t' :
  closed qs ->
  children t' = [] ->
  (forall p, parent t' = Some p -> p < length qs) ->
  closed (qs ++ [t']).
Proof.
intros Hc Hch Hpa l t Hl. rewrite length_app. simpl.
apply lookup_app_Some in Hl as [Hl|[_ Hl]].
- destruct (Hc l t Hl) as [H1 H2]. split.
  + intros k c Hin. specialize (H1 k c Hin). lia.
  + intros p Hp. specialize (H2 p Hp). lia.
- apply list_lookup_singleton_Some in Hl as [_ <-]. split.
  + intros k c Hin. rewrite Hch in Hin. by apply elem_of_nil in Hin.
  + intros p Hp. specialize (Hpa p Hp). lia.
Qed.

(** The instances that were in the store before a clone was made do
    not refer to the clone. *)
Lemma region_snoc qs t' :
  closed qs -> region (fun l => l < length qs) (qs ++ [t']).
Proof.
intros Hc l t Hlt Hl. rewrite lookup_app_l in Hl by done.
exact (Hc l t Hl).
Qed.

Lemma closed_nil_children qs :
  (forall l t, qs !! l = Some t -> children t = [] /\ parent t = None) ->
  closed qs.
Proof.
intros H l t Hl. destruct (H l t Hl) as [Hch Hpa]. split.
- intros k c Hin. rewrite Hch in Hin. by apply elem_of_nil in Hin.
- intros p Hp. by rewrite Hpa in Hp.
Qed.

(** What the constructor puts in the store for a parent [p]. *)
Lemma new_child_eq path d p tp name w :
  queries w !! p = Some tp ->
  MockFirestoreQuery.new path d (Some p) name w =
  Ret (length (queries w))
    (World
       (queries w ++
        [Query ∅
           (match path with None | Some "" => "Mock://" | Some s => s end)
           name (flushDelay tp) (queue tp) (Some p) (firestore tp) []
           (length (propertyArrays w)) (length (directionArrays w))
           0 FromStart d])
       (propertyArrays w ++ [[]]) (directionArrays w ++ [[]])
       (queues w)
       (promises w) (subscriptions w) (stack w) (jobs w) (timers w)
       (console w) (trace w)).
Proof.
intros Hp.
unfold MockFirestoreQuery.new, MockFirestoreQuery._setData.
run_M. same_world.
Qed.

(** What a builder call that clones puts in the store. *)
Lemma builder_clone {L : Lodash} w this t ps ds pt c q w' :
  instance w this t ps ds pt ->
  c <> CallStartAfter Other ->
  builder this c w = Ret q w' ->
  exists t' ps' ds' warnings,
    q = length (queries w) /\
    w' = after_clone w t' ps' ds' pt warnings /\
    parent t' = parent t /\ children t' = [] /\
    queue t' = from_option queue (length (queues w)) pt /\
    flushDelay t' = from_option flushDelay DFalse pt.
Proof.
intros Hi Hc.
destruct c as [property operator value|property direction|n|[ref_id|]];
  cbn [builder]; [| | | |done].
- rewrite (where_eq _ _ _ _ _ _ _ _ _ Hi). intros [= <- <-].
  by eexists _, _, _, _.
- rewrite (orderBy_eq _ _ _ _ _ _ _ _ Hi). intros [= <- <-].
  by eexists _, _, _, _.
- rewrite (limit_eq _ _ _ _ _ _ _ Hi). intros [= <- <-].
  by eexists _, _, _, _.
- destruct ps as [|p0 ps].
  + destruct Hi as [Hq Hp _ _].
    by rewrite (startAfter_unordered_eq _ _ _ _ Hq Hp).
  + rewrite (startAfter_eq _ _ _ _ _ _ _ Hi ltac:(done)). intros [= <- <-].
    by eexists _, _, _, _.
Qed.

(** C4, amended: an instance built with a parent refers to the queue of
    that parent and starts with the value of the parent's flag.  A
    clone, also the one [where], [orderBy], [limit] and [startAfter]
    make, is built with the parent of the receiver: under a parent it
    refers to the queue of that parent and starts with the value of the
    parent's flag; without one it has a new queue of its own and the
    flag [false].  It is nobody's child.  [autoFlush] on
    an instance returns; it changes flags only, all to the value given
    ([true] when none is), the receiver's among them and, when the
    receiver's differed, those of its parent and of its children; called
    on an instance that was there before the clone, it leaves the clone
    as it is. *)
Theorem clone_queue_and_flag {L : Lodash} (w : world) (this : loc)
  (t : query) (ps : list property) (ds : list string) (pt : option query)
  (c : builder_call) (q : loc) (w' : world) :
  instance w this t ps ds pt ->
  closed (queries w) ->
  c <> CallStartAfter Other ->
  builder this c w = Ret q w' ->
  (forall path d name,
     exists w1 t1,
       MockFirestoreQuery.new path d (Some this) name w =
         Ret (length (queries w)) w1 /\
       queries w1 !! length (queries w) = Some t1 /\
       parent t1 = Some this /\ children t1 = [] /\
       queue t1 = queue t /\ flushDelay t1 = flushDelay t /\
       queues w1 = queues w) /\
  (exists t',
     queries w' !! q = Some t' /\
     parent t' = parent t /\ children t' = [] /\
     queue t' = from_option queue (length (queues w)) pt /\
     flushDelay t' = from_option flushDelay DFalse pt /\
     queues w' = match pt with
                 | Some _ => queues w
                 | None => queues w ++ [MkQueue [] []]
                 end) /\
  (forall (x : nat) (d : option delay),
     x < length (queries w') ->
     exists qs',
       MockFirestoreQuery.autoFlush (S (length (queries w'))) x d w' =
         Ret x (set_queries (fun _ => qs') w') /\
       flagged (default DTrue d) (queries w') qs' /\
       flag_is (default DTrue d) qs' x /\
       (forall tx, queries w' !! x = Some tx ->
          flushDelay tx <> default DTrue d ->
          (forall k c', (k, c') ∈ children tx ->
             flag_is (default DTrue d) qs' c') /\
          (forall p, parent tx = Some p ->
             flag_is (default DTrue d) qs' p)) /\
       (x <> q -> qs' !! q = queries w' !! q)).
Proof.
intros Hi Hcl Hc Hb.
destruct (builder_clone _ _ _ _ _ _ _ _ _ Hi Hc Hb)
  as (t' & ps' & ds' & warnings & -> & -> & Hpar & Hch & Hqu & Hfd).
assert (closed (queries w ++ [t'])) as Hcl'.
{ apply closed_snoc; [done..|]. intros p Hp. rewrite Hpar in Hp.
  destruct (Hcl this t (inst_query _ _ _ _ _ _ Hi)) as [_ H]. by apply H. }
split; [|split].
- intros path d name. eexists _, _.
  split; [exact (new_child_eq _ _ _ _ _ _ (inst_query _ _ _ _ _ _ Hi))|].
  split; [apply lookup_snoc|]. done.
- exists t'. split; [apply lookup_snoc|]. by destruct pt.
- intros x d Hx. cbn [after_clone queries] in *.
  unfold MockFirestoreQuery.autoFlush.
  destruct (decide (x = length (queries w))) as [->|Hne].
  + destruct (autoFlush_rec_total (default DTrue d) (fun _ => True)
                (S (length (queries w ++ [t']))) (length (queries w))
                (after_clone w t' ps' ds' pt warnings))
      as (qs' & Hrun & Hfl & _ & Hthis & Hnb); [done|done|done|done|..].
    { pose proof (pending_le (default DTrue d) (queries w ++ [t'])).
      cbn [after_clone queries]. lia. }
    exists qs'. rewrite (bind_Ret _ _ _ _ _ Hrun).
    split; [done|]. split; [done|]. split; [done|]. split; [done|]. done.
  + assert (x < length (queries w)) as Hlt.
    { rewrite length_app in Hx. simpl in Hx. lia. }
    destruct (autoFlush_rec_total (default DTrue d)
                (fun l => l < length (queries w))
                (S (length (queries w ++ [t']))) x
                (after_clone w t' ps' ds' pt warnings))
      as (qs' & Hrun & Hfl & Hk & Hthis & Hnb);
      [done|by apply region_snoc|done|done|..].
    { pose proof (pending_le (default DTrue d) (queries w ++ [t'])).
      cbn [after_clone queries]. lia. }
    exists qs'. rewrite (bind_Ret _ _ _ _ _ Hrun).
    split; [done|]. split; [done|]. split; [done|]. split; [done|].
    intros _. apply Hk. lia.
Qed.

Lemma clone_queue_and_flag_witness :
  instance example_world 0 example_query [] [] None /\
  closed (queries example_world) /\
  exists (w' : world),
    @builder plain_lodash 0 (CallLimit 1) example_world = Ret 1 w' /\
    (exists t', queries w' !! 1 = Some t' /\
       queue t' = 1 /\ flushDelay t' = DFalse) /\
    (exists qs',
       MockFirestoreQuery.autoFlush 3 0 None w' =
         Ret 0 (set_queries (fun _ => qs') w') /\
       flag_is DTrue qs' 0 /\ qs' !! 1 = queries w' !! 1).
Proof.
assert (closed (queries example_world)) as Hcl.
{ apply closed_nil_children. intros [|l] t Hl; [|done].
  injection Hl as <-. done. }
split; [exact example_instance|]. split; [exact Hcl|].
pose proof (limit_eq _ _ _ _ _ _ 1 example_instance) as Hb.
destruct (@clone_queue_and_flag plain_lodash example_world 0 example_query
            [] [] None (CallLimit 1) _ _ example_instance Hcl
            ltac:(done) Hb)
  as (_ & (t' & Ht' & _ & _ & Hq & Hf & _) & Hauto).
eexists. split; [exact Hb|]. split.
- exists t'. split; [exact Ht'|]. split; [exact Hq | exact Hf].
- destruct (Hauto 0 None ltac:(simpl; lia))
    as (qs' & Hrun & _ & Hfl & _ & Hk).
  exists qs'. split; [exact Hrun|]. split; [exact Hfl|].
  apply Hk. done.
Defined.

(** C4 as stated does not hold.  The clone of an instance without a
    parent has a queue of its own, and [autoFlush] on the instance does
    not reach the clone; under a parent the clone refers to the queue
    of the parent, and still [autoFlush] on the instance it was made
    from, which sets the flag of the parent, leaves the flag of the
    clone as it was. *)
Lemma shared_flag_counterexample :
  (exists (w : world),
     @exec plain_lodash [Limit 0 1; AutoFlush 0 None] example_world
       = Some w /\
     queue <$> queries w !! 0 = Some 0 /\
     queue <$> queries w !! 1 = Some 1 /\
     flushDelay <$> queries w !! 0 = Some DTrue /\
     flushDelay <$> queries w !! 1 = Some DFalse) /\
  (exists (w : world),
     @exec plain_lodash
       [New (Some "db") None None None;
        New (Some "db/coll") (Some example_data) (Some 0) (Some "coll");
        Limit 1 1; AutoFlush 1 None] empty_world = Some w /\
     parent <$> queries w !! 1 = Some (Some 0) /\
     parent <$> queries w !! 2 = Some (Some 0) /\
     queue <$> queries w !! 2 = Some 0 /\
     flushDelay <$> queries w !! 0 = Some DTrue /\
     flushDelay <$> queries w !! 1 = Some DTrue /\
     flushDelay <$> queries w !! 2 = Some DFalse).
Proof.
split.
- eexists. split; [vm_compute; reflexivity|]. by repeat split.
- eexists. split; [vm_compute; reflexivity|]. by repeat split.
Qed.

(** ** The sort of [_.orderBy] *)

Section SortFacts.
Context {A : Type}.
Implicit Types (cmp : @entry A -> @entry A -> comparison).
Implicit Types (x y : @entry A) (l es : list (@entry A)).

Lemma sort_insert_perm cmp x l : sort_insert cmp x l ≡ₚ x :: l.
Proof.
induction l as [|y l IH]; simpl; [done|].
destruct (cmp x y); try done.
rewrite IH. apply Permutation_swap.
Qed.

Lemma array_sort_perm cmp l : array_sort cmp l ≡ₚ l.
Proof.
induction l as [|x l IH]; simpl; [done|].
rewrite sort_insert_perm. by rewrite IH.
Qed.



End SortFacts.

Section SortedFacts.
Context {A : Type}.
Implicit Types (cmp : @entry A -> @entry A -> comparison).
Implicit Types (x y z : @entry A) (l es : list (@entry A)).




End SortedFacts.

Section OrderByFacts.
Context {L : Lodash} {A : Type}.
Implicit Types (f : A -> list value) (orders : list string).
Implicit Types (collection : list A).



Lemma entries_values f collection :
  entry_value <$> entries f collection = collection.
Proof.
unfold entries.
assert (forall (g : nat -> A -> @entry A),
          (forall i x, entry_value (g i x) = x) ->
          entry_value <$> imap g collection = collection) as H.
{ induction collection as [|x l IH]; intros g Hg; [done|].
  rewrite imap_cons, fmap_cons, Hg. f_equal. apply IH.
  intros i y. apply Hg. }
by apply H.
Qed.


(** [_.orderBy] returns the elements it was given. *)
Lemma baseOrderBy_perm collection f orders :
  baseOrderBy collection f orders ≡ₚ collection.
Proof.
unfold baseOrderBy. rewrite array_sort_perm. by rewrite entries_values.
Qed.


End OrderByFacts.

(** ** The order of the records of an evaluation *)

Section ResultOrder.
Context {L : Lodash}.


Lemma traversal_perm data ps ds : traversal data ps ds ≡ₚ data.
Proof. destruct ps; [done|]. apply baseOrderBy_perm. Qed.

End ResultOrder.

(** C7 fails on a record set whose keys are array indices.  For
    [{1: {x: 2}, 2: {x: 1}}] and [orderBy('x')] the direction stored is
    'asc' and the sort puts record [2] before record [1]; the walk then
    assigns them to the object it returns, and that object enumerates
    its array-index keys in ascending order, record [1] first: the
    evaluation is not in the order of [x]. *)
Theorem orderBy_index_keys_unsorted :
  js_object numbered_data /\
  exists (w : world),
    @exec plain_lodash
      [New (Some "/coll") (Some numbered_data) None None;
       OrderBy 0 (Name "x") None] empty_world = Some w /\
    (exists t, queries w !! 1 = Some t /\
       propertyArrays w !! orderedProperties t = Some [Name "x"] /\
       directionArrays w !! orderedDirections t = Some ["asc"]) /\
    @traversal plain_lodash numbered_data [Name "x"] ["asc"] =
      [("2", [("x", VNum 1)]); ("1", [("x", VNum 2)])] /\
    @MockFirestoreQuery._results plain_lodash 1 w =
      Ret [("1", [("x", VNum 2)]); ("2", [("x", VNum 1)])] w.
Proof.
split; [by apply (bool_decide_unpack _)|].
eexists. split; [vm_compute; reflexivity|].
split; [eexists; split; [reflexivity|]; by split|].
split; [by vm_compute|]. by vm_compute.
Qed.

(** * Further properties of the code *)

(** ** [extractName] *)

Lemma all_allowed_no_segment (s : string) :
  all_allowed s = true -> last_segment s = None.
Proof.
induction s as [|c s IH]; [done|]. simpl.
intros [Hc Hs]%andb_true_iff. rewrite (IH Hs).
destruct (Ascii.eqb_spec c "/"%char) as [->|]; [done|done].
Qed.

Lemma last_segment_app (pre name : string) :
  name <> "" -> all_allowed name = true ->
  last_segment (pre +:+ "/" +:+ name) = Some name.
Proof.
intros Hne Hall. induction pre as [|c pre IH].
- change ("" +:+ "/" +:+ name) with (String "/" name).
  cbn [last_segment]. rewrite (all_allowed_no_segment _ Hall).
  rewrite Ascii.eqb_refl, Hall. by destruct name.
- change (String c pre +:+ "/" +:+ name)
    with (String c (pre +:+ "/" +:+ name)).
  cbn [last_segment]. by rewrite IH.
Qed.

Lemma last_segment_Some (s name : string) :
  last_segment s = Some name ->
  name <> "" /\ all_allowed name = true /\
  exists pre, s = pre +:+ "/" +:+ name.
Proof.
induction s as [|c s IH]; [done|]. cbn [last_segment].
destruct (last_segment s) as [r|] eqn:Hr.
- intros [= ->]. destruct (IH eq_refl) as (Hne & Hall & pre & ->).
  split; [done|]. split; [done|]. by exists (String c pre).
- destruct (Ascii.eqb_spec c "/"%char) as [->|]; [|done].
  destruct s as [|c' s']; [done|].
  destruct (all_allowed (String c' s')) eqn:Hall; [|done].
  intros [= <-]. split; [done|]. split; [done|]. by exists "".
Qed.

(** X1: [extractName] answers with a name exactly for the paths that
    end in a slash followed by that name, the name being non-empty and
    free of [.], [$], [[], []], [#] and [/]; for every other path, the
    missing one among them, it answers [null]. *)
Theorem extractName_last_segment (path : option string) (name : string) :
  extractName path = Some name <->
  name <> "" /\ all_allowed name = true /\
  exists pre, default "" path = pre +:+ "/" +:+ name.
Proof.
unfold extractName. split.
- apply last_segment_Some.
- intros (Hne & Hall & pre & ->). by apply last_segment_app.
Qed.

Lemma extractName_last_segment_witness :
  extractName (Some "users/alice/posts") = Some "posts" /\
  extractName (Some "Mock://") = None /\
  extractName None = None.
Proof.
split.
- apply (proj2 (extractName_last_segment (Some "users/alice/posts") "posts")).
  split; [done|]. split; [reflexivity|]. by exists "users/alice".
- split; reflexivity.
Defined.

(** ** The supported operators of [where] *)

Section WhereKept.
Context {L : Lodash}.

Lemma results_of_default d ps ds lim b :
  results_of d ps ds lim b = results_of (Some (default [] d)) ps ds lim b.
Proof. by rewrite !results_of_spec. Qed.

Lemma foldl_where_step_contains property value (l : list (string * doc)) :
  forall acc,
  foldl (where_step property "array-contains" value) acc l =
  foldl (fun acc kv => obj_set kv.1 kv.2 acc) acc
    (filter (contains property value) l).
Proof.
induction l as [|[k d] l IH]; intros acc; [done|].
rewrite filter_cons. cbn [foldl]. rewrite IH.
unfold where_step at 1. cbn [String.eqb Ascii.eqb Bool.eqb andb].
destruct (decide (contains property value (k, d))) as [Hm|Hm];
  unfold contains in Hm; cbn [fst snd] in Hm.
- by rewrite Hm.
- apply not_true_is_false in Hm. by rewrite Hm.
Qed.

Lemma foldl_where_step_member property value (l : list (string * doc)) :
  forall acc,
  foldl (where_step property "in" value) acc l =
  foldl (fun acc kv => obj_set kv.1 kv.2 acc) acc
    (filter (member property value) l).
Proof.
induction l as [|[k d] l IH]; intros acc; [done|].
rewrite filter_cons. cbn [foldl]. rewrite IH.
unfold where_step at 1. cbn [String.eqb Ascii.eqb Bool.eqb andb].
destruct (decide (member property value (k, d))) as [Hm|Hm];
  unfold member in Hm; cbn [fst snd] in Hm.
- by rewrite Hm.
- apply not_true_is_false in Hm. by rewrite Hm.
Qed.

(** The clone a supported operator makes holds the records the
    operator keeps, in their order, and evaluates over them with the
    order, the cursor and the limit of the receiver. *)
Lemma where_kept w this t ps ds pt property operator value
  (P : string * doc -> Prop) `{!forall r, Decision (P r)} :
  instance w this t ps ds pt ->
  js_object (default [] (data t)) ->
  supported operator = true ->
  (forall acc l,
     foldl (where_step property operator value) acc l =
     foldl (fun acc kv => obj_set kv.1 kv.2 acc) acc (filter P l)) ->
  exists (w' : world) (t' : query),
    MockFirestoreQuery.where_ this property operator value w =
      Ret (length (queries w)) w' /\
    instance w' (length (queries w)) t' ps ds pt /\
    console w' = console w /\
    default [] (data t') = filter P (default [] (data t)) /\
    MockFirestoreQuery._results (length (queries w)) w' =
      Ret (results_of (Some (filter P (default [] (data t)))) ps ds
             (limited t) (buildStartFinder t)) w' /\
    length (queries w') = S (length (queries w)) /\
    stack w' = stack w /\
    limited t' = limited t /\ buildStartFinder t' = buildStartFinder t.
Proof.
intros Hi Hjs Hsup Hstep.
pose proof (where_eq w this t ps ds pt property operator value Hi) as Heq.
rewrite Hsup in Heq.
pose proof (instance_new w this t ps ds pt
              (with_data (where_data property operator value (data t))
                 (cloned w t pt)) ps ds []
              Hi eq_refl eq_refl eq_refl) as Hi'.
assert (default [] (where_data property operator value (data t)) =
        filter P (default [] (data t))) as Hdata.
{ unfold where_data. rewrite Hsup.
  destruct (data t) as [d|] eqn:Hd; simpl in *.
  - destruct d as [|r d]; [done|]. simpl negb. cbv iota.
    cbn [default]. rewrite Hstep.
    apply (obj_of_list_js (filter P (r :: d))).
    eapply js_object_sublist; [apply sublist_filter | done].
  - done. }
eexists _, _. split; [exact Heq|]. split; [exact Hi'|].
split; [simpl; by rewrite app_nil_r|]. split; [exact Hdata|].
split; [|split; [apply length_snoc | done]].
rewrite (results_eq _ _ _ _ _ _ Hi').
change (data (with_data ?d _)) with d.
rewrite results_of_default, Hdata. done.
Qed.
End WhereKept.

Lemma tagged_instance : instance tagged_world 0 tagged_query [] [] None.
Proof. by split. Qed.

Lemma tagged_data_js : js_object tagged_data.
Proof. by apply (bool_decide_unpack _). Qed.

(** X2: [where(property, 'array-contains', value)] returns, without a
    warning, a new instance that holds exactly the records whose field
    includes the value, in the order they had, and that evaluates over
    them with the order, the cursor and the limit of the receiver. *)
Theorem where_array_contains {L : Lodash} (w : world) (this : loc)
  (t : query) (ps : list property) (ds : list string) (pt : option query)
  (property : property) (value : value) :
  instance w this t ps ds pt ->
  js_object (default [] (data t)) ->
  exists (w' : world) (t' : query),
    MockFirestoreQuery.where_ this property "array-contains" value w =
      Ret (length (queries w)) w' /\
    instance w' (length (queries w)) t' ps ds pt /\
    console w' = console w /\
    default [] (data t') =
      filter (contains property value) (default [] (data t)) /\
    MockFirestoreQuery._results (length (queries w)) w' =
      Ret (results_of
             (Some (filter (contains property value) (default [] (data t))))
             ps ds (limited t) (buildStartFinder t)) w'.
Proof.
intros Hi Hjs.
destruct (where_kept w this t ps ds pt property "array-contains" value
            (contains property value) Hi Hjs eq_refl)
  as (w' & t' & H1 & H2 & H3 & H4 & H5 & _).
{ intros acc l. apply foldl_where_step_contains. }
by exists w', t'.
Qed.

Lemma where_array_contains_witness :
  instance tagged_world 0 tagged_query [] [] None /\
  js_object (default [] (data tagged_query)) /\
  exists (w' : world),
    @MockFirestoreQuery.where_ plain_lodash 0 (Name "tags")
      "array-contains" (VStr "x") tagged_world = Ret 1 w' /\
    @MockFirestoreQuery._results plain_lodash 1 w' =
      Ret [("a", [("tags", VArr [VStr "x"; VStr "y"])]);
           ("c", [("tags", VArr [VStr "x"])])] w'.
Proof.
split; [exact tagged_instance|]. split; [exact tagged_data_js|].
destruct (@where_array_contains plain_lodash tagged_world 0 tagged_query
            [] [] None (Name "tags") (VStr "x") tagged_instance
            tagged_data_js)
  as (w' & t' & Hw & _ & _ & _ & Hr).
change (length (queries tagged_world)) with 1 in Hw, Hr.
exists w'. split; [exact Hw|]. rewrite Hr. reflexivity.
Defined.

(** X3: [where(property, 'in', value)] returns, without a warning, a
    new instance that holds exactly the records whose field is included
    in the value, in the order they had, and that evaluates over them
    with the order, the cursor and the limit of the receiver. *)
Theorem where_in {L : Lodash} (w : world) (this : loc)
  (t : query) (ps : list property) (ds : list string) (pt : option query)
  (property : property) (value : value) :
  instance w this t ps ds pt ->
  js_object (default [] (data t)) ->
  exists (w' : world) (t' : query),
    MockFirestoreQuery.where_ this property "in" value w =
      Ret (length (queries w)) w' /\
    instance w' (length (queries w)) t' ps ds pt /\
    console w' = console w /\
    default [] (data t') =
      filter (member property value) (default [] (data t)) /\
    MockFirestoreQuery._results (length (queries w)) w' =
      Ret (results_of
             (Some (filter (member property value) (default [] (data t))))
             ps ds (limited t) (buildStartFinder t)) w'.
Proof.
intros Hi Hjs.
destruct (where_kept w this t ps ds pt property "in" value
            (member property value) Hi Hjs eq_refl)
  as (w' & t' & H1 & H2 & H3 & H4 & H5 & _).
{ intros acc l. apply foldl_where_step_member. }
by exists w', t'.
Qed.

Lemma where_in_witness :
  instance example_world 0 example_query [] [] None /\
  js_object (default [] (data example_query)) /\
  exists (w' : world),
    @MockFirestoreQuery.where_ plain_lodash 0 (Name "x") "in"
      (VArr [VNum 2; VNum 3]) example_world = Ret 1 w' /\
    @MockFirestoreQuery._results plain_lodash 1 w' =
      Ret [("b", [("x", VNum 2)])] w'.
Proof.
split; [exact example_instance|]. split; [exact example_data_js|].
destruct (@where_in plain_lodash example_world 0 example_query
            [] [] None (Name "x") (VArr [VNum 2; VNum 3]) example_instance
            example_data_js)
  as (w' & t' & Hw & _ & _ & _ & Hr).
change (length (queries example_world)) with 1 in Hw, Hr.
exists w'. split; [exact Hw|]. rewrite Hr. reflexivity.
Defined.

Lemma one_key {A : Type} (l : list (string * A)) (id : string) :
  NoDup (keys l) -> Forall (fun r => r.1 = id) l -> length l <= 1.
Proof.
intros Hnd Hall. destruct l as [|[k1 d1] [|[k2 d2] l]]; simpl; [lia|lia|].
exfalso. inversion_clear Hall as [|? ? Ha1 Hall'].
inversion_clear Hall' as [|? ? Ha2 _].
simpl in Ha1, Ha2. subst. simpl in Hnd. apply NoDup_cons in Hnd as [Hnd _].
apply Hnd. left.
Qed.

(** X4: with a library whose [_.get] reads the key of a record at the
    path 'key' and whose [_.isEqual] tells strings apart,
    [where(FieldPath.documentId(), '==', id)] keeps the record whose
    document id is [id] and no other: at most one record. *)
Theorem where_document_id {L : Lodash} (w : world) (this : loc)
  (t : query) (ps : list property) (ds : list string) (pt : option query)
  (id : string) :
  (forall d k, get (queryable d k) "key" = VStr k) ->
  (forall a b, isEqual (VStr a) (VStr b) = true <-> a = b) ->
  instance w this t ps ds pt ->
  js_object (default [] (data t)) ->
  exists (w' : world) (t' : query),
    MockFirestoreQuery.where_ this DocumentId "==" (VStr id) w =
      Ret (length (queries w)) w' /\
    instance w' (length (queries w)) t' ps ds pt /\
    default [] (data t') =
      filter (fun r => r.1 = id) (default [] (data t)) /\
    length (default [] (data t')) <= 1.
Proof.
intros Hkey Hstr Hi Hjs.
destruct (where_kept w this t ps ds pt DocumentId "==" (VStr id)
            (matches DocumentId (VStr id)) Hi Hjs eq_refl)
  as (w' & t' & H1 & H2 & _ & H4 & _).
{ intros acc l. apply foldl_where_step. }
assert (default [] (data t') =
        filter (fun r => r.1 = id) (default [] (data t))) as Hd.
{ rewrite H4. apply list_filter_iff. intros [k d]. unfold matches.
  cbn [getPropertyPath fst snd]. by rewrite Hkey, Hstr. }
exists w', t'. split; [exact H1|]. split; [exact H2|].
split; [exact Hd|]. rewrite Hd.
assert (NoDup (keys (filter (fun r : string * doc => r.1 = id)
                       (default [] (data t))))) as Hnd.
{ assert (sublist
            (keys (filter (fun r : string * doc => r.1 = id)
                     (default [] (data t))))
            (keys (default [] (data t)))) as Hsub.
  { unfold keys. apply fmap_sublist, sublist_filter. }
  eapply sublist_NoDup; first [exact Hsub | exact (proj1 Hjs)]. }
assert (Forall (fun r : string * doc => r.1 = id)
          (filter (fun r : string * doc => r.1 = id) (default [] (data t))))
  as Hall.
{ apply Forall_forall. intros r Hr. by apply list_elem_of_filter in Hr as [? _]. }
exact (one_key _ id Hnd Hall).
Qed.

Lemma where_document_id_witness :
  instance example_world 0 example_query [] [] None /\
  js_object (default [] (data example_query)) /\
  exists (w' : world) (t' : query),
    @MockFirestoreQuery.where_ plain_lodash 0 DocumentId "==" (VStr "b")
      example_world = Ret 1 w' /\
    queries w' !! 1 = Some t' /\
    default [] (data t') = [("b", [("x", VNum 2)])].
Proof.
split; [exact example_instance|]. split; [exact example_data_js|].
destruct (@where_document_id plain_lodash example_world 0 example_query
            [] [] None "b")
  as (w' & t' & Hw & Hi & Hd & _).
- reflexivity.
- intros a b. apply String.eqb_eq.
- exact example_instance.
- exact example_data_js.
- change (length (queries example_world)) with 1 in Hw, Hi.
  exists w', t'. split; [exact Hw|].
  split; [exact (inst_query _ _ _ _ _ _ Hi)|]. rewrite Hd. reflexivity.
Defined.

(** X5: on a receiver without records, [where] with any of the three
    operators it knows hands [null] to the clone, whatever the
    property and the value are, and the clone evaluates to the empty
    object. *)
Theorem where_no_records {L : Lodash} (w : world) (this : loc)
  (t : query) (ps : list property) (ds : list string) (pt : option query)
  (property : property) (operator : string) (value : value) :
  instance w this t ps ds pt ->
  size_of (data t) = 0 ->
  supported operator = true ->
  exists (w' : world) (t' : query),
    MockFirestoreQuery.where_ this property operator value w =
      Ret (length (queries w)) w' /\
    queries w' !! length (queries w) = Some t' /\
    data t' = None /\
    console w' = console w /\
    MockFirestoreQuery._results (length (queries w)) w' = Ret [] w'.
Proof.
intros Hi Hsz Hsup.
pose proof (where_eq w this t ps ds pt property operator value Hi) as Heq.
pose proof (instance_new w this t ps ds pt
              (with_data (where_data property operator value (data t))
                 (cloned w t pt)) ps ds
              (if supported operator then [] else [where_warning])
              Hi eq_refl eq_refl eq_refl) as Hi'.
assert (where_data property operator value (data t) = None) as Hd.
{ unfold where_data. by rewrite Hsup, Hsz. }
eexists _, _. split; [exact Heq|].
split; [exact (inst_query _ _ _ _ _ _ Hi')|].
split; [exact Hd|]. split; [simpl; by rewrite Hsup, app_nil_r|].
rewrite (results_eq _ _ _ _ _ _ Hi').
change (data (with_data ?d _)) with d. by rewrite Hd.
Qed.

Lemma filtered_instance : instance filtered_world 1 filtered_query [] [] None.
Proof. by split. Qed.

Lemma where_no_records_witness :
  instance filtered_world 1 filtered_query [] [] None /\
  size_of (data filtered_query) = 0 /\
  exists (w' : world),
    @MockFirestoreQuery.where_ plain_lodash 1 (Name "x") "==" (VNum 1)
      filtered_world = Ret 2 w' /\
    @MockFirestoreQuery._results plain_lodash 2 w' = Ret [] w'.
Proof.
split; [exact filtered_instance|]. split; [reflexivity|].
destruct (@where_no_records plain_lodash filtered_world 1 filtered_query
            [] [] None (Name "x") "==" (VNum 1) filtered_instance
            eq_refl eq_refl)
  as (w' & t' & Hw & _ & _ & _ & Hr).
exists w'. split; [exact Hw | exact Hr].
Defined.

(** ** Chains of builder calls *)

Lemma where_equal_chain {L : Lodash} w this t ps ds pt p1 v1 p2 v2 :
  instance w this t ps ds pt ->
  js_object (default [] (data t)) ->
  exists (w1 w2 : world) (t2 : query),
    MockFirestoreQuery.where_ this p1 "==" v1 w =
      Ret (length (queries w)) w1 /\
    MockFirestoreQuery.where_ (length (queries w)) p2 "==" v2 w1 =
      Ret (S (length (queries w))) w2 /\
    instance w2 (S (length (queries w))) t2 ps ds pt /\
    default [] (data t2) =
      filter (fun r => matches p1 v1 r /\ matches p2 v2 r)
        (default [] (data t)).
Proof.
intros Hi Hjs.
destruct (where_kept w this t ps ds pt p1 "==" v1 (matches p1 v1)
            Hi Hjs eq_refl)
  as (w1 & t1 & Hw1 & Hi1 & _ & Hd1 & _ & Hlen & _).
{ intros acc l. apply foldl_where_step. }
assert (js_object (default [] (data t1))) as Hjs1.
{ rewrite Hd1. eapply js_object_sublist; [apply sublist_filter | done]. }
destruct (where_kept w1 (length (queries w)) t1 ps ds pt p2 "==" v2
            (matches p2 v2) Hi1 Hjs1 eq_refl)
  as (w2 & t2 & Hw2 & Hi2 & _ & Hd2 & _).
{ intros acc l. apply foldl_where_step. }
rewrite Hlen in Hw2, Hi2.
exists w1, w2, t2. split; [exact Hw1|]. split; [exact Hw2|].
split; [exact Hi2|]. rewrite Hd2, Hd1, list_filter_filter.
apply list_filter_iff. intros r. tauto.
Qed.

(** X6: two equality filters in a chain keep the records that pass
    both, in the order they had; the chain in the other order keeps
    the same records in the same order. *)
Theorem where_equal_twice {L : Lodash} (w : world) (this : loc)
  (t : query) (ps : list property) (ds : list string) (pt : option query)
  (p1 p2 : property) (v1 v2 : value) :
  instance w this t ps ds pt ->
  js_object (default [] (data t)) ->
  let n := length (queries w) in
  exists (w1 w2 w1' w2' : world) (t2 t2' : query),
    MockFirestoreQuery.where_ this p1 "==" v1 w = Ret n w1 /\
    MockFirestoreQuery.where_ n p2 "==" v2 w1 = Ret (S n) w2 /\
    queries w2 !! S n = Some t2 /\
    MockFirestoreQuery.where_ this p2 "==" v2 w = Ret n w1' /\
    MockFirestoreQuery.where_ n p1 "==" v1 w1' = Ret (S n) w2' /\
    queries w2' !! S n = Some t2' /\
    default [] (data t2) =
      filter (fun r => matches p1 v1 r /\ matches p2 v2 r)
        (default [] (data t)) /\
    default [] (data t2') = default [] (data t2).
Proof.
intros Hi Hjs n.
destruct (where_equal_chain w this t ps ds pt p1 v1 p2 v2 Hi Hjs)
  as (w1 & w2 & t2 & Hw1 & Hw2 & Hi2 & Hd2).
destruct (where_equal_chain w this t ps ds pt p2 v2 p1 v1 Hi Hjs)
  as (w1' & w2' & t2' & Hw1' & Hw2' & Hi2' & Hd2').
exists w1, w2, w1', w2', t2, t2'.
split; [exact Hw1|]. split; [exact Hw2|].
split; [exact (inst_query _ _ _ _ _ _ Hi2)|].
split; [exact Hw1'|]. split; [exact Hw2'|].
split; [exact (inst_query _ _ _ _ _ _ Hi2')|].
split; [exact Hd2|]. rewrite Hd2, Hd2'.
apply list_filter_iff. intros r. tauto.
Qed.

Lemma where_equal_twice_witness :
  instance tagged_world 0 tagged_query [] [] None /\
  js_object (default [] (data tagged_query)) /\
  exists (w1 w2 : world) (t2 : query),
    @MockFirestoreQuery.where_ plain_lodash 0 (Name "tags.0") "=="
      (VStr "x") tagged_world = Ret 1 w1 /\
    @MockFirestoreQuery.where_ plain_lodash 1 (Name "tags.length") "=="
      (VNum 1) w1 = Ret 2 w2 /\
    queries w2 !! 2 = Some t2 /\
    default [] (data t2) = [("c", [("tags", VArr [VStr "x"])])].
Proof.
split; [exact tagged_instance|]. split; [exact tagged_data_js|].
destruct (@where_equal_twice plain_lodash tagged_world 0 tagged_query
            [] [] None (Name "tags.0") (Name "tags.length")
            (VStr "x") (VNum 1) tagged_instance tagged_data_js)
  as (w1 & w2 & _ & _ & t2 & _ & Hw1 & Hw2 & Ht2 & _ & _ & _ & Hd & _).
exists w1, w2, t2. split; [exact Hw1|]. split; [exact Hw2|].
split; [exact Ht2|]. rewrite Hd. reflexivity.
Defined.

(** X7: of two [limit] calls in a chain the later decides: the
    instance [limit(n).limit(m)] returns evaluates as the one
    [limit(m)] returns, over the data, the order and the cursor of the
    receiver. *)
Theorem limit_twice (L : Lodash) (w : world) (this : loc)
  (t : query) (ps : list property) (ds : list string) (pt : option query)
  (n m : Z) :
  instance w this t ps ds pt ->
  let k := length (queries w) in
  exists (w1 w2 w1' : world),
    MockFirestoreQuery.limit this n w = Ret k w1 /\
    MockFirestoreQuery.limit k m w1 = Ret (S k) w2 /\
    MockFirestoreQuery._results (S k) w2 =
      Ret (results_of (data t) ps ds m (buildStartFinder t)) w2 /\
    MockFirestoreQuery.limit this m w = Ret k w1' /\
    MockFirestoreQuery._results k w1' =
      Ret (results_of (data t) ps ds m (buildStartFinder t)) w1'.
Proof.
intros Hi k.
pose proof (limit_eq w this t ps ds pt n Hi) as H1.
pose proof (instance_new w this t ps ds pt
              (with_limited n (cloned w t pt)) ps ds []
              Hi eq_refl eq_refl eq_refl) as Hi1.
set (w1 := after_clone _ _ _ _ _ _) in H1, Hi1.
set (t1 := with_limited n _) in Hi1.
pose proof (limit_eq w1 k t1 ps ds pt m Hi1) as H2.
pose proof (instance_new w1 k t1 ps ds pt
              (with_limited m (cloned w1 t1 pt)) ps ds []
              Hi1 eq_refl eq_refl eq_refl) as Hi2.
assert (length (queries w1) = S k) as Hlen by apply length_snoc.
rewrite Hlen in H2, Hi2.
pose proof (limit_eq w this t ps ds pt m Hi) as H1'.
pose proof (instance_new w this t ps ds pt
              (with_limited m (cloned w t pt)) ps ds []
              Hi eq_refl eq_refl eq_refl) as Hi1'.
eexists _, _, _. split; [exact H1|]. split; [exact H2|].
split; [exact (results_eq _ _ _ _ _ _ Hi2)|].
split; [exact H1'|]. exact (results_eq _ _ _ _ _ _ Hi1').
Qed.

Lemma limit_twice_witness :
  instance example_world 0 example_query [] [] None /\
  exists (w1 w2 : world),
    MockFirestoreQuery.limit 0 1 example_world = Ret 1 w1 /\
    MockFirestoreQuery.limit 1 2 w1 = Ret 2 w2 /\
    @MockFirestoreQuery._results plain_lodash 2 w2 =
      Ret [("a", [("x", VNum 1)]); ("b", [("x", VNum 2)])] w2.
Proof.
split; [exact example_instance|].
destruct (limit_twice plain_lodash example_world 0 example_query [] []
            None 1 2 example_instance)
  as (w1 & w2 & _ & H1 & H2 & Hr & _).
change (length (queries example_world)) with 1 in H1, H2, Hr.
exists w1, w2. split; [exact H1|]. split; [exact H2|].
rewrite Hr. reflexivity.
Defined.

Lemma after_key_absent id (seq : list (string * doc)) :
  id ∉ keys seq -> after_key id seq = [].
Proof.
induction seq as [|[k d] seq IH]; simpl; intros Hid; [done|].
apply not_elem_of_cons in Hid as [Hne Hid].
assert (String.eqb k id = false) as -> by (apply String.eqb_neq; congruence).
by apply IH.
Qed.

(** X8: a cursor on a document that is not among the records leaves
    nothing: the query [startAfter(doc)] returns from an ordered query
    evaluates to the empty object when no record has the key
    [doc.ref.id]. *)
Theorem startAfter_absent {L : Lodash} (w : world) (this : loc)
  (t : query) (ps : list property) (ds : list string) (pt : option query)
  (ref_id : string) :
  instance w this t ps ds pt ->
  ps <> [] ->
  ref_id ∉ keys (default [] (data t)) ->
  exists (w' : world),
    MockFirestoreQuery.startAfter this (DocumentSnapshot ref_id) w =
      Ret (length (queries w)) w' /\
    MockFirestoreQuery._results (length (queries w)) w' = Ret [] w'.
Proof.
intros Hi Hps Hid.
pose proof (startAfter_eq w this t ps ds pt ref_id Hi Hps) as Heq.
pose proof (instance_new w this t ps ds pt
              (with_buildStartFinder (AfterDoc ref_id) (cloned w t pt))
              ps ds [] Hi eq_refl eq_refl eq_refl) as Hi'.
eexists. split; [exact Heq|].
rewrite (results_eq _ _ _ _ _ _ Hi'). f_equal.
rewrite results_of_spec. cbn [after_cursor buildStartFinder
  with_buildStartFinder cloned data].
rewrite after_key_absent.
- unfold capped. destruct (_ <=? 0)%Z; [done|]. by rewrite take_nil.
- unfold keys. rewrite traversal_perm. exact Hid.
Qed.

Lemma startAfter_absent_witness :
  instance ordered_world 1 ordered_query [Name "x"] ["asc"] None /\
  exists (w' : world),
    MockFirestoreQuery.startAfter 1 (DocumentSnapshot "z") ordered_world =
      Ret 2 w' /\
    @MockFirestoreQuery._results plain_lodash 2 w' = Ret [] w'.
Proof.
split; [exact ordered_instance|].
destruct (@startAfter_absent plain_lodash ordered_world 1 ordered_query
            [Name "x"] ["asc"] None "z" ordered_instance)
  as (w' & Hw & Hr); [done| |by exists w'].
by apply (bool_decide_unpack _).
Defined.

(** X9: of two cursors in a chain the later decides: the instance
    [startAfter(a).startAfter(b)] returns from an ordered query
    evaluates as the one [startAfter(b)] returns. *)
Theorem startAfter_twice (L : Lodash) (w : world) (this : loc)
  (t : query) (ps : list property) (ds : list string) (pt : option query)
  (a b : string) :
  instance w this t ps ds pt ->
  ps <> [] ->
  let k := length (queries w) in
  exists (w1 w2 w1' : world),
    MockFirestoreQuery.startAfter this (DocumentSnapshot a) w = Ret k w1 /\
    MockFirestoreQuery.startAfter k (DocumentSnapshot b) w1 =
      Ret (S k) w2 /\
    MockFirestoreQuery._results (S k) w2 =
      Ret (results_of (data t) ps ds (limited t) (AfterDoc b)) w2 /\
    MockFirestoreQuery.startAfter this (DocumentSnapshot b) w = Ret k w1' /\
    MockFirestoreQuery._results k w1' =
      Ret (results_of (data t) ps ds (limited t) (AfterDoc b)) w1'.
Proof.
intros Hi Hps k.
pose proof (startAfter_eq w this t ps ds pt a Hi Hps) as H1.
pose proof (instance_new w this t ps ds pt
              (with_buildStartFinder (AfterDoc a) (cloned w t pt)) ps ds []
              Hi eq_refl eq_refl eq_refl) as Hi1.
set (w1 := after_clone _ _ _ _ _ _) in H1, Hi1.
set (t1 := with_buildStartFinder _ _) in Hi1.
pose proof (startAfter_eq w1 k t1 ps ds pt b Hi1 Hps) as H2.
pose proof (instance_new w1 k t1 ps ds pt
              (with_buildStartFinder (AfterDoc b) (cloned w1 t1 pt)) ps ds []
              Hi1 eq_refl eq_refl eq_refl) as Hi2.
assert (length (queries w1) = S k) as Hlen by apply length_snoc.
rewrite Hlen in H2, Hi2.
pose proof (startAfter_eq w this t ps ds pt b Hi Hps) as H1'.
pose proof (instance_new w this t ps ds pt
              (with_buildStartFinder (AfterDoc b) (cloned w t pt)) ps ds []
              Hi eq_refl eq_refl eq_refl) as Hi1'.
eexists _, _, _. split; [exact H1|]. split; [exact H2|].
split; [exact (results_eq _ _ _ _ _ _ Hi2)|].
split; [exact H1'|]. exact (results_eq _ _ _ _ _ _ Hi1').
Qed.

Lemma startAfter_twice_witness :
  instance ordered_world 1 ordered_query [Name "x"] ["asc"] None /\
  exists (w1 w2 : world),
    MockFirestoreQuery.startAfter 1 (DocumentSnapshot "c") ordered_world =
      Ret 2 w1 /\
    MockFirestoreQuery.startAfter 2 (DocumentSnapshot "a") w1 = Ret 3 w2 /\
    @MockFirestoreQuery._results plain_lodash 3 w2 =
      Ret [("c", [("x", VNum 1)]); ("b", [("x", VNum 2)])] w2.
Proof.
split; [exact ordered_instance|].
destruct (startAfter_twice plain_lodash ordered_world 1 ordered_query
            [Name "x"] ["asc"] None "c" "a" ordered_instance)
  as (w1 & w2 & _ & H1 & H2 & Hr & _); [done|].
change (length (queries ordered_world)) with 2 in H1, H2, Hr.
exists w1, w2. split; [exact H1|]. split; [exact H2|].
rewrite Hr. reflexivity.
Defined.

(** X10: [orderBy] calls in a chain add up: the instance
    [orderBy(p1, d1).orderBy(p2, d2)] returns has the sort keys of the
    receiver followed by [p1] and [p2], each with its direction, 'asc'
    where none or an empty one was given, and evaluates with them; the
    arrays of the receiver are as they were. *)
Theorem orderBy_twice (L : Lodash) (w : world) (this : loc)
  (t : query) (ps : list property) (ds : list string) (pt : option query)
  (p1 p2 : property) (d1 d2 : option string) :
  instance w this t ps ds pt ->
  let k := length (queries w) in
  let ps2 := ps ++ [p1; p2] in
  let ds2 := ds ++ [direction_of d1; direction_of d2] in
  exists (w1 w2 : world) (t2 : query),
    MockFirestoreQuery.orderBy this p1 d1 w = Ret k w1 /\
    MockFirestoreQuery.orderBy k p2 d2 w1 = Ret (S k) w2 /\
    instance w2 (S k) t2 ps2 ds2 pt /\
    instance w2 this t ps ds pt /\
    MockFirestoreQuery._results (S k) w2 =
      Ret (results_of (data t) ps2 ds2 (limited t) (buildStartFinder t))
        w2.
Proof.
intros Hi k ps2 ds2.
pose proof (orderBy_eq w this t ps ds pt p1 d1 Hi) as H1.
pose proof (instance_new w this t ps ds pt (cloned w t pt)
              (ps ++ [p1]) (ds ++ [direction_of d1]) []
              Hi eq_refl eq_refl eq_refl) as Hi1.
pose proof (instance_frame w this t ps ds pt (cloned w t pt)
              (ps ++ [p1]) (ds ++ [direction_of d1]) pt [] Hi) as Hf1.
set (w1 := after_clone _ _ _ _ _ _) in H1, Hi1, Hf1.
set (t1 := cloned w t pt) in Hi1.
pose proof (orderBy_eq w1 k t1 _ _ pt p2 d2 Hi1) as H2.
pose proof (instance_new w1 k t1 _ _ pt (cloned w1 t1 pt)
              ((ps ++ [p1]) ++ [p2])
              ((ds ++ [direction_of d1]) ++ [direction_of d2]) []
              Hi1 eq_refl eq_refl eq_refl) as Hi2.
pose proof (instance_frame w1 this t ps ds pt (cloned w1 t1 pt)
              ((ps ++ [p1]) ++ [p2])
              ((ds ++ [direction_of d1]) ++ [direction_of d2]) pt [] Hf1)
  as Hf2.
assert (length (queries w1) = S k) as Hlen by apply length_snoc.
rewrite Hlen in H2, Hi2.
assert (ps2 = (ps ++ [p1]) ++ [p2]) as -> by (by rewrite <- app_assoc).
assert (ds2 = (ds ++ [direction_of d1]) ++ [direction_of d2]) as ->
  by (by rewrite <- app_assoc).
eexists _, _, _. split; [exact H1|]. split; [exact H2|].
split; [exact Hi2|]. split; [exact Hf2|].
exact (results_eq _ _ _ _ _ _ Hi2).
Qed.

Lemma orderBy_twice_witness :
  instance example_world 0 example_query [] [] None /\
  exists (w1 w2 : world),
    MockFirestoreQuery.orderBy 0 (Name "x") (Some "desc") example_world =
      Ret 1 w1 /\
    MockFirestoreQuery.orderBy 1 DocumentId None w1 = Ret 2 w2 /\
    propertyArrays w2 !! 4 = Some [Name "x"; DocumentId] /\
    directionArrays w2 !! 4 = Some ["desc"; "asc"] /\
    @MockFirestoreQuery._results plain_lodash 2 w2 =
      Ret [("b", [("x", VNum 2)]); ("a", [("x", VNum 1)]);
           ("c", [("x", VNum 1)])] w2.
Proof.
split; [exact example_instance|].
destruct (orderBy_twice plain_lodash example_world 0 example_query [] []
            None (Name "x") DocumentId (Some "desc") None example_instance)
  as (w1 & w2 & t2 & H1 & H2 & Hi2 & _ & Hr).
change (length (queries example_world)) with 1 in H1, H2, Hi2, Hr.
exists w1, w2. split; [exact H1|]. split; [exact H2|].
vm_compute in H1. injection H1 as <-.
vm_compute in H2. injection H2 as <-.
split; [reflexivity|]. split; [reflexivity|].
rewrite Hr. reflexivity.
Defined.

(** X11: [clone()] returns a new instance with the data, the limit,
    the cursor and the parent of the receiver and with arrays of its
    own that hold the receiver's sort keys and directions; it
    evaluates to what the receiver evaluates to, and the receiver is as
    it was. *)
Theorem clone_evaluates_alike {L : Lodash} (w : world) (this : loc)
  (t : query) (ps : list property) (ds : list string) (pt : option query) :
  instance w this t ps ds pt ->
  let k := length (queries w) in
  exists (w' : world) (t' : query),
    MockFirestoreQuery.clone this w = Ret k w' /\
    instance w' k t' ps ds pt /\
    instance w' this t ps ds pt /\
    k <> this /\
    orderedProperties t' <> orderedProperties t /\
    orderedDirections t' <> orderedDirections t /\
    data t' = data t /\ limited t' = limited t /\
    buildStartFinder t' = buildStartFinder t /\ parent t' = parent t /\
    errs t' = ∅ /\
    (exists r,
       MockFirestoreQuery._results k w' = Ret r w' /\
       MockFirestoreQuery._results this w' = Ret r w' /\
       MockFirestoreQuery._results this w = Ret r w).
Proof.
intros Hi k.
pose proof (clone_eq w this t ps ds pt Hi) as H1.
pose proof (instance_new w this t ps ds pt (cloned w t pt) ps ds []
              Hi eq_refl eq_refl eq_refl) as Hi1.
pose proof (instance_frame w this t ps ds pt (cloned w t pt) ps ds pt []
              Hi) as Hf1.
assert (this < k) as Hlt.
{ apply lookup_lt_is_Some. eexists. exact (inst_query _ _ _ _ _ _ Hi). }
eexists _, _. split; [exact H1|]. split; [exact Hi1|].
split; [exact Hf1|]. split; [lia|].
split.
{ simpl. pose proof (inst_properties _ _ _ _ _ _ Hi) as Hp.
  apply lookup_lt_Some in Hp. lia. }
split.
{ simpl. pose proof (inst_directions _ _ _ _ _ _ Hi) as Hd.
  apply lookup_lt_Some in Hd. lia. }
do 5 (split; [done|]).
eexists. split; [exact (results_eq _ _ _ _ _ _ Hi1)|].
split; [exact (results_eq _ _ _ _ _ _ Hf1)|].
exact (results_eq _ _ _ _ _ _ Hi).
Qed.

Lemma clone_evaluates_alike_witness :
  instance ordered_world 1 ordered_query [Name "x"] ["asc"] None /\
  exists (w' : world),
    MockFirestoreQuery.clone 1 ordered_world = Ret 2 w' /\
    @MockFirestoreQuery._results plain_lodash 2 w' =
      Ret [("a", [("x", VNum 1)]); ("c", [("x", VNum 1)]);
           ("b", [("x", VNum 2)])] w'.
Proof.
split; [exact ordered_instance|].
destruct (@clone_evaluates_alike plain_lodash ordered_world 1 ordered_query
            [Name "x"] ["asc"] None ordered_instance)
  as (w' & t' & H1 & _ & _ & _ & _ & _ & _ & _ & _ & _ & _ &
      r & Hr1 & _ & Hr3).
change (length (queries ordered_world)) with 2 in H1, Hr1.
exists w'. split; [exact H1|].
vm_compute in Hr3. injection Hr3 as <-. exact Hr1.
Defined.

(** ** The records of an evaluation *)

Section Assignments.
Context {A : Type}.
Implicit Types (o l : list (string * A)) (k : string) (v : A).

Lemma obj_insert_index_perm i k v o :
  obj_insert_index i k v o ≡ₚ (k, v) :: o.
Proof.
induction o as [|[k' v'] o IH]; simpl; [done|].
destruct (array_index k') as [j|]; [|done].
destruct (j <? i)%N; [|done].
rewrite IH. apply Permutation_swap.
Qed.

(** Assigning to a key the object does not have adds the entry and
    leaves the others. *)
Lemma obj_set_perm k v o : k ∉ keys o -> obj_set k v o ≡ₚ (k, v) :: o.
Proof.
intros Hk. unfold obj_set.
rewrite (proj2 (obj_has_false k o) Hk).
destruct (array_index k) as [i|].
- apply obj_insert_index_perm.
- symmetry. apply Permutation_cons_append.
Qed.

Lemma foldl_obj_set_perm l : forall o,
  NoDup (keys (o ++ l)) ->
  foldl (fun acc kv => obj_set kv.1 kv.2 acc) o l ≡ₚ o ++ l.
Proof.
induction l as [|[k v] l IH]; intros o Hnd; simpl.
- by rewrite app_nil_r.
- assert (k ∉ keys o) as Hk.
  { unfold keys in *. rewrite fmap_app, fmap_cons in Hnd.
    apply NoDup_app in Hnd as (_ & Hd & _). intros Hin.
    apply (Hd k Hin). left. }
  pose proof (obj_set_perm k v o Hk) as Hp.
  rewrite IH.
  + rewrite Hp. simpl. apply Permutation_middle.
  + unfold keys in *. rewrite fmap_app. rewrite Hp.
    rewrite fmap_app, fmap_cons in Hnd. simpl.
    rewrite Permutation_middle. exact Hnd.
Qed.

Lemma obj_of_list_perm l : NoDup (keys l) -> obj_of_list l ≡ₚ l.
Proof. intros Hnd. by apply (foldl_obj_set_perm l []). Qed.
End Assignments.

(** X12: an evaluation invents nothing and repeats nothing.  On data
    whose keys are distinct, [_results] leaves the store as it is and
    returns an object that holds exactly the records selected (those
    of the walk after the cursor, up to the limit), each once and with
    the body it has in the data; with a positive limit it holds at
    most that many. *)
Theorem results_are_records {L : Lodash} (w : world) (this : loc)
  (t : query) (ps : list property) (ds : list string) (pt : option query) :
  instance w this t ps ds pt ->
  NoDup (keys (default [] (data t))) ->
  exists (r : docs),
    MockFirestoreQuery._results this w = Ret r w /\
    r ≡ₚ capped (limited t)
           (after_cursor (buildStartFinder t)
              (traversal (default [] (data t)) ps ds)) /\
    NoDup (keys r) /\
    (forall x, x ∈ r -> x ∈ default [] (data t)) /\
    length r <= length (default [] (data t)) /\
    ((0 < limited t)%Z -> length r <= Z.to_nat (limited t)).
Proof.
intros Hi Hnd.
set (seq := traversal (default [] (data t)) ps ds).
set (sel := capped (limited t) (after_cursor (buildStartFinder t) seq)).
assert (sublist sel seq) as Hsub.
{ unfold sel. etrans; [apply capped_sublist|].
  destruct (buildStartFinder t); [done | apply after_key_sublist]. }
assert (seq ≡ₚ default [] (data t)) as Hperm by apply traversal_perm.
assert (NoDup (keys sel)) as Hnd'.
{ assert (sublist (keys sel) (keys seq)) as Hks
    by (unfold keys; by apply fmap_sublist).
  assert (NoDup (keys seq)) as Hns by (unfold keys; by rewrite Hperm).
  eapply sublist_NoDup; first [exact Hks | exact Hns]. }
assert (results_of (data t) ps ds (limited t) (buildStartFinder t) ≡ₚ sel)
  as Hr.
{ rewrite results_of_spec. by apply obj_of_list_perm. }
eexists. split; [exact (results_eq _ _ _ _ _ _ Hi)|].
split; [exact Hr|].
split; [unfold keys; by rewrite Hr|].
split.
{ intros x Hx. rewrite Hr in Hx. rewrite <- Hperm.
  by eapply elem_of_sublist. }
split.
{ rewrite Hr, <- Hperm. by apply sublist_length. }
intros Hpos. rewrite Hr. by apply capped_length.
Qed.

Lemma results_are_records_witness :
  instance ordered_world 1 ordered_query [Name "x"] ["asc"] None /\
  NoDup (keys (default [] (data ordered_query))) /\
  exists (r : docs),
    @MockFirestoreQuery._results plain_lodash 1 ordered_world =
      Ret r ordered_world /\
    length r <= 3.
Proof.
assert (NoDup (keys (default [] (data ordered_query)))) as Hnd.
{ by apply (bool_decide_unpack _). }
split; [exact ordered_instance|]. split; [exact Hnd|].
destruct (@results_are_records plain_lodash ordered_world 1 ordered_query
            [Name "x"] ["asc"] None ordered_instance Hnd)
  as (r & Hr & _ & _ & _ & Hlen & _).
exists r. split; [exact Hr | exact Hlen].
Defined.

(** ** The order of the plain values *)




(** ** Sorted and stable evaluation *)

Section Segments.
Context {A : Type}.
Implicit Types (R : A -> A -> Prop) (l : list A).



End Segments.


Section SortedEvaluation.
Context {L : Lodash}.


End SortedEvaluation.





(** ** Injected errors, once *)



(** ** Draining the queue *)

Section Drain.
Context {L : Lodash}.

Lemma run_get w self t ps ds err p pr :
  queries w !! self = Some t ->
  propertyArrays w !! orderedProperties t = Some ps ->
  directionArrays w !! orderedDirections t = Some ds ->
  promises w !! p = Some pr ->
  MockFirestoreQuery.run (GetCallback self err p) w =
  Ret tt (settle w p pr (get_outcome self t ps ds err)).
Proof.
intros Hq Hp Hd Hpr.
unfold MockFirestoreQuery.run, MockFirestoreQuery._results,
  MockFirestoreQuery.ref_of, Promise.resolve, Promise.reject, settle,
  get_outcome.
destruct err as [e|]; run_M.
- destruct (state pr); run_M; first [done | same_world].
- destruct (size_of (data t) =? 0)%nat; run_M;
    destruct (state pr); run_M; first [done | same_world].
Qed.

(** One event of [get] is run. *)
Lemma drain_get w q st Q self t ps ds err p pr es :
  stack w = Drain q :: st ->
  queues w !! q = Some Q ->
  events Q = Event (GetCallback self err p) self "get" :: es ->
  queries w !! self = Some t ->
  propertyArrays w !! orderedProperties t = Some ps ->
  directionArrays w !! orderedDirections t = Some ds ->
  promises w !! p = Some pr ->
  step Tau w =
  Some (settle
          (set_queues (fun s => <[q := with_events (fun _ => es) Q]> s) w)
          p pr (get_outcome self t ps ds err)).
Proof.
intros Hst HQ He Hq Hp Hd Hpr.
rewrite step_tau, (tau_drain_event w q st Q _ es Hst HQ He).
cbn [fn].
by rewrite (run_get
             (set_queues (fun s => <[q := with_events (fun _ => es) Q]> s) w)
             self t ps ds err p pr Hq Hp Hd Hpr).
Qed.

(** The queue is empty and nothing is registered with it: the flush
    ends. *)
Lemma drain_done w q st Q :
  stack w = Drain q :: st ->
  queues w !! q = Some Q ->
  events Q = [] -> postFlush Q = [] ->
  exec [Tau; Tau] w =
  Some (set_stack (fun _ => st) (set_trace (fun t => t ++ [Flushed q]) w)).
Proof.
intros Hst HQ He Hpf. cbn [exec].
rewrite step_tau, (tau_drain_empty w q st Q Hst HQ He), Hpf.
rewrite step_tau.
rewrite (tau_post_nil
           (set_stack (fun _ => PostFlush q [] :: st)
              (set_trace (fun t => t ++ [Flushed q]) w)) q st eq_refl).
do 2 f_equal.
Qed.

Lemma get_outcome_docs self t ps ds :
  exists s,
    get_outcome self t ps ds None = Fulfilled s /\
    snapshot_docs s =
      results_of (data t) ps ds (limited t) (buildStartFinder t).
Proof.
unfold get_outcome.
destruct (size_of (data t) =? 0)%nat eqn:Hsz; simpl.
- eexists. split; [reflexivity|]. simpl.
  unfold results_of. destruct (data t) as [d|]; [|done].
  simpl in Hsz. by rewrite Hsz.
- eexists. split; [reflexivity|]. done.
Qed.
End Drain.

(** X17: with the auto-flush flag [true], [get()] needs no call of
    [flush]: it starts the flush itself, and the code that runs before
    any other call can be made settles the promise, with a snapshot of
    the records the instance evaluates to, or with the error injected
    for 'get'. *)
Theorem get_auto_flush {L : Lodash} (w : world) (this : loc) (t : query)
  (ps : list property) (ds : list string) (pt : option query) :
  stack w = [] ->
  instance w this t ps ds pt ->
  queues w !! queue t = Some (MkQueue [] []) ->
  flushDelay t = DTrue ->
  let p := length (promises w) in
  exists (w1 w2 : world),
    step (Get this) w = Some w1 /\
    stack w1 = [Drain (queue t)] /\
    promises w1 !! p = Some (Promise Pending []) /\
    exec [Tau; Tau; Tau] w1 = Some w2 /\
    stack w2 = [] /\
    trace w2 = trace w ++ [Flushed (queue t)] /\
    match errs t !! "get" with
    | Some e => promises w2 !! p = Some (Promise (Rejected e) [])
    | None =>
        exists s,
          promises w2 !! p = Some (Promise (Fulfilled s) []) /\
          snapshot_docs s =
            results_of (data t) ps ds (limited t) (buildStartFinder t)
    end.
Proof.
intros Hst Hi HQ Hfd p.
pose proof (inst_query _ _ _ _ _ _ Hi) as Hq.
assert (this < length (queries w)) as Hlt by (by eapply lookup_lt_Some).
assert (queue t < length (queues w)) as HltQ by (by eapply lookup_lt_Some).
pose proof (get_eq w this t _ Hq HQ) as Hget.
set (w1 := after_get _ _ _ _) in Hget.
assert (step (Get this) w = Some w1) as Hs1.
{ rewrite (step_idle _ _ Hst). cbn [call].
  by rewrite (bind_Ret _ _ _ _ _ Hget). }
assert (stack w1 = [Drain (queue t)]) as Hst1.
{ unfold w1, after_get. cbn [stack]. by rewrite Hfd, Hst. }
set (t1 := with_errs (delete "get") t).
set (ev := get_event w this t).
pose proof (drain_get w1 (queue t) []
              (with_events (fun es => es ++ [ev]) (MkQueue [] []))
              this t1 ps ds (errs t !! "get")
              p (Promise Pending []) [] Hst1) as Hs2.
specialize (Hs2 (list_lookup_insert_eq _ _ _ HltQ) eq_refl
              (list_lookup_insert_eq _ _ _ Hlt)
              (inst_properties _ _ _ _ _ _ Hi)
              (inst_directions _ _ _ _ _ _ Hi)
              (lookup_snoc _ _)).
set (w2 := settle _ _ _ _) in Hs2.
assert (stack w2 = [Drain (queue t)]) as Hst2 by exact Hst1.
pose proof (drain_done w2 (queue t) [] (MkQueue [] []) Hst2) as Hs3.
assert (queues w2 !! queue t = Some (MkQueue [] [])) as HQ2.
{ unfold w2, settle. cbn [state queues set_queues after_get w1].
  rewrite list_insert_insert_eq.
  apply list_lookup_insert_eq. done. }
specialize (Hs3 HQ2 eq_refl eq_refl).
set (w3 := set_stack _ _) in Hs3.
exists w1, w3. split; [exact Hs1|]. split; [exact Hst1|].
split; [apply lookup_snoc|].
split; [cbn [exec] in *; by rewrite Hs2|].
split; [done|]. split; [done|].
assert (promises w3 !! p =
        Some (Promise (get_outcome this t1 ps ds (errs t !! "get")) []))
  as Hp3.
{ unfold w3, w2, settle. cbn -[get_outcome].
  apply list_lookup_insert_eq. list_len. }
destruct (errs t !! "get") as [e|] eqn:He; [exact Hp3|].
destruct (get_outcome_docs this t1 ps ds) as (s & Hs & Hd).
exists s. rewrite Hp3, Hs. split; [done|]. exact Hd.
Qed.

Lemma lookup_pair0 {A : Type} (l : list A) (x y : A) :
  (l ++ [x; y]) !! length l = Some x.
Proof. rewrite lookup_app_r by lia. by rewrite Nat.sub_diag. Qed.

Lemma insert_pair0 {A : Type} (l : list A) (x y z : A) :
  <[length l := z]> (l ++ [x; y]) = l ++ [z; y].
Proof. rewrite insert_app_r_alt by lia. by rewrite Nat.sub_diag. Qed.

(** X16: an error injected for 'get' is delivered once.  Of two
    [get()] calls made after it, both pending until the flush, the
    flush rejects the promise of the first with the error and fulfils
    the promise of the second with a snapshot of the records the
    instance evaluates to. *)
Theorem get_error_then_success {L : Lodash} (w : world) (this : loc)
  (t : query) (ps : list property) (ds : list string) (pt : option query)
  (e : error) :
  stack w = [] ->
  instance w this t ps ds pt ->
  queues w !! queue t = Some (MkQueue [] []) ->
  flushDelay t = DFalse ->
  errs t !! "get" = Some e ->
  let p := length (promises w) in
  exists (w1 w2 : world),
    exec [Get this; Get this] w = Some w1 /\
    promises w1 !! p = Some (Promise Pending []) /\
    promises w1 !! S p = Some (Promise Pending []) /\
    exec [Flush this None; Tau; Tau; Tau; Tau] w1 = Some w2 /\
    stack w2 = [] /\
    promises w2 !! p = Some (Promise (Rejected e) []) /\
    exists s,
      promises w2 !! S p = Some (Promise (Fulfilled s) []) /\
      snapshot_docs s =
        results_of (data t) ps ds (limited t) (buildStartFinder t).
Proof.
intros Hst Hi HQ Hfd He p.
pose proof (inst_query _ _ _ _ _ _ Hi) as Hq.
pose proof (inst_properties _ _ _ _ _ _ Hi) as Hps.
pose proof (inst_directions _ _ _ _ _ _ Hi) as Hds.
assert (this < length (queries w)) as Hlt by (by eapply lookup_lt_Some).
assert (queue t < length (queues w)) as HltQ by (by eapply lookup_lt_Some).
(* the first call *)
pose proof (get_eq w this t _ Hq HQ) as Hget1.
set (w1 := after_get _ _ _ _) in Hget1.
set (t1 := with_errs (delete "get") t).
set (ev1 := get_event w this t).
set (Q1 := with_events (fun es => es ++ [ev1]) (MkQueue [] [])).
assert (stack w1 = []) as Hst1.
{ unfold w1, after_get. cbn [stack]. by rewrite Hfd. }
assert (step (Get this) w = Some w1) as Hs1.
{ rewrite (step_idle _ _ Hst). cbn [call].
  by rewrite (bind_Ret _ _ _ _ _ Hget1). }
assert (queries w1 !! this = Some t1) as Hq1
  by (by apply list_lookup_insert_eq).
assert (queues w1 !! queue t1 = Some Q1) as HQ1
  by (by apply list_lookup_insert_eq).
(* the second call *)
pose proof (get_eq w1 this t1 Q1 Hq1 HQ1) as Hget2.
set (w2 := after_get _ _ _ _) in Hget2.
set (t2 := with_errs (delete "get") t1).
set (ev2 := get_event w1 this t1).
set (Q2 := with_events (fun es => es ++ [ev2]) Q1).
assert (stack w2 = []) as Hst2.
{ unfold w2, after_get. cbn [stack flushDelay t1 with_errs].
  by rewrite Hfd. }
assert (step (Get this) w1 = Some w2) as Hs2.
{ rewrite (step_idle _ _ Hst1). cbn [call].
  by rewrite (bind_Ret _ _ _ _ _ Hget2). }
assert (length (queries w1) = length (queries w)) as Hlq1
  by apply length_insert.
assert (length (queues w1) = length (queues w)) as HlQ1
  by apply length_insert.
assert (queries w2 !! this = Some t2) as Hq2.
{ apply list_lookup_insert_eq. by rewrite Hlq1. }
assert (queues w2 !! queue t = Some Q2) as HQ2.
{ apply list_lookup_insert_eq. by rewrite HlQ1. }
assert (length (promises w1) = S p) as Hlp1 by apply length_snoc.
assert (promises w2 = promises w ++ [Promise Pending []; Promise Pending []])
  as Hpr2.
{ unfold w2, after_get. cbn [promises]. unfold w1, after_get.
  cbn [promises]. by rewrite <- app_assoc. }
(* the flush *)
pose proof (flush_eq w2 this t2 None Hq2) as Hfl.
set (w3 := set_stack _ _) in Hfl.
assert (step (Flush this None) w2 = Some w3) as Hs3.
{ rewrite (step_idle _ _ Hst2). cbn [call].
  by rewrite (bind_Ret _ _ _ _ _ Hfl). }
assert (stack w3 = [Drain (queue t)]) as Hst3.
{ unfold w3. cbn [stack set_stack]. by rewrite Hst2. }
assert (events Q2 = [Event (GetCallback this (Some e) p) this "get";
                     Event (GetCallback this None (S p)) this "get"])
  as HeQ2.
{ unfold Q2, Q1, ev1, ev2, get_event. cbn [events with_events app].
  rewrite He, Hlp1. cbn [errs t1 with_errs].
  by rewrite lookup_delete_eq. }
set (Q3 := with_events
             (fun _ => [Event (GetCallback this None (S p)) this "get"]) Q2).
pose proof (drain_get w3 (queue t) [] Q2 this t2 ps ds (Some e) p
              (Promise Pending [])
              [Event (GetCallback this None (S p)) this "get"]
              Hst3 HQ2 HeQ2 Hq2 Hps Hds) as Hs4.
fold Q3 in Hs4.
assert (promises w3 !! p = Some (Promise Pending [])) as Hp3.
{ change (promises w3) with (promises w2). rewrite Hpr2.
  apply lookup_pair0. }
specialize (Hs4 Hp3).
set (w4 := settle _ _ _ _) in Hs4.
assert (stack w4 = [Drain (queue t)]) as Hst4 by exact Hst3.
assert (length (queues w2) = length (queues w)) as HlQ2.
{ unfold w2, after_get. cbn [queues]. by rewrite length_insert. }
assert (queues w4 !! queue t = Some Q3) as HQ4.
{ unfold w4, settle. cbn [state queues set_queues w3 set_stack].
  apply list_lookup_insert_eq. by rewrite HlQ2. }
assert (promises w4 =
        promises w ++ [Promise (Rejected e) []; Promise Pending []])
  as Hpr4.
{ unfold w4, settle. cbn [state promises set_queues w3 set_stack
    get_outcome]. rewrite Hpr2. apply insert_pair0. }
pose proof (drain_get w4 (queue t) [] Q3 this t2 ps ds None (S p)
              (Promise Pending []) [] Hst4 HQ4 eq_refl) as Hs5.
assert (promises w4 !! S p = Some (Promise Pending [])) as Hp4.
{ rewrite Hpr4. apply lookup_pair. }
specialize (Hs5 Hq2 Hps Hds Hp4).
set (w5 := settle _ _ _ _) in Hs5.
assert (stack w5 = [Drain (queue t)]) as Hst5 by exact Hst3.
assert (queues w5 !! queue t = Some (MkQueue [] [])) as HQ5.
{ unfold w5, settle. cbn [state queues set_queues].
  apply list_lookup_insert_eq.
  unfold w4, settle. cbn [state queues set_queues w3 set_stack].
  by rewrite length_insert, HlQ2. }
pose proof (drain_done w5 (queue t) [] (MkQueue [] []) Hst5 HQ5
              eq_refl eq_refl) as Hs6.
set (w6 := set_stack _ _) in Hs6.
destruct (get_outcome_docs this t2 ps ds) as (s & Hs & Hd).
assert (promises w6 =
        promises w ++ [Promise (Rejected e) []; Promise (Fulfilled s) []])
  as Hpr6.
{ unfold w6, w5, settle. cbn [state promises set_queues set_stack
    set_trace]. rewrite Hpr4, Hs. apply insert_pair. }
exists w2, w6.
split; [cbn [exec]; by rewrite Hs1, Hs2|].
split; [rewrite Hpr2; apply lookup_pair0|].
split; [rewrite Hpr2; apply lookup_pair|].
split.
{ cbn [exec] in *. rewrite Hs3, Hs4, Hs5. exact Hs6. }
split; [done|].
split; [rewrite Hpr6; apply lookup_pair0|].
exists s. split; [|exact Hd].
rewrite Hpr6. apply lookup_pair.
Qed.

Lemma failing_instance : instance failing_world 0 failing_query [] [] None.
Proof. by split. Qed.

Lemma get_error_then_success_witness :
  stack failing_world = [] /\
  instance failing_world 0 failing_query [] [] None /\
  queues failing_world !! queue failing_query = Some (MkQueue [] []) /\
  flushDelay failing_query = DFalse /\
  errs failing_query !! "get" = Some (Error "boom") /\
  exists (w1 w2 : world),
    @exec plain_lodash [Get 0; Get 0] failing_world = Some w1 /\
    @exec plain_lodash [Flush 0 None; Tau; Tau; Tau; Tau] w1 = Some w2 /\
    promises w2 !! 0 = Some (Promise (Rejected (Error "boom")) []) /\
    exists s,
      promises w2 !! 1 = Some (Promise (Fulfilled s) []) /\
      snapshot_docs s = example_data.
Proof.
assert (stack failing_world = []) as Hst by reflexivity.
assert (queues failing_world !! queue failing_query = Some (MkQueue [] []))
  as HQ by reflexivity.
assert (flushDelay failing_query = DFalse) as Hfd by reflexivity.
assert (errs failing_query !! "get" = Some (Error "boom")) as He
  by reflexivity.
split; [exact Hst|]. split; [exact failing_instance|].
split; [exact HQ|]. split; [exact Hfd|]. split; [exact He|].
destruct (@get_error_then_success plain_lodash failing_world 0
            failing_query [] [] None (Error "boom") Hst
            failing_instance HQ Hfd He)
  as (w1 & w2 & H1 & _ & _ & H2 & _ & Hp & s & Hs & Hd).
exists w1, w2. split; [exact H1|]. split; [exact H2|].
split; [exact Hp|]. exists s. split; [exact Hs|]. rewrite Hd. reflexivity.
Defined.

Lemma auto_instance : instance auto_world 0 auto_query [] [] None.
Proof. by split. Qed.

Lemma get_auto_flush_witness :
  stack auto_world = [] /\
  instance auto_world 0 auto_query [] [] None /\
  queues auto_world !! queue auto_query = Some (MkQueue [] []) /\
  flushDelay auto_query = DTrue /\
  exists (w1 w2 : world) (s : snapshot),
    @step plain_lodash (Get 0) auto_world = Some w1 /\
    @exec plain_lodash [Tau; Tau; Tau] w1 = Some w2 /\
    promises w2 !! 0 = Some (Promise (Fulfilled s) []) /\
    snapshot_docs s = example_data.
Proof.
assert (stack auto_world = []) as Hst by reflexivity.
assert (queues auto_world !! queue auto_query = Some (MkQueue [] []))
  as HQ by reflexivity.
assert (flushDelay auto_query = DTrue) as Hfd by reflexivity.
split; [exact Hst|]. split; [exact auto_instance|].
split; [exact HQ|]. split; [exact Hfd|].
destruct (@get_auto_flush plain_lodash auto_world 0 auto_query [] [] None
            Hst auto_instance HQ Hfd)
  as (w1 & w2 & H1 & _ & _ & H2 & _ & _ & s & Hs & Hd).
exists w1, w2, s. split; [exact H1|]. split; [exact H2|].
split; [exact Hs|]. rewrite Hd. reflexivity.
Defined.

(** ** [autoFlush] again, and the constructor *)

(** X18: [autoFlush(d)] is idempotent: where every reference names an
    instance of the store the call returns, and a second call with the
    same argument changes nothing. *)
Theorem autoFlush_idempotent {L : Lodash} (w : world) (this : loc)
  (d : option delay) :
  stack w = [] ->
  closed (queries w) ->
  this < length (queries w) ->
  exists (w1 : world),
    step (AutoFlush this d) w = Some w1 /\
    step (AutoFlush this d) w1 = Some w1 /\
    flag_is (default DTrue d) (queries w1) this.
Proof.
intros Hst Hcl Hlt.
destruct (autoFlush_rec_total (default DTrue d) (fun _ => True)
            (S (length (queries w))) this w Hcl)
  as (qs' & Hrun & Hfl & _ & (t' & Ht' & Hfd) & _); [done|done|done|..].
{ pose proof (pending_le (default DTrue d) (queries w)). lia. }
exists (set_queries (fun _ => qs') w).
split; [|split].
- rewrite (step_idle _ _ Hst). cbn [call].
  unfold MockFirestoreQuery.autoFlush, read, mbind, M_bind, mret, M_ret.
  cbv beta iota. by rewrite Hrun.
- rewrite (step_idle (set_queries (fun _ => qs') w) _ Hst). cbn [call].
  unfold MockFirestoreQuery.autoFlush, read, mbind, M_bind, mret, M_ret.
  cbv beta iota. cbn [queries set_queries].
  assert (MockFirestoreQuery.autoFlush_rec (S (length qs')) this
            (default DTrue d) (set_queries (fun _ => qs') w) =
          Ret tt (set_queries (fun _ => qs') w)) as Hagain.
  { cbn [MockFirestoreQuery.autoFlush_rec].
    rewrite (bind_Ret _ _ _ _ _
               (deref_Some queries this t' (set_queries (fun _ => qs') w)
                  Ht')).
    by rewrite decide_True. }
  by rewrite Hagain.
- by exists t'.
Qed.

Lemma autoFlush_idempotent_witness :
  stack example_world = [] /\
  closed (queries example_world) /\
  0 < length (queries example_world) /\
  @step plain_lodash (AutoFlush 0 None) example_world = Some auto_world /\
  @step plain_lodash (AutoFlush 0 None) auto_world = Some auto_world.
Proof.
assert (closed (queries example_world)) as Hcl.
{ apply closed_nil_children. intros [|l] t Hl; [|done].
  injection Hl as <-. done. }
assert (stack example_world = []) as Hst by reflexivity.
assert (0 < length (queries example_world)) as Hlt by (simpl; lia).
split; [exact Hst|]. split; [exact Hcl|]. split; [exact Hlt|].
destruct (@autoFlush_idempotent plain_lodash example_world 0 None
            Hst Hcl Hlt) as (w1 & H1 & H2 & _).
assert (w1 = auto_world) as ->.
{ assert (@step plain_lodash (AutoFlush 0 None) example_world =
          Some auto_world) as H1' by (vm_compute; reflexivity).
  rewrite H1' in H1. by injection H1. }
split; [exact H1 | exact H2].
Defined.

(** X19: a new instance without a parent has no sort key, no limit,
    no cursor, no error and the flag [false], and a queue of its own;
    it keeps the records it is given, and evaluates to them, in their
    order.  Its path is the one given, 'Mock://' when none or an empty
    one is, and its id is the name [extractName] reads off the path
    given. *)
Theorem new_root_evaluates {L : Lodash} (w : world)
  (given name : option string) (d : option docs) :
  js_object (default [] d) ->
  let n := length (queries w) in
  exists (w' : world) (t : query),
    MockFirestoreQuery.new given d None name w = Ret n w' /\
    instance w' n t [] [] None /\
    errs t = ∅ /\ flushDelay t = DFalse /\ limited t = 0%Z /\
    buildStartFinder t = FromStart /\ children t = [] /\
    queue t = length (queues w) /\
    queues w' !! queue t = Some (MkQueue [] []) /\
    path t = default "Mock://"
               (match given with Some "" => None | _ => given end) /\
    id t = extractName given /\
    MockFirestoreQuery._getData n w' = Ret d w' /\
    MockFirestoreQuery._results n w' = Ret (default [] d) w'.
Proof.
intros Hjs n.
pose proof (new_root_eq given d name w) as Hnew.
set (t := Query _ _ _ _ _ _ _ _ _ _ _ _ _) in Hnew.
set (w' := World _ _ _ _ _ _ _ _ _ _ _) in Hnew.
assert (instance w' n t [] [] None) as Hi.
{ split; try done; apply lookup_snoc. }
exists w', t. split; [exact Hnew|]. split; [exact Hi|].
do 6 (split; [done|]).
split; [apply lookup_snoc|].
split; [by destruct given as [[|]|]|].
split; [done|].
split.
- unfold MockFirestoreQuery._getData.
  by rewrite (bind_Ret _ _ _ _ _
                (deref_Some queries n t w' (inst_query _ _ _ _ _ _ Hi))).
- rewrite (results_eq _ _ _ _ _ _ Hi).
  by rewrite results_of_unconstrained.
Qed.

Lemma new_root_evaluates_witness :
  js_object (default [] (Some example_data)) /\
  exists (w' : world),
    MockFirestoreQuery.new (Some "/coll") (Some example_data) None None
      empty_world = Ret 0 w' /\
    @MockFirestoreQuery._results plain_lodash 0 w' = Ret example_data w'.
Proof.
split; [exact example_data_js|].
destruct (@new_root_evaluates plain_lodash empty_world (Some "/coll") None
            (Some example_data) example_data_js)
  as (w' & t & H1 & _ & _ & _ & _ & _ & _ & _ & _ & _ & _ & _ & H2).
exists w'. split; [exact H1 | exact H2].
Defined.

(** ** Subscriptions *)

Section Handler.
Context {L : Lodash}.

Lemma onSnapshot_error_eq w this t ps ds pt Q imc e :
  instance w this t ps ds pt ->
  queues w !! queue t = Some Q ->
  errs t !! "onSnapshot" = Some e ->
  let s := length (subscriptions w) in
  let r0 := results_of (data t) ps ds (limited t) (buildStartFinder t) in
  MockFirestoreQuery.onSnapshot this imc w =
  Ret s
    (World (<[this := with_errs (delete "onSnapshot") t]> (queries w))
       (propertyArrays w) (directionArrays w)
       (<[queue t := with_postFlush (fun hs => hs ++ [s]) Q]> (queues w))
       (promises w)
       (subscriptions w ++ [Subscription this (Some e) imc r0])
       (stack w) (jobs w) (timers w) (console w)
       (trace w ++ [OnError s e])).
Proof.
intros [Hq Hp Hd Hpt] HQ He s r0.
assert (this < length (queries w)) as Hlt by (by eapply lookup_lt_Some).
unfold MockFirestoreQuery.onSnapshot, MockFirestoreQuery.onSnapshot_call,
  MockFirestoreQuery._nextErr, MockFirestoreQuery._results,
  MockFirestoreQuery.ref_of, Queue.onPostFlush.
run_M. same_world.
Qed.


End Handler.

(** X20: a subscription made while an error is injected for
    'onSnapshot' calls [onError] with it within the call, and does not
    call [onNext]; the error is taken off the instance, the errors
    under other names stay, and the handler is registered with the
    queue all the same. *)
Theorem onSnapshot_error_at_subscription {L : Lodash} (w : world)
  (this : loc) (t : query) (ps : list property) (ds : list string)
  (pt : option query) (Q : Queue) (imc : bool) (e : error) :
  stack w = [] ->
  instance w this t ps ds pt ->
  queues w !! queue t = Some Q ->
  errs t !! "onSnapshot" = Some e ->
  let s := length (subscriptions w) in
  exists (w1 : world) (t1 : query) (Q1 : Queue),
    step (OnSnapshot this imc) w = Some w1 /\
    trace w1 = trace w ++ [OnError s e] /\
    queries w1 !! this = Some t1 /\
    errs t1 !! "onSnapshot" = None /\
    (forall other, other <> "onSnapshot" ->
       errs t1 !! other = errs t !! other) /\
    queues w1 !! queue t = Some Q1 /\
    postFlush Q1 = postFlush Q ++ [s] /\ events Q1 = events Q /\
    promises w1 = promises w /\ stack w1 = [].
Proof.
intros Hst Hi HQ He s.
pose proof (onSnapshot_error_eq w this t ps ds pt Q imc e Hi HQ He) as Heq.
cbv zeta in Heq. fold s in Heq.
set (w1 := World _ _ _ _ _ _ _ _ _ _ _) in Heq.
assert (this < length (queries w)) as Hlt.
{ apply lookup_lt_is_Some. eexists. exact (inst_query _ _ _ _ _ _ Hi). }
assert (queue t < length (queues w)) as HltQ by (by eapply lookup_lt_Some).
exists w1, (with_errs (delete "onSnapshot") t),
  (with_postFlush (fun hs => hs ++ [s]) Q).
split.
{ rewrite (step_idle _ _ Hst). cbn [call].
  by rewrite (bind_Ret _ _ _ _ _ Heq). }
split; [done|].
split; [by apply list_lookup_insert_eq|].
split; [apply lookup_delete_eq|].
split; [intros other Hne; by apply lookup_delete_ne|].
split; [by apply list_lookup_insert_eq|].
done.
Qed.

Lemma refusing_instance :
  instance refusing_world 0 refusing_query [] [] None.
Proof. by split. Qed.

Lemma onSnapshot_error_at_subscription_witness :
  stack refusing_world = [] /\
  instance refusing_world 0 refusing_query [] [] None /\
  queues refusing_world !! queue refusing_query = Some (MkQueue [] []) /\
  errs refusing_query !! "onSnapshot" = Some (Error "boom") /\
  exists (w1 : world),
    @step plain_lodash (OnSnapshot 0 false) refusing_world = Some w1 /\
    trace w1 = [OnError 0 (Error "boom")].
Proof.
assert (stack refusing_world = []) as Hst by reflexivity.
assert (queues refusing_world !! queue refusing_query =
        Some (MkQueue [] [])) as HQ by reflexivity.
assert (errs refusing_query !! "onSnapshot" = Some (Error "boom")) as He
  by reflexivity.
split; [exact Hst|]. split; [exact refusing_instance|].
split; [exact HQ|]. split; [exact He|].
destruct (@onSnapshot_error_at_subscription plain_lodash refusing_world 0
            refusing_query [] [] None (MkQueue [] []) false (Error "boom")
            Hst refusing_instance HQ He)
  as (w1 & t1 & Q1 & H1 & Htr & _).
exists w1. split; [exact H1 | exact Htr].
Defined.

Section Rounds.
Context {L : Lodash}.

End Rounds.

Section Rounds2.
Context {L : Lodash}.

End Rounds2.



(** X22: a filter and a limit may be called in either order:
    [limit(n).where(p, '==', v)] and [where(p, '==', v).limit(n)]
    return instances that evaluate alike, to the first [n] of the
    records that pass the filter, taken in the order and after the
    cursor of the receiver. *)
Theorem where_limit_commute {L : Lodash} (w : world) (this : loc)
  (t : query) (ps : list property) (ds : list string) (pt : option query)
  (property : property) (value : value) (n : Z) :
  instance w this t ps ds pt ->
  js_object (default [] (data t)) ->
  let k := length (queries w) in
  let r :=
    results_of (Some (filter (matches property value) (default [] (data t))))
      ps ds n (buildStartFinder t) in
  exists (w1 w2 w1' w2' : world),
    MockFirestoreQuery.limit this n w = Ret k w1 /\
    MockFirestoreQuery.where_ k property "==" value w1 = Ret (S k) w2 /\
    MockFirestoreQuery._results (S k) w2 = Ret r w2 /\
    MockFirestoreQuery.where_ this property "==" value w = Ret k w1' /\
    MockFirestoreQuery.limit k n w1' = Ret (S k) w2' /\
    MockFirestoreQuery._results (S k) w2' = Ret r w2'.
Proof.
intros Hi Hjs k r.
(* the limit first *)
pose proof (limit_eq w this t ps ds pt n Hi) as H1.
pose proof (instance_new w this t ps ds pt
              (with_limited n (cloned w t pt)) ps ds []
              Hi eq_refl eq_refl eq_refl) as Hi1.
set (w1 := after_clone _ _ _ _ _ _) in H1, Hi1.
set (t1 := with_limited n _) in Hi1.
assert (length (queries w1) = S k) as Hlen by apply length_snoc.
destruct (where_kept w1 k t1 ps ds pt property "==" value
            (matches property value) Hi1 Hjs eq_refl)
  as (w2 & t2 & Hw2 & _ & _ & _ & Hr2 & _).
{ intros acc l. apply foldl_where_step. }
rewrite Hlen in Hw2, Hr2.
(* the filter first *)
destruct (where_kept w this t ps ds pt property "==" value
            (matches property value) Hi Hjs eq_refl)
  as (w1' & t1' & Hw1' & Hi1' & _ & Hd1' & _ & Hlen' & _ & _ & Hb1').
{ intros acc l. apply foldl_where_step. }
pose proof (limit_eq w1' k t1' ps ds pt n Hi1') as H2'.
pose proof (instance_new w1' k t1' ps ds pt
              (with_limited n (cloned w1' t1' pt)) ps ds []
              Hi1' eq_refl eq_refl eq_refl) as Hi2'.
rewrite Hlen' in H2', Hi2'.
eexists _, _, _, _. split; [exact H1|]. split; [exact Hw2|].
split; [exact Hr2|]. split; [exact Hw1'|]. split; [exact H2'|].
rewrite (results_eq _ _ _ _ _ _ Hi2').
cbn [data limited buildStartFinder with_limited cloned].
by rewrite results_of_default, Hd1', Hb1'.
Qed.

Lemma where_limit_commute_witness :
  instance example_world 0 example_query [] [] None /\
  js_object (default [] (data example_query)) /\
  exists (w1 w2 : world),
    MockFirestoreQuery.limit 0 1 example_world = Ret 1 w1 /\
    @MockFirestoreQuery.where_ plain_lodash 1 (Name "x") "==" (VNum 1) w1 =
      Ret 2 w2 /\
    @MockFirestoreQuery._results plain_lodash 2 w2 =
      Ret [("a", [("x", VNum 1)])] w2.
Proof.
split; [exact example_instance|]. split; [exact example_data_js|].
destruct (@where_limit_commute plain_lodash example_world 0 example_query
            [] [] None (Name "x") (VNum 1) 1 example_instance
            example_data_js)
  as (w1 & w2 & _ & _ & H1 & H2 & Hr & _).
change (length (queries example_world)) with 1 in H1, H2, Hr.
exists w1, w2. split; [exact H1|]. split; [exact H2|].
rewrite Hr. reflexivity.
Defined.
